(** * rtmpServerStudy: the RTMP session engine and the H.265 decoder record

    A shallow embedding of the parts of the repository that its
    specification talks about:

    - the publisher registry ([hash], [RtmpSessionGet], [RtmpSessionPush],
      [RtmpSessionDel]);
    - the chunk codec ([fillChunk0Header], [fillChunk3Header],
      [chunkStream.Start], [Session.readChunk]);
    - the accept loop of [Server.rtmpServeStart];
    - [AVCDecoderConfRecord.Len], [AVCDecoderConfRecord.Marshal] and
      [AVCDecoderConfRecord.Unmarshal] of the h265Parse package;
    - [SplitNALUs] of the same package, with its AVCC and Annex B loops.

    Conventions.  A Go [uint8]/[uint32]/[int] is a [Z] whose wrap-around is
    written where the source can overflow; a byte on the wire is a
    [Byte.byte]; a Go [map] is a [gmap]; a slice is a [list].  A run-time
    panic (index or slice bounds out of range) is an explicit outcome: it is
    never silently turned into a value. *)

From Stdlib Require Import ZArith List Lia Bool.
From Stdlib Require Import Strings.String Strings.Ascii Strings.Byte.
From stdpp Require Import base option list gmap strings fin_maps.

Local Open Scope Z_scope.

(** ** Bytes and fixed-width integers *)

Module Bytes.

Definition byte_to_Z (b : byte) : Z := Z.of_N (Byte.to_N b).

(** [byte(v)]: the conversion of an integer to [uint8] keeps the low 8 bits. *)
Definition Z_to_byte (v : Z) : byte :=
  default Byte.x00 (Byte.of_N (Z.to_N (v mod 256))).

Definition u32 (v : Z) : Z := v mod 2 ^ 32.

(** Go's [len]. *)
Definition len {A : Type} (b : list A) : Z := Z.of_nat (length b).

(** [b[i]] on a slice already known to be long enough (every call site below
    passes a slice that was just filled by [io.ReadFull]). *)
Definition at_ (b : list byte) (i : nat) : Z := byte_to_Z (nth i b Byte.x00).

(** github.com/nareix/bits/pio readers. *)
Definition U16BE (b : list byte) : Z :=
  Z.lor (Z.shiftl (at_ b 0) 8) (at_ b 1).

Definition U24BE (b : list byte) : Z :=
  Z.lor (Z.lor (Z.shiftl (at_ b 0) 16) (Z.shiftl (at_ b 1) 8)) (at_ b 2).

Definition U32BE (b : list byte) : Z :=
  Z.lor (Z.lor (Z.lor (Z.shiftl (at_ b 0) 24) (Z.shiftl (at_ b 1) 16))
               (Z.shiftl (at_ b 2) 8)) (at_ b 3).

Definition U32LE (b : list byte) : Z :=
  Z.lor (Z.lor (Z.lor (at_ b 0) (Z.shiftl (at_ b 1) 8))
               (Z.shiftl (at_ b 2) 16)) (Z.shiftl (at_ b 3) 24).

(** The bytes the pio writers store, most significant first (BE) or last
    (LE). *)
Definition bytesU16BE (v : Z) : list byte :=
  [Z_to_byte (Z.shiftr v 8); Z_to_byte v].

Definition bytesU24BE (v : Z) : list byte :=
  [Z_to_byte (Z.shiftr v 16); Z_to_byte (Z.shiftr v 8); Z_to_byte v].

Definition bytesU32BE (v : Z) : list byte :=
  [Z_to_byte (Z.shiftr v 24); Z_to_byte (Z.shiftr v 16);
   Z_to_byte (Z.shiftr v 8); Z_to_byte v].

Definition bytesU32LE (v : Z) : list byte :=
  [Z_to_byte v; Z_to_byte (Z.shiftr v 8);
   Z_to_byte (Z.shiftr v 16); Z_to_byte (Z.shiftr v 24)].

(** Writing into a Go slice.  [None] is the run-time panic of an index or a
    slice bound out of range. *)
Definition store (b : list byte) (i : Z) (v : byte) : option (list byte) :=
  if (0 <=? i) && (i <? Z.of_nat (length b))
  then Some (<[Z.to_nat i := v]> b) else None.

(** [put b off bs]: the stores [b[off] = bs[0]; b[off+1] = bs[1]; ...] a pio
    writer performs on [b[off:]]. *)
Definition put (b : list byte) (off : Z) (bs : list byte) : option (list byte) :=
  if (0 <=? off) && (off + Z.of_nat (length bs) <=? Z.of_nat (length b))
  then Some (take (Z.to_nat off) b ++ bs
             ++ drop (Z.to_nat off + length bs) b)
  else None.

(** [copy(b[off:], src)]: panics when [off] is past the slice, otherwise
    copies as many bytes as fit. *)
Definition copy_at (b : list byte) (off : Z) (src : list byte) : option (list byte) :=
  if (0 <=? off) && (off <=? Z.of_nat (length b))
  then let k := Nat.min (length src) (length b - Z.to_nat off) in
       Some (take (Z.to_nat off) b ++ take k src
             ++ drop (Z.to_nat off + k) b)
  else None.

End Bytes.

Import Bytes.

(** ** Sessions *)

(** The state of one chunk stream and the per-connection record.  Of
    [Session] only the fields the modelled functions read or write are
    kept; [bufr] is the bytes the connection has yet to deliver. *)
Record chunkStream := mkChunkStream {
  timenow : Z;
  timedelta : Z;
  hastimeext : bool;
  msgsid : Z;
  msgtypeid : Z;
  msgdatalen : Z;
  msgdataleft : Z;
  msghdrtype : Z;
  msgdata : list byte
}.

Record Session := mkSession {
  StreamAnchor : string;
  ackn : Z;
  readAckSize : Z;
  publishing : bool;
  playing : bool;
  readcsmap : gmap Z chunkStream;
  readMaxChunkSize : Z;
  bufr : list byte
}.

Definition HashMapFactors : Z := 101.

(** ** The publisher registry *)

(** hash/fnv, [New32a]: offset basis 2166136261, prime 16777619, each byte
    is xored in and the sum multiplied, in [uint32]. *)
Definition fnv32a_step (h : Z) (c : ascii) : Z :=
  u32 (Z.lxor h (Z.of_N (N_of_ascii c)) * 16777619).

Definition hash (s : string) : Z :=
  fold_left fnv32a_step (list_ascii_of_string s) 2166136261.

Module Registry.

(** [PublishingSessionMap]: an array of [HashMapFactors] maps.  The locks of
    each shard make every operation below atomic, so an operation is a
    transition on the array. *)
Definition init : list (gmap string Session) :=
  replicate (Z.to_nat HashMapFactors) ∅.

Definition index (path : string) : Z := hash path mod HashMapFactors.

(** [PublishingSessionMap[i].sessionIndex]. *)
Definition shard (reg : list (gmap string Session)) (i : Z) : gmap string Session :=
  default ∅ (reg !! Z.to_nat i).

Definition RtmpSessionGet (path : string) (reg : list (gmap string Session))
  : option Session :=
  let i := index path in
  match shard reg i !! path with
  | Some pubSession => Some pubSession
  | None => None
  end.

Definition RtmpSessionPush (session : Session) (reg : list (gmap string Session))
  : bool * list (gmap string Session) :=
  let path := StreamAnchor session in
  let i := index path in
  match shard reg i !! path with
  | Some _ => (false, reg)
  | None => (true, <[Z.to_nat i := <[path := session]> (shard reg i)]> reg)
  end.

Definition RtmpSessionDel (session : Session) (reg : list (gmap string Session))
  : list (gmap string Session) :=
  let path := StreamAnchor session in
  let i := index path in
  <[Z.to_nat i := delete path (shard reg i)]> reg.

(** A history of registry calls, as the sessions of a server make them. *)
Inductive op :=
| OpPush (session : Session)
| OpDel (session : Session).

Definition step (reg : list (gmap string Session)) (o : op) : list (gmap string Session) :=
  match o with
  | OpPush s => (RtmpSessionPush s reg).2
  | OpDel s => RtmpSessionDel s reg
  end.

Definition run (ops : list op) (reg : list (gmap string Session)) : list (gmap string Session) :=
  fold_left step ops reg.

Definition removes (a : string) (o : op) : Prop :=
  match o with
  | OpPush _ => False
  | OpDel s => StreamAnchor s = a
  end.



Definition wf (reg : list (gmap string Session)) : Prop :=
  length reg = Z.to_nat HashMapFactors.

End Registry.

(** ** The chunk codec: writing headers *)

Definition chunkHeaderLength : Z := 12 + 4.

(** [fillChunk3Header]: the buffer after the stores, and the count [n]. *)
Definition fillChunk3Header (b : list byte) (csid timestamp : Z)
  : option (list byte * Z) :=
  let n := 0 in
  b ← store b n (Z_to_byte (Z.lor (Z.land (csid mod 256) 0x3f) 0xC0));
  let n := n + 1 in
  if timestamp >=? 0xffffff then
    b ← put b n (bytesU32BE timestamp);
    Some (b, n + 4)
  else Some (b, n).

Definition fillChunk0Header (b : list byte)
    (csid timestamp msgtypeid msgsid msgdatalen : Z) : option (list byte * Z) :=
  let n := 0 in
  b ← store b n (Z_to_byte (Z.land (csid mod 256) 0x3f));
  let n := n + 1 in
  b ← (if timestamp <? 0xffffff
       then put b n (bytesU24BE (u32 timestamp))
       else put b n (bytesU24BE 0xffffff));
  let n := n + 3 in
  b ← put b n (bytesU24BE (u32 msgdatalen));
  let n := n + 3 in
  b ← store b n (Z_to_byte msgtypeid);
  let n := n + 1 in
  b ← put b n (bytesU32LE msgsid);
  let n := n + 4 in
  if timestamp >=? 0xffffff then
    b ← put b n (bytesU32BE timestamp);
    Some (b, n + 4)
  else Some (b, n).

(** ** The chunk codec: reading *)

Inductive error :=
| ErrEOF                     (* io.EOF *)
| ErrUnexpectedEOF           (* io.ErrUnexpectedEOF *)
| ErrMsgDataLeft (left : Z)  (* rtmp: chunk msgdataleft=%d invalid *)
| ErrInvalidHdrType (t : Z)  (* rtmp: invalid chunk msg header type=%d *)
| ErrHandler (code : Z)      (* the error a message handler returned *)
| ErrWrite (code : Z).       (* the error writeRtmpMsgAck returned *)

(** What a call comes back with: [Ok] is a nil error. *)
Inductive result (A : Type) :=
| Ok (a : A)
| Err (e : error)
| Panic.

Arguments Ok {A} a.
Arguments Err {A} e.
Arguments Panic {A}.

(** [io.ReadFull(self.bufr, buf)] with [len(buf) = n], on a connection that
    delivers the bytes [r] and then ends: the bytes stored in [buf], what is
    left of the connection, and the error.  A short read stores what there
    was; nothing to read at all is [io.EOF]; [n = 0] reads nothing and
    succeeds. *)
Definition ReadFull (r : list byte) (n : nat) : list byte * list byte * option error :=
  if (n <=? length r)%nat then (take n r, drop n r, None)
  else (r, [], Some (match r with [] => ErrEOF | _ => ErrUnexpectedEOF end)).

Definition set_timenow (v : Z) (cs : chunkStream) : chunkStream :=
  mkChunkStream v (timedelta cs) (hastimeext cs) (msgsid cs) (msgtypeid cs)
    (msgdatalen cs) (msgdataleft cs) (msghdrtype cs) (msgdata cs).

Definition set_timedelta (v : Z) (cs : chunkStream) : chunkStream :=
  mkChunkStream (timenow cs) v (hastimeext cs) (msgsid cs) (msgtypeid cs)
    (msgdatalen cs) (msgdataleft cs) (msghdrtype cs) (msgdata cs).

Definition set_hastimeext (v : bool) (cs : chunkStream) : chunkStream :=
  mkChunkStream (timenow cs) (timedelta cs) v (msgsid cs) (msgtypeid cs)
    (msgdatalen cs) (msgdataleft cs) (msghdrtype cs) (msgdata cs).

Definition set_msgsid (v : Z) (cs : chunkStream) : chunkStream :=
  mkChunkStream (timenow cs) (timedelta cs) (hastimeext cs) v (msgtypeid cs)
    (msgdatalen cs) (msgdataleft cs) (msghdrtype cs) (msgdata cs).

Definition set_msgtypeid (v : Z) (cs : chunkStream) : chunkStream :=
  mkChunkStream (timenow cs) (timedelta cs) (hastimeext cs) (msgsid cs) v
    (msgdatalen cs) (msgdataleft cs) (msghdrtype cs) (msgdata cs).

Definition set_msgdatalen (v : Z) (cs : chunkStream) : chunkStream :=
  mkChunkStream (timenow cs) (timedelta cs) (hastimeext cs) (msgsid cs)
    (msgtypeid cs) v (msgdataleft cs) (msghdrtype cs) (msgdata cs).

Definition set_msgdataleft (v : Z) (cs : chunkStream) : chunkStream :=
  mkChunkStream (timenow cs) (timedelta cs) (hastimeext cs) (msgsid cs)
    (msgtypeid cs) (msgdatalen cs) v (msghdrtype cs) (msgdata cs).

Definition set_msghdrtype (v : Z) (cs : chunkStream) : chunkStream :=
  mkChunkStream (timenow cs) (timedelta cs) (hastimeext cs) (msgsid cs)
    (msgtypeid cs) (msgdatalen cs) (msgdataleft cs) v (msgdata cs).

Definition set_msgdata (v : list byte) (cs : chunkStream) : chunkStream :=
  mkChunkStream (timenow cs) (timedelta cs) (hastimeext cs) (msgsid cs)
    (msgtypeid cs) (msgdatalen cs) (msgdataleft cs) (msghdrtype cs) v.

(** [&chunkStream{}]. *)
Definition zeroChunkStream : chunkStream :=
  mkChunkStream 0 0 false 0 0 0 0 0 [].

(** [chunkStream.Start]. *)
Definition Start (self : chunkStream) : chunkStream :=
  set_msgdata (replicate (Z.to_nat (msgdatalen self)) Byte.x00)
    (set_msgdataleft (msgdatalen self) self).

Definition set_bufr (v : list byte) (s : Session) : Session :=
  mkSession (StreamAnchor s) (ackn s) (readAckSize s) (publishing s)
    (playing s) (readcsmap s) (readMaxChunkSize s) v.

Definition set_readcsmap (v : gmap Z chunkStream) (s : Session) : Session :=
  mkSession (StreamAnchor s) (ackn s) (readAckSize s) (publishing s)
    (playing s) v (readMaxChunkSize s) (bufr s).

Definition set_ackn (v : Z) (s : Session) : Session :=
  mkSession (StreamAnchor s) v (readAckSize s) (publishing s)
    (playing s) (readcsmap s) (readMaxChunkSize s) (bufr s).

Definition set_readAckSize (v : Z) (s : Session) : Session :=
  mkSession (StreamAnchor s) (ackn s) v (publishing s)
    (playing s) (readcsmap s) (readMaxChunkSize s) (bufr s).

Definition set_readMaxChunkSize (v : Z) (s : Session) : Session :=
  mkSession (StreamAnchor s) (ackn s) (readAckSize s) (publishing s)
    (playing s) (readcsmap s) v (bufr s).

(** [NewSesion(netconn)], for a connection that will deliver [input]. *)
Definition NewSesion (input : list byte) : Session :=
  mkSession "" 0 0 false false ∅ 128 input.

(** The package variable [EXTTIME]. *)
Definition EXTTIME : bool := true.

(** [readChunk], lines 305-333: the basic header.  The result is the
    connection after the reads and [(fmtTpye, csid, n)]. *)
Definition readBasicHeader (r : list byte) : list byte * result (Z * Z * Z) :=
  match ReadFull r 1 with
  | (_, r, Some e) => (r, Err e)
  | (b, r, None) =>
      let header := at_ b 0 in
      let n := 1 in
      let fmtTpye := Z.shiftr header 6 in
      let csid := Z.land header 0x3f in
      match csid with
      | 0 =>
          match ReadFull r 1 with
          | (_, r, Some e) => (r, Err e)
          | (b, r, None) => (r, Ok (fmtTpye, at_ b 0 + 64, n + 1))
          end
      | 1 =>
          match ReadFull r 2 with
          | (_, r, Some e) => (r, Err e)
          | (b, r, None) => (r, Ok (fmtTpye, U16BE b + 64, n + 2))
          end
      | _ => (r, Ok (fmtTpye, csid, n))
      end
  end.

(** The extended timestamp that follows a type 0, 1 or 2 message header
    (lines 370-379, and again 406-415 and 439-448): the timestamp to use
    and the number of bytes read. *)
Definition readTimeExt (timestamp : Z) (cs : chunkStream) (r : list byte)
  : chunkStream * list byte * result (Z * Z) :=
  if timestamp =? 0xffffff then
    match ReadFull r 4 with
    | (_, r, Some e) => (cs, r, Err e)
    | (b, r, None) => (set_hastimeext true cs, r, Ok (U32BE b, 4))
    end
  else (set_hastimeext false cs, r, Ok (timestamp, 0)).

(** [readChunk], lines 343-484: the message header of each type, on the
    chunk stream [cs] the basic header selected.  The result is the chunk
    stream as the code leaves it (also when it fails half way), the
    connection, and the number of bytes read. *)
Definition readMsgHeader (fmtTpye : Z) (cs : chunkStream) (r : list byte)
  : chunkStream * list byte * result Z :=
  match fmtTpye with
  | 0 =>
      if negb (msgdataleft cs =? 0) then (cs, r, Err (ErrMsgDataLeft (msgdataleft cs)))
      else
        match ReadFull r 11 with
        | (_, r, Some e) => (cs, r, Err e)
        | (h, r, None) =>
            let timestamp := U24BE (take 3 h) in
            let cs := set_msghdrtype fmtTpye cs in
            let cs := set_msgdatalen (U24BE (take 3 (drop 3 h))) cs in
            let cs := set_msgtypeid (at_ h 6) cs in
            let cs := set_msgsid (U32LE (take 4 (drop 7 h))) cs in
            match readTimeExt timestamp cs r with
            | (cs, r, Ok (timestamp, k)) =>
                let cs := set_timenow timestamp cs in
                (Start cs, r, Ok (11 + k))
            | (cs, r, Err e) => (cs, r, Err e)
            | (cs, r, Panic) => (cs, r, Panic)
            end
        end
  | 1 =>
      if negb (msgdataleft cs =? 0) then (cs, r, Err (ErrMsgDataLeft (msgdataleft cs)))
      else
        match ReadFull r 7 with
        | (_, r, Some e) => (cs, r, Err e)
        | (h, r, None) =>
            let timestamp := U24BE (take 3 h) in
            let cs := set_msghdrtype fmtTpye cs in
            let cs := set_msgdatalen (U24BE (take 3 (drop 3 h))) cs in
            let cs := set_msgtypeid (at_ h 6) cs in
            match readTimeExt timestamp cs r with
            | (cs, r, Ok (timestamp, k)) =>
                let cs := set_timedelta timestamp cs in
                let cs := set_timenow (u32 (timenow cs + timestamp)) cs in
                (Start cs, r, Ok (7 + k))
            | (cs, r, Err e) => (cs, r, Err e)
            | (cs, r, Panic) => (cs, r, Panic)
            end
        end
  | 2 =>
      if negb (msgdataleft cs =? 0) then (cs, r, Err (ErrMsgDataLeft (msgdataleft cs)))
      else
        match ReadFull r 3 with
        | (_, r, Some e) => (cs, r, Err e)
        | (h, r, None) =>
            let cs := set_msghdrtype fmtTpye cs in
            let timestamp := U24BE (take 3 h) in
            match readTimeExt timestamp cs r with
            | (cs, r, Ok (timestamp, k)) =>
                let cs := set_timedelta timestamp cs in
                let cs := set_timenow (u32 (timenow cs + timestamp)) cs in
                (Start cs, r, Ok (3 + k))
            | (cs, r, Err e) => (cs, r, Err e)
            | (cs, r, Panic) => (cs, r, Panic)
            end
        end
  | 3 =>
      let '(cs, r, res) :=
        if hastimeext cs && EXTTIME then
          match msghdrtype cs with
          | 0 =>
              match ReadFull r 4 with
              | (_, r, Some e) => (cs, r, Err e)
              | (b, r, None) => (set_timenow (U32BE b) cs, r, Ok 4)
              end
          | 1 | 2 =>
              match ReadFull r 4 with
              | (_, r, Some e) => (cs, r, Err e)
              | (b, r, None) =>
                  (set_timenow (u32 (timenow cs + U32BE b)) cs, r, Ok 4)
              end
          | _ => (cs, r, Ok 0)
          end
        else
          match msghdrtype cs with
          | 1 | 2 => (set_timenow (u32 (timenow cs + timedelta cs)) cs, r, Ok 0)
          | _ => (cs, r, Ok 0)
          end in
      match res with
      | Ok k => ((if msgdataleft cs =? 0 then Start cs else cs), r, Ok k)
      | _ => (cs, r, res)
      end
  | _ => (cs, r, Err (ErrInvalidHdrType fmtTpye))
  end.

(** [readChunk], lines 486-498: the payload of the chunk.  [int] is taken
    to be 64 bits wide, so [int(cs.msgdataleft)] is exact.  The slice
    expression [cs.msgdata[off : int(off)+size]] panics unless
    [off <= off+size <= cap(cs.msgdata)]. *)
Definition readPayload (readMaxChunkSize : Z) (cs : chunkStream) (r : list byte)
  : chunkStream * list byte * result Z :=
  let size := msgdataleft cs in
  let size := if size >? readMaxChunkSize then readMaxChunkSize else size in
  let off := u32 (msgdatalen cs - msgdataleft cs) in
  if negb ((off <=? off + size) && (off + size <=? Z.of_nat (length (msgdata cs))))
  then (cs, r, Panic)
  else
    let '(got, r, e) := ReadFull r (Z.to_nat size) in
    let cs := set_msgdata (take (Z.to_nat off) (msgdata cs) ++ got
                           ++ drop (Z.to_nat off + length got) (msgdata cs)) cs in
    match e with
    | Some e => (cs, r, Err e)
    | None => (set_msgdataleft (u32 (msgdataleft cs - u32 size)) cs, r, Ok size)
    end.

(** [readChunk], lines 305-498: everything up to the point where the
    message may be complete.  [cs] is a pointer into [self.readcsmap], so
    whatever was stored through it is in the map when the function leaves.
    The result names the chunk stream and the bytes read so far. *)
Definition readChunkData (self : Session) : Session * result (Z * Z) :=
  match readBasicHeader (bufr self) with
  | (r, Err e) => (set_bufr r self, Err e)
  | (r, Panic) => (set_bufr r self, Panic)
  | (r, Ok (fmtTpye, csid, n)) =>
      let cs := default zeroChunkStream (readcsmap self !! csid) in
      match readMsgHeader fmtTpye cs r with
      | (cs, r, Err e) =>
          (set_bufr r (set_readcsmap (<[csid := cs]> (readcsmap self)) self), Err e)
      | (cs, r, Panic) =>
          (set_bufr r (set_readcsmap (<[csid := cs]> (readcsmap self)) self), Panic)
      | (cs, r, Ok k) =>
          let n := n + k in
          match readPayload (readMaxChunkSize self) cs r with
          | (cs, r, Err e) =>
              (set_bufr r (set_readcsmap (<[csid := cs]> (readcsmap self)) self), Err e)
          | (cs, r, Panic) =>
              (set_bufr r (set_readcsmap (<[csid := cs]> (readcsmap self)) self), Panic)
          | (cs, r, Ok size) =>
              (set_bufr r (set_readcsmap (<[csid := cs]> (readcsmap self)) self),
               Ok (csid, n + size))
          end
      end
  end.

(** What [readChunk] calls and this repository's other files define: the
    handler table [hands] (nil entries are [None]), [Session.ReadRegister]
    and [Session.writeRtmpMsgAck].  Each may change the session it is given;
    an error is an opaque code. *)
Record Env := mkEnv {
  hands : Z -> option (Session -> Z -> Z -> Z -> list byte -> Session * option Z);
  ReadRegister : Session -> Session;
  writeRtmpMsgAck : Session -> Z -> Session * option Z
}.

(** The calls [readChunk] makes to them, in order. *)
Inductive event :=
| EvHandler (msgtypeid timenow msgsid : Z) (msgdata : list byte)
| EvAck (n : Z).

(** [readChunk], lines 519-527. *)
Definition ackStep (env : Env) (n : Z) (self : Session)
  : Session * list event * result unit :=
  let self := set_ackn (u32 (ackn self + u32 n)) self in
  if negb (readAckSize self =? 0) && (ackn self >? readAckSize self) then
    let ev := EvAck (ackn self) in
    match writeRtmpMsgAck env self (ackn self) with
    | (self, Some e) => (self, [ev], Err (ErrWrite e))
    | (self, None) => (set_ackn 0 self, [ev], Ok tt)
    end
  else (self, [], Ok tt).

(** [Session.readChunk].  After the first part, [cs] is the entry of
    [readcsmap] for the chunk stream of this chunk: the object the pointer
    [cs] of the source points to.  [ReadRegister] runs before the handler
    is looked up; the handler is given the fields of [cs]. *)
Definition readChunk (env : Env) (self : Session)
  : Session * list event * result unit :=
  match readChunkData self with
  | (self, Err e) => (self, [], Err e)
  | (self, Panic) => (self, [], Panic)
  | (self, Ok (csid, n)) =>
      let cs := default zeroChunkStream (readcsmap self !! csid) in
      if msgdataleft cs =? 0 then
        let self := ReadRegister env self in
        match hands env (msgtypeid cs) with
        | Some h =>
            let ev := EvHandler (msgtypeid cs) (timenow cs) (msgsid cs) (msgdata cs) in
            match h self (timenow cs) (msgsid cs) (msgtypeid cs) (msgdata cs) with
            | (self, Some e) => (self, [ev], Err (ErrHandler e))
            | (self, None) =>
                let '(self, evs, res) := ackStep env n self in
                (self, ev :: evs, res)
            end
        | None => ackStep env n self
        end
      else ackStep env n self
  end.

(** [Session.rtmpReadMsgCycle]: chunks are read until one fails.  The loop
    is cut after [fuel] chunks; [None] says the cut was reached. *)
Fixpoint rtmpReadMsgCycle (env : Env) (fuel : nat) (self : Session)
  : option (Session * list event * result unit) :=
  match fuel with
  | O => None
  | S fuel =>
      match readChunk env self with
      | (self, evs, Ok _) =>
          match rtmpReadMsgCycle env fuel self with
          | Some (self, evs', res) => Some (self, evs ++ evs', res)
          | None => None
          end
      | (self, evs, res) => Some (self, evs, res)
      end
  end.

(** *** Headers on the wire *)

(** The bytes of a type 0 and of a type 3 chunk header on the wire, as the
    RTMP specification lays them out for a chunk stream id below 64: the
    extended timestamp follows when the timestamp does not fit 24 bits. *)
Definition extBytes (timestamp : Z) : list byte :=
  if timestamp >=? 0xffffff then bytesU32BE timestamp else [].

Definition wireHeader0 (csid timestamp msgtypeid msgsid msgdatalen : Z) : list byte :=
  Z_to_byte csid
  :: bytesU24BE (if timestamp <? 0xffffff then timestamp else 0xffffff)
  ++ bytesU24BE msgdatalen ++ [Z_to_byte msgtypeid] ++ bytesU32LE msgsid
  ++ extBytes timestamp.

Definition wireHeader3 (csid timestamp : Z) : list byte :=
  Z_to_byte (csid + 0xC0) :: extBytes timestamp.

(** *** Vocabulary of the statements about [readChunk] *)

(** The acknowledgements and the handler calls among the calls made. *)
Definition acks (evs : list event) : list Z :=
  flat_map (fun ev => match ev with EvAck n => [n] | _ => [] end) evs.

Definition handlerCalls (evs : list event) : list event :=
  flat_map (fun ev => match ev with EvHandler _ _ _ _ => [ev] | _ => [] end) evs.

(** The state of a chunk stream between two chunks: the buffer has the
    declared length and what is left of the message fits in it. *)
Definition cs_wf (cs : chunkStream) : Prop :=
  len (msgdata cs) = msgdatalen cs
  /\ 0 <= msgdataleft cs <= msgdatalen cs
  /\ msgdatalen cs < 2 ^ 32.

Definition session_wf (self : Session) : Prop :=
  forall csid cs, readcsmap self !! csid = Some cs -> cs_wf cs.

(** What the collaborators of [readChunk] leave alone: the byte counter,
    the chunk streams and the connection belong to the reader.  Handlers
    may set the chunk size and the acknowledgement window; the other two
    do not. *)
Definition keeps_reader (s s' : Session) : Prop :=
  ackn s' = ackn s /\ readcsmap s' = readcsmap s /\ bufr s' = bufr s.

Definition keeps_sizes (s s' : Session) : Prop :=
  readAckSize s' = readAckSize s /\ readMaxChunkSize s' = readMaxChunkSize s.

Definition env_frame (env : Env) : Prop :=
  (forall t h s ts sid d, hands env t = Some h -> keeps_reader s (h s ts sid t d).1)
  /\ (forall s, keeps_reader s (ReadRegister env s)
                /\ keeps_sizes s (ReadRegister env s))
  /\ (forall s n, keeps_reader s (writeRtmpMsgAck env s n).1
                  /\ keeps_sizes s (writeRtmpMsgAck env s n).1).

(** A handler table in the shape of the repository's: set-chunk-size (1)
    stores the new chunk size, window-ack-size (5) stores the window, audio
    (8) is taken as it is, every other entry is nil. *)
Definition sampleEnv : Env :=
  mkEnv
    (fun t =>
       match t with
       | 1 => Some (fun s _ _ _ d => (set_readMaxChunkSize (U32BE d) s, None))
       | 5 => Some (fun s _ _ _ d => (set_readAckSize (U32BE d) s, None))
       | 8 => Some (fun s _ _ _ _ => (s, None))
       | _ => None
       end)
    (fun s => s)
    (fun s _ => (s, None)).

(** *** Sample sessions *)

(** A session with a chunk size of 4 in the middle of a 6-byte audio
    message on chunk stream 3: four bytes are in the buffer, two are to
    come in a type 3 chunk. *)
Definition midMessage : chunkStream :=
  mkChunkStream 0 0 false 1 8 6 2 0
    [Byte.xaa; Byte.xbb; Byte.xcc; Byte.xdd; Byte.x00; Byte.x00].

Definition reassemblySample : Session :=
  set_readMaxChunkSize 4
    (set_readcsmap {[ 3 := midMessage ]}
       (NewSesion [Byte.xc3; Byte.xee; Byte.xff])).

(** The same message from its first byte: a type 0 chunk of 4 bytes and a
    type 3 chunk of 2. *)
Definition twoChunks : Session :=
  set_readMaxChunkSize 4 (NewSesion
    [Byte.x03; Byte.x00; Byte.x00; Byte.x00; Byte.x00; Byte.x00; Byte.x06;
     Byte.x08; Byte.x01; Byte.x00; Byte.x00; Byte.x00;
     Byte.xaa; Byte.xbb; Byte.xcc; Byte.xdd;
     Byte.xc3; Byte.xee; Byte.xff]).

(** An audio message of two bytes on chunk stream 3, with a window of 10
    bytes: the chunk takes 14 bytes, the handler is called and the
    acknowledgement of 14 bytes is sent. *)
Definition ackSample : Session :=
  set_readAckSize 10 (NewSesion
    [Byte.x03; Byte.x00; Byte.x00; Byte.x00; Byte.x00; Byte.x00; Byte.x02;
     Byte.x08; Byte.x01; Byte.x00; Byte.x00; Byte.x00; Byte.xaa; Byte.xbb]).

(** The bytes a header writer has filled in: [b[:n]]. *)
Definition writtenHeader (r : option (list byte * Z)) : list byte :=
  match r with
  | Some (b, n) => take (Z.to_nat n) b
  | None => []
  end.

(** A three-byte audio message on chunk stream 6, sent with a chunk size of
    2 as a type 0 chunk and a type 3 continuation, the headers written by
    [fillChunk0Header] and [fillChunk3Header] into the 16-byte header
    buffer of a session. *)
Definition sentMessage (timestamp : Z) : list byte :=
  let b := replicate (Z.to_nat chunkHeaderLength) Byte.x00 in
  writtenHeader (fillChunk0Header b 6 timestamp 8 1 3)
  ++ [Byte.xaa; Byte.xbb]
  ++ writtenHeader (fillChunk3Header b 6 timestamp)
  ++ [Byte.xcc].

Definition roundTripSample (timestamp : Z) : Session :=
  set_readMaxChunkSize 2 (NewSesion (sentMessage timestamp)).

(** ** The accept loop *)

Module Accept.

(** What [listener.Accept()] comes back with: a connection, a [net.Error]
    whose [Temporary()] is true, or any other error. *)
Inductive accepted :=
| Conn
| Temporary
| Fatal.

(** [time.Duration] counts nanoseconds. *)
Definition Millisecond : Z := 1000000.
Definition Second : Z := 1000 * Millisecond.

(** What one turn of the [for] loop does before the next turn. *)
Inductive action :=
| Sleep (d : Z)
| Serve
| Return.

(** The body of the [for] loop of [rtmpServeStart], lines 813-860.
    [var tempDelay time.Duration] is declared inside the body, so each turn
    starts from its zero value. *)
Definition loopBody (e : accepted) : action :=
  let tempDelay := 0 in
  match e with
  | Temporary =>
      let tempDelay := if tempDelay =? 0 then 5 * Millisecond else tempDelay * 2 in
      let tempDelay := if tempDelay >? 1 * Second then 1 * Second else tempDelay in
      Sleep tempDelay
  | Fatal => Return
  | Conn =>
      let tempDelay := 0 in
      Serve
  end.

(** The loop over what the successive [Accept] calls return. *)
Fixpoint rtmpServeStart (es : list accepted) : list action :=
  match es with
  | [] => []
  | e :: es =>
      match loopBody e with
      | Return => [Return]
      | a => a :: rtmpServeStart es
      end
  end.

(** The backoff as the specification words it: 5 ms after the first
    transient error of a run, doubled after each further one up to 1 s, and
    forgotten after a successful accept. *)
Fixpoint backoff_spec (tempDelay : Z) (es : list accepted) : list action :=
  match es with
  | [] => []
  | Temporary :: es =>
      let d := if tempDelay =? 0 then 5 * Millisecond else tempDelay * 2 in
      let d := if d >? Second then Second else d in
      Sleep d :: backoff_spec d es
  | Fatal :: _ => [Return]
  | Conn :: es => Serve :: backoff_spec 0 es
  end.

End Accept.

(** ** h265Parse: the decoder configuration record *)

Module H265.

Record AVCDecoderConfRecord := mkRecord {
  AVCProfileIndication : Z;
  ProfileCompatibility : Z;
  AVCLevelIndication : Z;
  LengthSizeMinusOne : Z;
  VPS : list (list byte);
  SPS : list (list byte);
  PPS : list (list byte)
}.

(** The bytes the units of a list take: a 2-byte length and the unit. *)
Definition nalusLen (nalus : list (list byte)) : Z :=
  fold_right (fun nalu n => 2 + len nalu + n) 0 nalus.

(** [AVCDecoderConfRecord.Len]. *)
Definition Len (self : AVCDecoderConfRecord) : Z :=
  let n := 7 in
  let n := fold_left (fun n sps => n + (2 + len sps)) (SPS self) n in
  let n := fold_left (fun n pps => n + (2 + len pps)) (PPS self) n in
  n.

(** The body of the two [range] loops of [Marshal]: the length of the unit
    as [uint16], then the unit. *)
Definition marshalNALU (st : list byte * Z) (nalu : list byte)
  : option (list byte * Z) :=
  let '(b, n) := st in
  b ← put b n (bytesU16BE (len nalu mod 2 ^ 16));
  let n := n + 2 in
  b ← copy_at b n nalu;
  Some (b, n + len nalu).

Fixpoint marshalNALUs (st : list byte * Z) (nalus : list (list byte))
  : option (list byte * Z) :=
  match nalus with
  | [] => Some st
  | nalu :: nalus => st ← marshalNALU st nalu; marshalNALUs st nalus
  end.

(** [AVCDecoderConfRecord.Marshal]: the buffer after the stores and the
    returned count, or [None] when a store panics.  After the level byte the
    source leaves [n] where it is (its [n += 6] is commented out). *)
Definition Marshal (self : AVCDecoderConfRecord) (b : list byte)
  : option (list byte * Z) :=
  let n := 0 in
  b ← store b n (Z_to_byte 1);
  let n := n + 1 in
  b ← store b n (Z_to_byte (AVCProfileIndication self));
  let n := n + 1 in
  b ← put b n (bytesU32BE (ProfileCompatibility self));
  let n := n + 4 in
  b ← store b n (Z_to_byte (AVCLevelIndication self));
  '(b, n) ← marshalNALUs (b, n) (SPS self);
  b ← store b n (Z_to_byte (len (PPS self)));
  let n := n + 1 in
  marshalNALUs (b, n) (PPS self).

(** The bytes [Marshal] leaves in the first [Len] bytes of its buffer: a
    unit goes behind its length as [uint16]. *)
Definition marshalUnit (nalu : list byte) : list byte :=
  bytesU16BE (len nalu mod 2 ^ 16) ++ nalu.

Definition marshaled (self : AVCDecoderConfRecord) : list byte :=
  [Z_to_byte 1; Z_to_byte (AVCProfileIndication self)]
  ++ bytesU32BE (ProfileCompatibility self)
  ++ concat (map marshalUnit (SPS self))
  ++ [Z_to_byte (len (PPS self))]
  ++ concat (map marshalUnit (PPS self)).

End H265.

(** ** The command read loop *)

(** [Session.rtmpReadCmdMsgCycle]: chunks are read until one fails or a
    handler has made the session publishing or playing.  As for
    [rtmpReadMsgCycle], [None] says the cut of [fuel] chunks was reached. *)
Fixpoint rtmpReadCmdMsgCycle (env : Env) (fuel : nat) (self : Session)
  : option (Session * list event * result unit) :=
  match fuel with
  | O => None
  | S fuel =>
      match readChunk env self with
      | (self, evs, Ok _) =>
          if publishing self || playing self then Some (self, evs, Ok tt)
          else
            match rtmpReadCmdMsgCycle env fuel self with
            | Some (self, evs', res) => Some (self, evs ++ evs', res)
            | None => None
            end
      | (self, evs, res) => Some (self, evs, res)
      end
  end.

(** *** Type 1 and type 2 headers on the wire *)

(** The RTMP layout of the two headers that carry a timestamp delta, for a
    chunk stream id below 64: type 1 has the delta, the message length and
    the type id, type 2 the delta alone. *)
Definition wireHeader1 (csid delta msgtypeid msgdatalen : Z) : list byte :=
  Z_to_byte (csid + 0x40)
  :: bytesU24BE (if delta <? 0xffffff then delta else 0xffffff)
  ++ bytesU24BE msgdatalen ++ [Z_to_byte msgtypeid] ++ extBytes delta.

Definition wireHeader2 (csid delta : Z) : list byte :=
  Z_to_byte (csid + 0x80)
  :: bytesU24BE (if delta <? 0xffffff then delta else 0xffffff)
  ++ extBytes delta.

(** ** h265Parse: splitting a buffer into NAL units *)

Module NALU.

Definition NALU_RAW : Z := 0.
Definition NALU_AVCC : Z := 1.
Definition NALU_ANNEXB : Z := 2.

(** What a call comes back with: its results, a run-time panic, or the cut
    of a loop that was given too little fuel. *)
Inductive outcome (A : Type) :=
| Returns (a : A)
| Panics
| Cut.

Arguments Returns {A} a.
Arguments Panics {A}.
Arguments Cut {A}.

(** The buffers are slices whose capacity is their length (what [make]
    and the payload of a message give), so a slice expression panics as
    soon as a bound passes the length. *)

(** [SplitNALUs], lines 258-269: the loop that takes the buffer for a
    sequence of units, each behind its length in four bytes.  It is entered
    with the bytes after the first length and that length; it leaves the
    units and the bytes it stopped at. *)
Fixpoint avccLoop (fuel : nat) (_b : list byte) (_val4 : Z)
    (nalus : list (list byte)) : outcome (list (list byte) * list byte) :=
  match fuel with
  | O => Cut
  | S fuel =>
      if _val4 >? len _b then Panics
      else
        let nalus := nalus ++ [take (Z.to_nat _val4) _b] in
        let _b := drop (Z.to_nat _val4) _b in
        if len _b <? 4 then Returns (nalus, _b)
        else
          let _val4 := U32BE _b in
          let _b := drop 4 _b in
          if _val4 >? u32 (len _b) then Returns (nalus, _b)
          else avccLoop fuel _b _val4 nalus
  end.

(** [SplitNALUs], lines 291-309: the inner loop, on the bytes from [pos]
    on.  The result is how far [pos] has moved and the values of [_val3]
    and [_val4] when the loop is left. *)
Fixpoint scanStartCode (s : list byte) (_val3 _val4 : Z) : nat * Z * Z :=
  match s with
  | [] => (0%nat, _val3, _val4)
  | x :: s' =>
      if (3 <=? length s)%nat && (byte_to_Z x =? 0) then
        let _val3 := U24BE s in
        if _val3 =? 0 then
          if (4 <=? length s)%nat then
            let _val4 := at_ s 3 in
            if _val4 =? 1 then (0%nat, _val3, _val4)
            else let '(k, v3, v4) := scanStartCode s' _val3 _val4 in (S k, v3, v4)
          else let '(k, v3, v4) := scanStartCode s' _val3 _val4 in (S k, v3, v4)
        else if _val3 =? 1 then (0%nat, _val3, _val4)
        else let '(k, v3, v4) := scanStartCode s' _val3 _val4 in (S k, v3, v4)
      else let '(k, v3, v4) := scanStartCode s' _val3 _val4 in (S k, v3, v4)
  end.

(** [b[start:pos]]. *)
Definition slice (b : list byte) (start pos : nat) : option (list byte) :=
  if (start <=? pos)%nat && (pos <=? length b)%nat
  then Some (take (pos - start) (drop start b)) else None.

(** [SplitNALUs], lines 277-311: the loop that cuts the buffer at the
    start codes [00 00 01] and [00 00 00 01]. *)
Fixpoint annexBLoop (fuel : nat) (b : list byte) (start pos : nat)
    (_val3 _val4 : Z) (nalus : list (list byte)) : outcome (list (list byte)) :=
  match fuel with
  | O => Cut
  | S fuel =>
      match (if negb (start =? pos)%nat
             then option_map (fun nalu => nalus ++ [nalu]) (slice b start pos)
             else Some nalus) with
      | None => Panics
      | Some nalus =>
          let pos := if _val3 =? 1 then (pos + 3)%nat
                     else if _val4 =? 1 then (pos + 4)%nat else pos in
          let start := pos in
          if (start =? length b)%nat then Returns nalus
          else
            let '(k, _val3, _val4) := scanStartCode (drop pos b) 0 0 in
            annexBLoop fuel b start (pos + k)%nat _val3 _val4 nalus
      end
  end.

(** [SplitNALUs].  Both loops end; they are given one turn more than the
    buffer has bytes. *)
Definition SplitNALUs (b : list byte) : outcome (list (list byte) * Z) :=
  if len b <? 4 then Returns ([b], NALU_RAW)
  else
    let val3 := U24BE b in
    let val4 := U32BE b in
    let annexB :=
      if (val3 =? 1) || (val4 =? 1) then
        match annexBLoop (S (length b)) b 0 0 val3 val4 [] with
        | Returns nalus => Returns (nalus, NALU_ANNEXB)
        | Panics => Panics
        | Cut => Cut
        end
      else Returns ([b], NALU_RAW) in
    if val4 <=? u32 (len b) then
      match avccLoop (S (length b)) (drop 4 b) val4 [] with
      | Returns (nalus, _b) =>
          if len _b =? 0 then Returns (nalus, NALU_AVCC) else annexB
      | Panics => Panics
      | Cut => Cut
      end
    else annexB.

(** [CheckNALUsType]. *)
Definition CheckNALUsType (b : list byte) : outcome Z :=
  match SplitNALUs b with
  | Returns (_, typ) => Returns typ
  | Panics => Panics
  | Cut => Cut
  end.

(** The two start codes of Annex B, and a run of start codes: what lies
    between two units. *)
Definition StartCodeBytes : list byte := [Byte.x00; Byte.x00; Byte.x01].

Definition StartCode4 : list byte :=
  [Byte.x00; Byte.x00; Byte.x00; Byte.x01].

Definition isStartCode (c : list byte) : Prop :=
  c = StartCodeBytes \/ c = StartCode4.

Definition gap (g : list byte) : Prop :=
  exists cs, Forall isStartCode cs /\ g = concat cs.

(** The buffer that has [gaps] and [nalus] in turn, a gap first. *)
Definition annexB (gaps nalus : list (list byte)) : list byte :=
  concat (zip_with app gaps nalus).

(** What makes the first slice expression of the AVCC loop,
    [_b[:_val4]] on the bytes after the first length, leave the buffer. *)
Definition first_length_overruns (b : list byte) : Prop :=
  4 <= len b /\ len b - 4 < U32BE b <= len b.

(** A unit behind its length in four bytes, big-endian, and a sequence of
    such units: the layout the first loop of [SplitNALUs] looks for. *)
Definition avccFrame (nalu : list byte) : list byte :=
  bytesU32BE (len nalu) ++ nalu.

Definition avcc (nalus : list (list byte)) : list byte :=
  concat (map avccFrame nalus).

End NALU.

(** ** h265Parse: reading the decoder configuration record *)

Module Decconf.

Import H265.

Inductive error := ErrDecconfInvalid.

Definition HEVC_NAL_VPS : Z := 32.
Definition HEVC_NAL_SPS : Z := 33.
Definition HEVC_NAL_PPS : Z := 34.

(** What [Unmarshal] leaves behind: the receiver as the call has left it,
    with the results [n] and [err], or a run-time panic.  The receiver is a
    pointer, so what the call stored before an error stays stored. *)
Inductive ret :=
| Returned (self : AVCDecoderConfRecord) (n : Z) (err : option error)
| Panicked.

(** [b[i]]. *)
Definition index (b : list byte) (i : Z) : option Z :=
  if (0 <=? i) && (i <? len b) then Some (at_ b (Z.to_nat i)) else None.

(** [pio.U16BE(b[n:])]: the reader indexes the first two bytes of the
    slice. *)
Definition readU16BE (b : list byte) (n : Z) : option Z :=
  if (0 <=? n) && (n + 2 <=? len b)
  then Some (U16BE (drop (Z.to_nat n) b)) else None.

(** Lines 663-670: the [switch] on the type of the array. *)
Definition addNALU (self : AVCDecoderConfRecord) (nal_type : Z)
    (nalu : list byte) : AVCDecoderConfRecord :=
  if nal_type =? HEVC_NAL_VPS then
    mkRecord (AVCProfileIndication self) (ProfileCompatibility self)
      (AVCLevelIndication self) (LengthSizeMinusOne self)
      (VPS self ++ [nalu]) (SPS self) (PPS self)
  else if nal_type =? HEVC_NAL_SPS then
    mkRecord (AVCProfileIndication self) (ProfileCompatibility self)
      (AVCLevelIndication self) (LengthSizeMinusOne self)
      (VPS self) (SPS self ++ [nalu]) (PPS self)
  else if nal_type =? HEVC_NAL_PPS then
    mkRecord (AVCProfileIndication self) (ProfileCompatibility self)
      (AVCLevelIndication self) (LengthSizeMinusOne self)
      (VPS self) (SPS self) (PPS self ++ [nalu])
  else self.

(** Lines 656-672: the loop over the units of one array, [count] turns
    left. *)
Fixpoint readNALUs (count : nat) (b : list byte) (nal_type : Z)
    (self : AVCDecoderConfRecord) (n : Z) : ret :=
  match count with
  | O => Returned self n None
  | S count =>
      match readU16BE b n with
      | None => Panicked
      | Some nal_len =>
          let n := n + 2 in
          if len b <? n + nal_len then Returned self n (Some ErrDecconfInvalid)
          else
            let nalu := take (Z.to_nat nal_len) (drop (Z.to_nat n) b) in
            readNALUs count b nal_type (addNALU self nal_type nalu)
              (n + nal_len)
      end
  end.

(** Lines 645-673: the loop over the arrays, [count] turns left. *)
Fixpoint readArrays (count : nat) (b : list byte)
    (self : AVCDecoderConfRecord) (n : Z) : ret :=
  match count with
  | O => Returned self n None
  | S count =>
      match index b n with
      | None => Panicked
      | Some x =>
          let nal_type := Z.land x 0x3f in
          let n := n + 1 in
          if len b <? n + 2 then Returned self n (Some ErrDecconfInvalid)
          else
            match readU16BE b n with
            | None => Panicked
            | Some nal_num =>
                let n := n + 2 in
                match readNALUs (Z.to_nat nal_num) b nal_type self n with
                | Returned self n None => readArrays count b self n
                | r => r
                end
            end
      end
  end.

(** [AVCDecoderConfRecord.Unmarshal].  What the function prints is left
    out, but not the indexing the last three prints do: [self.VPS[0]],
    [self.SPS[0]] and [self.PPS[0]] panic on an empty list. *)
Definition Unmarshal (self : AVCDecoderConfRecord) (b : list byte) : ret :=
  let b_len := len b in
  if len b <? 7 then Returned self 0 (Some ErrDecconfInvalid)
  else
    let n := 0 + 1 in
    let self :=
      mkRecord (Z.land (at_ b 1) 0x1f) (ProfileCompatibility self)
        (AVCLevelIndication self) (LengthSizeMinusOne self)
        (VPS self) (SPS self) (PPS self) in
    let n := n + 1 in
    let self :=
      mkRecord (AVCProfileIndication self) (U32BE (drop (Z.to_nat n) b))
        (AVCLevelIndication self) (LengthSizeMinusOne self)
        (VPS self) (SPS self) (PPS self) in
    let n := n + 4 in
    let self :=
      mkRecord (AVCProfileIndication self) (ProfileCompatibility self)
        (at_ b (Z.to_nat n)) (LengthSizeMinusOne self)
        (VPS self) (SPS self) (PPS self) in
    let n := n + 1 in
    if n + 15 >=? b_len then Returned self n (Some ErrDecconfInvalid)
    else
      let n := n + 15 in
      let spscount := at_ b (Z.to_nat n) in
      let n := n + 1 in
      match readArrays (Z.to_nat spscount) b self n with
      | Returned self n None =>
          match VPS self, SPS self, PPS self with
          | _ :: _, _ :: _, _ :: _ => Returned self n None
          | _, _, _ => Panicked
          end
      | r => r
      end.

(** The layout [Unmarshal] reads: 22 bytes, the number of arrays in one
    byte, and the arrays; an array is a byte whose low six bits are the type
    of its units, their number in two bytes, and the units, each behind its
    length in two bytes. *)
Definition hvccUnit (nalu : list byte) : list byte :=
  bytesU16BE (len nalu) ++ nalu.

Definition hvccArray (a : byte * list (list byte)) : list byte :=
  [fst a] ++ bytesU16BE (len (snd a)) ++ concat (map hvccUnit (snd a)).

Definition hvcc (head : list byte) (arrays : list (byte * list (list byte)))
  : list byte :=
  head ++ [Z_to_byte (len arrays)] ++ concat (map hvccArray arrays).

(** The units of the arrays of one type, in the order of the layout. *)
Definition unitsOf (nal_type : Z) (arrays : list (byte * list (list byte)))
  : list (list byte) :=
  flat_map (fun a => if Z.land (byte_to_Z (fst a)) 0x3f =? nal_type
                     then snd a else []) arrays.

(** What a call may do to the receiver: [LengthSizeMinusOne] is never
    written and the three lists only grow at the end. *)
Definition extends (self self' : AVCDecoderConfRecord) : Prop :=
  LengthSizeMinusOne self' = LengthSizeMinusOne self
  /\ VPS self `prefix_of` VPS self'
  /\ SPS self `prefix_of` SPS self'
  /\ PPS self `prefix_of` PPS self'.

End Decconf.

(** * Properties *)

(** ** hash/fnv test vectors *)

Example hash_empty : hash "" = 0x811c9dc5.
Proof. reflexivity. Qed.

Example hash_a : hash "a" = 0xe40c292c.
Proof. reflexivity. Qed.

Example hash_abc : hash "abc" = 0x1a47e90b.
Proof. reflexivity. Qed.

(** ** The accept loop *)

Section AcceptLoop.
Import Accept.

Lemma loopBody_Temporary : loopBody Temporary = Sleep (5 * Millisecond).
Proof. reflexivity. Qed.

Lemma rtmpServeStart_sleeps (es : list accepted) (d : Z) :
  In (Sleep d) (rtmpServeStart es) -> d = 5 * Millisecond.
Proof.
  induction es as [|e es IH]; simpl; [tauto|].
  destruct e; simpl; intros [H|H]; try discriminate; auto; try tauto.
  now inversion H.
Qed.

(** C8.  Two transient accept errors in a row: the code sleeps 5 ms both
    times, where the backoff the specification describes sleeps 5 ms and
    then 10 ms.  The doubling and the cap of [loopBody] are never reached,
    as [tempDelay] is declared inside the loop. *)
Theorem accept_backoff_never_doubles :
  rtmpServeStart [Temporary; Temporary; Conn]
    = [Sleep (5 * Millisecond); Sleep (5 * Millisecond); Serve]
  /\ backoff_spec 0 [Temporary; Temporary; Conn]
    = [Sleep (5 * Millisecond); Sleep (10 * Millisecond); Serve]
  /\ rtmpServeStart [Temporary; Temporary; Conn]
     <> backoff_spec 0 [Temporary; Temporary; Conn].
Proof. repeat split; discriminate. Qed.

End AcceptLoop.

(** ** Stores into a slice *)

Section SliceStores.

Lemma store_Some (b : list byte) (i : Z) (v : byte) :
  0 <= i < Z.of_nat (length b) ->
  exists b', store b i v = Some b' /\ length b' = length b.
Proof.
  intros Hi. unfold store.
  replace (0 <=? i) with true by (symmetry; apply Z.leb_le; lia).
  replace (i <? Z.of_nat (length b)) with true by (symmetry; apply Z.ltb_lt; lia).
  simpl. eexists; split; [reflexivity|]. apply length_insert.
Qed.

Lemma put_Some (b : list byte) (off : Z) (bs : list byte) :
  0 <= off -> off + Z.of_nat (length bs) <= Z.of_nat (length b) ->
  exists b', put b off bs = Some b' /\ length b' = length b.
Proof.
  intros H0 H1. unfold put.
  replace (0 <=? off) with true by (symmetry; apply Z.leb_le; lia).
  replace (off + Z.of_nat (length bs) <=? Z.of_nat (length b)) with true
    by (symmetry; apply Z.leb_le; lia).
  simpl. eexists; split; [reflexivity|].
  rewrite !length_app, length_take, length_drop. lia.
Qed.

Lemma copy_at_Some (b : list byte) (off : Z) (src : list byte) :
  0 <= off <= Z.of_nat (length b) ->
  exists b', copy_at b off src = Some b' /\ length b' = length b.
Proof.
  intros H. unfold copy_at.
  replace (0 <=? off) with true by (symmetry; apply Z.leb_le; lia).
  replace (off <=? Z.of_nat (length b)) with true by (symmetry; apply Z.leb_le; lia).
  simpl. eexists; split; [reflexivity|].
  rewrite !length_app, !length_take, length_drop. lia.
Qed.

End SliceStores.

(** ** The decoder configuration record *)

Section DecoderRecord.
Import H265.

Lemma nalusLen_cons (x : list byte) (l : list (list byte)) :
  nalusLen (x :: l) = 2 + len x + nalusLen l.
Proof. reflexivity. Qed.

Lemma nalusLen_nonneg nalus : 0 <= nalusLen nalus.
Proof. induction nalus; simpl; unfold len in *; lia. Qed.

Lemma fold_left_nalus (nalus : list (list byte)) (n : Z) :
  fold_left (fun n nalu => n + (2 + len nalu)) nalus n = n + nalusLen nalus.
Proof.
  revert n. induction nalus as [|x l IH]; intros n; simpl; [lia|].
  rewrite IH. lia.
Qed.

Lemma Len_eq (r : AVCDecoderConfRecord) :
  Len r = 7 + nalusLen (SPS r) + nalusLen (PPS r).
Proof. unfold Len. now rewrite !fold_left_nalus. Qed.

Lemma marshalNALU_Some (b : list byte) (n : Z) (nalu : list byte) :
  0 <= n -> n + 2 + len nalu <= len b ->
  exists b', marshalNALU (b, n) nalu = Some (b', n + 2 + len nalu)
             /\ length b' = length b.
Proof.
  intros Hn Hfit. unfold marshalNALU, len in *.
  destruct (put_Some b n (bytesU16BE (Z.of_nat (length nalu) mod 2 ^ 16)))
    as (b1 & -> & Hb1); [lia | simpl; lia |].
  simpl.
  destruct (copy_at_Some b1 (n + 2) nalu) as (b2 & -> & Hb2); [lia|].
  simpl. exists b2. split; [do 2 f_equal; lia | congruence].
Qed.

Lemma marshalNALUs_Some (nalus : list (list byte)) (b : list byte) (n : Z) :
  0 <= n -> n + nalusLen nalus <= len b ->
  exists b', marshalNALUs (b, n) nalus = Some (b', n + nalusLen nalus)
             /\ length b' = length b.
Proof.
  revert b n. induction nalus as [|x l IH]; intros b n Hn Hfit;
    [|rewrite nalusLen_cons in *]; cbn [marshalNALUs] in *.
  - change (nalusLen []) with 0 in *. exists b. split; [do 2 f_equal; lia | reflexivity].
  - pose proof (nalusLen_nonneg l) as Hl.
    assert (0 <= len x) by (unfold len; lia).
    destruct (marshalNALU_Some b n x) as (b1 & -> & Hb1); [lia | lia |].
    cbn [mbind option_bind].
    destruct (IH b1 (n + 2 + len x)) as (b2 & -> & Hb2);
      [lia | unfold len in *; lia |].
    exists b2. split; [do 2 f_equal; lia | congruence].
Qed.

(** C9.  On a buffer of at least [Len] bytes [Marshal] does not panic and
    reports [Len] bytes written, and [Len] is 7 plus [2 + len] for each SPS
    and each PPS. *)
Theorem Marshal_returns_Len (r : AVCDecoderConfRecord) (b : list byte) :
  Len r <= len b ->
  Len r = 7 + nalusLen (SPS r) + nalusLen (PPS r)
  /\ exists b', Marshal r b = Some (b', Len r) /\ length b' = length b.
Proof.
  intros Hfit. split; [apply Len_eq|].
  rewrite Len_eq in *.
  pose proof (nalusLen_nonneg (SPS r)) as Hs.
  pose proof (nalusLen_nonneg (PPS r)) as Hp.
  unfold Marshal. cbv zeta.
  change (0 + 1 + 1 + 4) with 6. change (0 + 1 + 1) with 2. change (0 + 1) with 1.
  unfold len in Hfit.
  destruct (store_Some b 0 (Z_to_byte 1)) as (b1 & -> & Hb1); [lia|].
  cbn [mbind option_bind].
  destruct (store_Some b1 1 (Z_to_byte (AVCProfileIndication r)))
    as (b2 & -> & Hb2); [lia|].
  cbn [mbind option_bind].
  destruct (put_Some b2 2 (bytesU32BE (ProfileCompatibility r)))
    as (b3 & -> & Hb3); [lia | simpl; lia |].
  cbn [mbind option_bind].
  destruct (store_Some b3 6 (Z_to_byte (AVCLevelIndication r)))
    as (b4 & -> & Hb4); [lia|].
  cbn [mbind option_bind].
  destruct (marshalNALUs_Some (SPS r) b4 6) as (b5 & -> & Hb5);
    [lia | unfold len; lia |].
  cbn [mbind option_bind].
  destruct (store_Some b5 (6 + nalusLen (SPS r)) (Z_to_byte (len (PPS r))))
    as (b6 & -> & Hb6); [lia|].
  cbn [mbind option_bind].
  destruct (marshalNALUs_Some (PPS r) b6 (6 + nalusLen (SPS r) + 1))
    as (b7 & -> & Hb7); [lia | unfold len; lia |].
  exists b7. split; [do 2 f_equal; lia | congruence].
Qed.

Lemma Marshal_returns_Len_witness :
  let r := mkRecord 1 0x60000000 93 3 []
             [[Byte.x42; Byte.x01; Byte.x01]] [[Byte.x44; Byte.x01]] in
  let b := replicate 16 Byte.x00 in
  Len r <= len b
  /\ Len r = 7 + nalusLen (SPS r) + nalusLen (PPS r)
  /\ exists b', Marshal r b = Some (b', Len r) /\ length b' = length b.
Proof.
  intros r b.
  assert (H : Len r <= len b) by (vm_compute; discriminate).
  split; [exact H|]. exact (Marshal_returns_Len r b H).
Defined.

End DecoderRecord.

(** ** Bytes *)

Section ByteFacts.

Lemma byte_to_Z_range (b : byte) : 0 <= byte_to_Z b < 256.
Proof.
  unfold byte_to_Z. pose proof (Byte.to_N_bounded b) as H.
  split; [apply N2Z.is_nonneg|].
  apply N2Z.inj_le in H. change (Z.of_N 255) with 255 in H. lia.
Qed.

Lemma byte_to_Z_to_byte (v : Z) : byte_to_Z (Z_to_byte v) = v mod 256.
Proof.
  unfold Z_to_byte, byte_to_Z.
  assert (Hr : 0 <= v mod 256 < 256) by (apply Z.mod_pos_bound; lia).
  destruct (Byte.of_N (Z.to_N (v mod 256))) as [b|] eqn:E.
  - apply Byte.to_of_N in E. simpl. rewrite E. rewrite Z2N.id; lia.
  - apply Byte.of_N_None_iff in E. exfalso.
    apply N2Z.inj_lt in E. rewrite Z2N.id in E by lia.
    change (Z.of_N 255) with 255 in E. lia.
Qed.

Lemma Z_to_byte_to_Z (b : byte) : Z_to_byte (byte_to_Z b) = b.
Proof.
  unfold Z_to_byte, byte_to_Z.
  rewrite Z.mod_small by apply byte_to_Z_range.
  now rewrite N2Z.id, Byte.of_to_N.
Qed.

Lemma lor_shiftl_add (hi lo k : Z) :
  0 <= k -> 0 <= lo < 2 ^ k -> Z.lor (Z.shiftl hi k) lo = hi * 2 ^ k + lo.
Proof.
  intros Hk Hlo.
  assert (Hland : Z.land (Z.shiftl hi k) lo = 0).
  { apply Z.bits_inj'. intros n Hn. rewrite Z.land_spec, Z.bits_0.
    destruct (Z.ltb_spec n k) as [Hlt|Hge].
    - rewrite Z.shiftl_spec_low by lia. reflexivity.
    - rewrite <- (Z.mod_small lo (2 ^ k)) by lia.
      rewrite Z.mod_pow2_bits_high by lia. apply andb_false_r. }
  rewrite <- Z.lxor_lor by exact Hland.
  rewrite <- Z.add_nocarry_lxor by exact Hland.
  now rewrite Z.shiftl_mul_pow2 by lia.
Qed.

Lemma lor_add (a lo k : Z) :
  0 <= k -> a mod 2 ^ k = 0 -> 0 <= lo < 2 ^ k -> Z.lor a lo = a + lo.
Proof.
  intros Hk Ha Hlo.
  assert (E : a = Z.shiftl (a / 2 ^ k) k).
  { rewrite Z.shiftl_mul_pow2 by lia.
    pose proof (Z.div_mod a (2 ^ k)). lia. }
  rewrite E at 1. rewrite lor_shiftl_add by lia.
  pose proof (Z.div_mod a (2 ^ k)). lia.
Qed.

Lemma at_cons_0 (b : byte) (l : list byte) : at_ (b :: l) 0 = byte_to_Z b.
Proof. reflexivity. Qed.

Lemma at_cons_S (b : byte) (l : list byte) (i : nat) : at_ (b :: l) (S i) = at_ l i.
Proof. reflexivity. Qed.

Lemma U16BE_eq (b0 b1 : byte) (l : list byte) :
  U16BE (b0 :: b1 :: l) = byte_to_Z b0 * 256 + byte_to_Z b1.
Proof.
  unfold U16BE. rewrite !at_cons_S, !at_cons_0.
  pose proof (byte_to_Z_range b1).
  rewrite lor_shiftl_add by lia. reflexivity.
Qed.

Lemma U24BE_eq (b0 b1 b2 : byte) (l : list byte) :
  U24BE (b0 :: b1 :: b2 :: l)
  = byte_to_Z b0 * 65536 + byte_to_Z b1 * 256 + byte_to_Z b2.
Proof.
  unfold U24BE. rewrite !at_cons_S, !at_cons_0.
  pose proof (byte_to_Z_range b0). pose proof (byte_to_Z_range b1).
  pose proof (byte_to_Z_range b2).
  rewrite !Z.shiftl_mul_pow2 by lia.
  rewrite (lor_add (byte_to_Z b0 * 2 ^ 16) (byte_to_Z b1 * 2 ^ 8) 16);
    [|lia|now rewrite Z.mod_mul by lia|lia].
  rewrite (lor_add _ _ 8); [lia|lia| |lia].
  replace (byte_to_Z b0 * 2 ^ 16 + byte_to_Z b1 * 2 ^ 8)
    with ((byte_to_Z b0 * 2 ^ 8 + byte_to_Z b1) * 2 ^ 8) by lia.
  now rewrite Z.mod_mul by lia.
Qed.

Lemma U32BE_eq (b0 b1 b2 b3 : byte) (l : list byte) :
  U32BE (b0 :: b1 :: b2 :: b3 :: l)
  = byte_to_Z b0 * 16777216 + byte_to_Z b1 * 65536
    + byte_to_Z b2 * 256 + byte_to_Z b3.
Proof.
  unfold U32BE. rewrite !at_cons_S, !at_cons_0.
  pose proof (byte_to_Z_range b0). pose proof (byte_to_Z_range b1).
  pose proof (byte_to_Z_range b2). pose proof (byte_to_Z_range b3).
  rewrite !Z.shiftl_mul_pow2 by lia.
  rewrite (lor_add (byte_to_Z b0 * 2 ^ 24) (byte_to_Z b1 * 2 ^ 16) 24);
    [|lia|now rewrite Z.mod_mul by lia|lia].
  rewrite (lor_add (byte_to_Z b0 * 2 ^ 24 + byte_to_Z b1 * 2 ^ 16)
             (byte_to_Z b2 * 2 ^ 8) 16); [|lia| |lia].
  2:{ replace (byte_to_Z b0 * 2 ^ 24 + byte_to_Z b1 * 2 ^ 16)
        with ((byte_to_Z b0 * 2 ^ 8 + byte_to_Z b1) * 2 ^ 16) by lia.
      now rewrite Z.mod_mul by lia. }
  rewrite (lor_add _ _ 8); [lia|lia| |lia].
  replace (byte_to_Z b0 * 2 ^ 24 + byte_to_Z b1 * 2 ^ 16 + byte_to_Z b2 * 2 ^ 8)
    with ((byte_to_Z b0 * 2 ^ 16 + byte_to_Z b1 * 2 ^ 8 + byte_to_Z b2) * 2 ^ 8)
    by lia.
  now rewrite Z.mod_mul by lia.
Qed.

Lemma U32LE_eq (b0 b1 b2 b3 : byte) (l : list byte) :
  U32LE (b0 :: b1 :: b2 :: b3 :: l)
  = byte_to_Z b0 + byte_to_Z b1 * 256
    + byte_to_Z b2 * 65536 + byte_to_Z b3 * 16777216.
Proof.
  unfold U32LE. rewrite !at_cons_S, !at_cons_0.
  pose proof (byte_to_Z_range b0). pose proof (byte_to_Z_range b1).
  pose proof (byte_to_Z_range b2). pose proof (byte_to_Z_range b3).
  rewrite !Z.shiftl_mul_pow2 by lia.
  rewrite (Z.lor_comm (byte_to_Z b0)).
  rewrite (lor_add (byte_to_Z b1 * 2 ^ 8) (byte_to_Z b0) 8);
    [|lia|now rewrite Z.mod_mul by lia|lia].
  rewrite (Z.lor_comm _ (byte_to_Z b2 * 2 ^ 16)).
  rewrite (lor_add (byte_to_Z b2 * 2 ^ 16) _ 16);
    [|lia|now rewrite Z.mod_mul by lia|lia].
  rewrite (Z.lor_comm _ (byte_to_Z b3 * 2 ^ 24)).
  rewrite (lor_add (byte_to_Z b3 * 2 ^ 24) _ 24);
    [lia|lia|now rewrite Z.mod_mul by lia|lia].
Qed.

End ByteFacts.

(** ** Reading the basic header *)

Section BasicHeader.

Lemma ReadFull_enough (r : list byte) (n : nat) :
  (n <= length r)%nat -> ReadFull r n = (take n r, drop n r, None).
Proof.
  intros H. unfold ReadFull.
  now replace (n <=? length r)%nat with true by (symmetry; apply Nat.leb_le; lia).
Qed.

Lemma ReadFull_app (pre rest : list byte) :
  ReadFull (pre ++ rest) (length pre) = (pre, rest, None).
Proof.
  rewrite ReadFull_enough by (rewrite length_app; lia).
  now rewrite take_app_length, drop_app_length.
Qed.

Lemma ReadFull_1 (b0 : byte) (r : list byte) :
  ReadFull (b0 :: r) 1 = ([b0], r, None).
Proof. exact (ReadFull_app [b0] r). Qed.

Lemma ReadFull_2 (b0 b1 : byte) (r : list byte) :
  ReadFull (b0 :: b1 :: r) 2 = ([b0; b1], r, None).
Proof. exact (ReadFull_app [b0; b1] r). Qed.

Lemma ReadFull_4 (b0 b1 b2 b3 : byte) (r : list byte) :
  ReadFull (b0 :: b1 :: b2 :: b3 :: r) 4 = ([b0; b1; b2; b3], r, None).
Proof. exact (ReadFull_app [b0; b1; b2; b3] r). Qed.

Lemma ReadFull_short (r : list byte) (n : nat) :
  (length r < n)%nat ->
  ReadFull r n = (r, [], Some (match r with [] => ErrEOF | _ => ErrUnexpectedEOF end)).
Proof.
  intros H. unfold ReadFull.
  now replace (n <=? length r)%nat with false by (symmetry; apply Nat.leb_gt; lia).
Qed.

Lemma ReadFull_error (r : list byte) (n : nat) got r' e :
  ReadFull r n = (got, r', Some e) -> e = ErrEOF \/ e = ErrUnexpectedEOF.
Proof.
  unfold ReadFull. destruct (n <=? length r)%nat; [discriminate|].
  intros [= _ _ <-]. destruct r; auto.
Qed.

Lemma fmtTpye_range (hb : byte) :
  Z.shiftr (byte_to_Z hb) 6 = byte_to_Z hb / 64
  /\ 0 <= byte_to_Z hb / 64 <= 3.
Proof.
  pose proof (byte_to_Z_range hb) as H.
  rewrite Z.shiftr_div_pow2 by lia. change (2 ^ 6) with 64.
  split; [reflexivity|].
  split; [apply Z.div_pos; lia|].
  apply Z.lt_succ_r. apply Z.div_lt_upper_bound; lia.
Qed.

Lemma csid_low_range (hb : byte) :
  Z.land (byte_to_Z hb) 0x3f = byte_to_Z hb mod 64
  /\ 0 <= byte_to_Z hb mod 64 <= 63.
Proof.
  change (Z.land (byte_to_Z hb) 0x3f) with (Z.land (byte_to_Z hb) (Z.ones 6)).
  rewrite Z.land_ones by lia.
  change (2 ^ 6) with 64. split; [reflexivity|].
  pose proof (Z.mod_pos_bound (byte_to_Z hb) 64). lia.
Qed.

Lemma readBasicHeader_cons (hb : byte) (rest : list byte) :
  readBasicHeader (hb :: rest) =
    if byte_to_Z hb mod 64 =? 0 then
      match rest with
      | b1 :: r => (r, Ok (byte_to_Z hb / 64, byte_to_Z b1 + 64, 2))
      | [] => ([], Err ErrEOF)
      end
    else if byte_to_Z hb mod 64 =? 1 then
      match rest with
      | b1 :: b2 :: r =>
          (r, Ok (byte_to_Z hb / 64, byte_to_Z b1 * 256 + byte_to_Z b2 + 64, 3))
      | [_] => ([], Err ErrUnexpectedEOF)
      | [] => ([], Err ErrEOF)
      end
    else (rest, Ok (byte_to_Z hb / 64, byte_to_Z hb mod 64, 1)).
Proof.
  unfold readBasicHeader.
  rewrite ReadFull_1.
  rewrite at_cons_0.
  destruct (fmtTpye_range hb) as [-> _].
  destruct (csid_low_range hb) as [-> Hlow].
  cbv zeta.
  destruct (byte_to_Z hb mod 64) as [|p|p] eqn:E.
  - simpl (0 =? 0). cbv iota.
    destruct rest as [|b1 r]; [reflexivity|].
    rewrite ReadFull_1. now rewrite at_cons_0.
  - destruct p; try reflexivity.
    destruct rest as [|b1 [|b2 r]]; try reflexivity.
    rewrite ReadFull_2. now rewrite U16BE_eq.
  - lia.
Qed.

(** C5.  One byte is read; its top two bits are the header type and its low
    six bits select the chunk stream id: 0 reads one more byte and adds 64,
    1 reads two more bytes big-endian and adds 64, any other value is the
    id itself.  A connection that ends inside the header is an error.  The
    chunk stream [readChunk] then works on is the one with that id: the
    entry of [readcsmap] for it exists afterwards and no other entry
    changes. *)
Theorem readChunk_basic_header (self : Session) (hb : byte) (rest : list byte) :
  let header := byte_to_Z hb in
  let fmt_type := header / 64 in
  let csid_low := header mod 64 in
  (0 <= fmt_type <= 3 /\ 0 <= csid_low <= 63)
  /\ readBasicHeader [] = ([], Err ErrEOF)
  /\ readBasicHeader (hb :: rest) =
       (if csid_low =? 0 then
          match rest with
          | b1 :: r => (r, Ok (fmt_type, byte_to_Z b1 + 64, 2))
          | [] => ([], Err ErrEOF)
          end
        else if csid_low =? 1 then
          match rest with
          | b1 :: b2 :: r =>
              (r, Ok (fmt_type, byte_to_Z b1 * 256 + byte_to_Z b2 + 64, 3))
          | [_] => ([], Err ErrUnexpectedEOF)
          | [] => ([], Err ErrEOF)
          end
        else (rest, Ok (fmt_type, csid_low, 1)))
  /\ (forall r fmtTpye csid n,
        readBasicHeader (bufr self) = (r, Ok (fmtTpye, csid, n)) ->
        is_Some (readcsmap (readChunkData self).1 !! csid)
        /\ forall k, k <> csid ->
             readcsmap (readChunkData self).1 !! k = readcsmap self !! k).
Proof.
  intros header fmt_type csid_low.
  split; [split; [apply fmtTpye_range | apply csid_low_range]|].
  split; [reflexivity|].
  split; [apply readBasicHeader_cons|].
  intros r fmtTpye csid n E. unfold readChunkData. rewrite E.
  destruct (readMsgHeader _ _ _) as [[cs1 r1] [k| |]]; simpl.
  2,3: split; [rewrite lookup_insert_eq; eauto
              | intros k' Hk; now rewrite lookup_insert_ne].
  destruct (readPayload _ _ _) as [[cs2 r2] [sz| |]]; simpl;
    (split; [rewrite lookup_insert_eq; eauto
            | intros k' Hk; now rewrite lookup_insert_ne]).
Qed.

Lemma readChunk_basic_header_witness :
  let self := NewSesion [Byte.x41; Byte.x01; Byte.x02] in
  is_Some (readcsmap (readChunkData self).1 !! 322)
  /\ forall k, k <> 322 ->
       readcsmap (readChunkData self).1 !! k = readcsmap self !! k.
Proof.
  intros self.
  exact (proj2 (proj2 (proj2
           (readChunk_basic_header self Byte.x41 [Byte.x01; Byte.x02])))
           [] 1 322 3 eq_refl).
Defined.

End BasicHeader.

(** ** The header type is one of 0, 1, 2, 3 *)

Section HeaderType.

Lemma readBasicHeader_fmt (r r' : list byte) (fmtTpye csid n : Z) :
  readBasicHeader r = (r', Ok (fmtTpye, csid, n)) -> 0 <= fmtTpye <= 3.
Proof.
  destruct r as [|hb rest]; [discriminate|].
  rewrite readBasicHeader_cons.
  pose proof (proj2 (fmtTpye_range hb)) as Hf.
  repeat case_match; intros [= <- <- <- <-] || discriminate; exact Hf.
Qed.

Lemma readTimeExt_error timestamp cs r cs' r' e :
  readTimeExt timestamp cs r = (cs', r', Err e) ->
  e = ErrEOF \/ e = ErrUnexpectedEOF.
Proof.
  unfold readTimeExt. destruct (timestamp =? 0xffffff); [|discriminate].
  destruct (ReadFull r 4) as [[got r1] [e1|]] eqn:E; [|discriminate].
  intros [= _ _ <-]. eapply ReadFull_error, E.
Qed.

Lemma readTimeExt_no_panic timestamp cs r cs' r' :
  readTimeExt timestamp cs r <> (cs', r', Panic).
Proof.
  unfold readTimeExt. destruct (timestamp =? 0xffffff); [|discriminate].
  destruct (ReadFull r 4) as [[got r1] [e1|]]; discriminate.
Qed.

(** The errors of the message header are the end of the connection and a
    message left unfinished; the header never panics. *)
Lemma readMsgHeader_error fmtTpye cs r cs' r' e :
  0 <= fmtTpye <= 3 ->
  readMsgHeader fmtTpye cs r = (cs', r', Err e) ->
  e = ErrEOF \/ e = ErrUnexpectedEOF \/ e = ErrMsgDataLeft (msgdataleft cs).
Proof.
  intros Hf.
  assert (Hc : fmtTpye = 0 \/ fmtTpye = 1 \/ fmtTpye = 2 \/ fmtTpye = 3) by lia.
  destruct Hc as [-> | [-> | [-> | ->]]]; unfold readMsgHeader.
  1-3: destruct (msgdataleft cs =? 0); simpl negb; cbv iota;
       [|intros [= _ _ <-]; auto];
       match goal with |- context [ReadFull ?r0 ?k] =>
         destruct (ReadFull r0 k) as [[h r1] [e1|]] eqn:E end;
       [intros [= _ _ <-]; apply ReadFull_error in E; tauto|];
       cbv zeta;
       match goal with |- context [readTimeExt ?a ?b ?c] =>
         destruct (readTimeExt a b c) as [[cs1 r2] [[ts k]|e2|]] eqn:E2 end;
       [discriminate | | discriminate];
       intros [= _ _ <-]; apply readTimeExt_error in E2; tauto.
  destruct (hastimeext cs && EXTTIME).
  - destruct (msghdrtype cs) as [|[[]|[]|]|];
      try (destruct (msgdataleft cs =? 0); discriminate).
    all: destruct (ReadFull r 4) as [[h r1] [e1|]] eqn:E;
      [intros [= _ _ <-]; apply ReadFull_error in E; tauto
      | cbn; destruct (msgdataleft _ =? 0); discriminate].
  - destruct (msghdrtype cs) as [|[[]|[]|]|];
      cbn; destruct (msgdataleft _ =? 0); discriminate.
Qed.

Lemma readPayload_error rmcs cs r cs' r' e :
  readPayload rmcs cs r = (cs', r', Err e) ->
  e = ErrEOF \/ e = ErrUnexpectedEOF.
Proof.
  unfold readPayload. cbv zeta. case_match; [discriminate|].
  destruct (ReadFull r _) as [[got r1] [e1|]] eqn:E; [|discriminate].
  intros [= _ _ <-]. eapply ReadFull_error, E.
Qed.

Lemma readChunkData_error (self self' : Session) (e : error) :
  readChunkData self = (self', Err e) ->
  e = ErrEOF \/ e = ErrUnexpectedEOF \/ exists left, e = ErrMsgDataLeft left.
Proof.
  unfold readChunkData.
  destruct (readBasicHeader (bufr self)) as [r [[[f csid] n]|e0|]] eqn:E0.
  - apply readBasicHeader_fmt in E0.
    destruct (readMsgHeader _ _ _) as [[cs1 r1] [k|e1|]] eqn:E1.
    + destruct (readPayload _ _ _) as [[cs2 r2] [sz|e2|]] eqn:E2;
        try discriminate.
      intros [= _ <-]. apply readPayload_error in E2. tauto.
    + intros [= _ <-]. apply readMsgHeader_error in E1; [|exact E0].
      destruct E1 as [?|[?|?]]; eauto.
    + discriminate.
  - intros [= _ <-]. destruct (bufr self) as [|hb rest]; [injection E0; auto|].
    rewrite readBasicHeader_cons in E0.
    repeat case_match; try discriminate; injection E0; auto.
  - discriminate.
Qed.

Lemma ackStep_error env n self self' evs e :
  ackStep env n self = (self', evs, Err e) -> exists c, e = ErrWrite c.
Proof.
  unfold ackStep. cbv zeta. case_match; [|discriminate].
  destruct (writeRtmpMsgAck _ _ _) as [s [c|]]; [|discriminate].
  intros [= _ _ <-]. eauto.
Qed.

(** C10.  The header type [readChunk] computes from any byte is 0, 1, 2 or
    3, and no call of [readChunk] ends with the error of the default branch
    of its switch on the header type. *)
Theorem readChunk_header_type_never_invalid
    (env : Env) (self : Session) (hb : byte) (t : Z) :
  (Z.shiftr (byte_to_Z hb) 6 = 0 \/ Z.shiftr (byte_to_Z hb) 6 = 1
   \/ Z.shiftr (byte_to_Z hb) 6 = 2 \/ Z.shiftr (byte_to_Z hb) 6 = 3)
  /\ (readChunk env self).2 <> Err (ErrInvalidHdrType t).
Proof.
  split.
  - destruct (fmtTpye_range hb) as [-> H]. lia.
  - unfold readChunk.
    destruct (readChunkData self) as [s1 [[csid n]|e|]] eqn:E; simpl.
    + assert (Hack : forall s, (ackStep env n s).2 <> Err (ErrInvalidHdrType t)).
      { intros s. destruct (ackStep env n s) as [[s' evs] res] eqn:Ea. simpl.
        intros ->. apply ackStep_error in Ea as [c Hc]. discriminate. }
      destruct (msgdataleft _ =? 0); [|apply Hack].
      destruct (hands env _) as [h|]; [|apply Hack].
      destruct (h _ _ _ _ _) as [s2 [c|]]; simpl; [discriminate|].
      specialize (Hack s2).
      destruct (ackStep env n s2) as [[s' evs] res]. exact Hack.
    + intros [= ->]. apply readChunkData_error in E.
      destruct E as [?|[?|[? ?]]]; discriminate.
    + discriminate.
Qed.

End HeaderType.

(** ** The publisher registry *)

Section RegistryFacts.
Import Registry.

Lemma index_range (a : string) : 0 <= index a < HashMapFactors.
Proof. unfold index, HashMapFactors. apply Z.mod_pos_bound. lia. Qed.

Lemma index_nat_lt (a : string) (reg : list (gmap string Session)) :
  wf reg -> (Z.to_nat (index a) < length reg)%nat.
Proof. intros ->. pose proof (index_range a). lia. Qed.

Lemma init_wf : wf init.
Proof. unfold wf, init. apply length_replicate. Qed.

Lemma Get_eq (a : string) (reg : list (gmap string Session)) :
  RtmpSessionGet a reg = shard reg (index a) !! a.
Proof. unfold RtmpSessionGet. now destruct (shard reg (index a) !! a). Qed.

Lemma shard_insert (reg : list (gmap string Session)) (a b : string)
    (m : gmap string Session) :
  wf reg ->
  shard (<[Z.to_nat (index a) := m]> reg) (index b)
  = if decide (index a = index b) then m else shard reg (index b).
Proof.
  intros Hwf. unfold shard. destruct (decide (index a = index b)) as [E|N].
  - rewrite <- E. rewrite list_lookup_insert_eq by now apply index_nat_lt.
    reflexivity.
  - rewrite list_lookup_insert_ne; [reflexivity|].
    pose proof (index_range a). pose proof (index_range b). lia.
Qed.

Lemma Push_wf (s : Session) (reg : list (gmap string Session)) :
  wf reg -> wf (RtmpSessionPush s reg).2.
Proof.
  unfold RtmpSessionPush, wf. cbv zeta. intros H.
  destruct (shard reg _ !! _); simpl; [exact H|]. now rewrite length_insert.
Qed.

Lemma Del_wf (s : Session) (reg : list (gmap string Session)) :
  wf reg -> wf (RtmpSessionDel s reg).
Proof. unfold RtmpSessionDel, wf. intros H. now rewrite length_insert. Qed.

Lemma step_wf (o : op) (reg : list (gmap string Session)) :
  wf reg -> wf (step reg o).
Proof. destruct o; simpl; [apply Push_wf | apply Del_wf]. Qed.

Lemma run_wf (ops : list op) (reg : list (gmap string Session)) :
  wf reg -> wf (run ops reg).
Proof.
  revert reg. induction ops as [|o ops IH]; intros reg H; simpl; [exact H|].
  apply IH, step_wf, H.
Qed.

(** What a lookup sees after a push and after a removal. *)
Lemma Get_Push (s : Session) (a : string) (reg : list (gmap string Session)) :
  wf reg ->
  RtmpSessionGet a (RtmpSessionPush s reg).2
  = match RtmpSessionGet (StreamAnchor s) reg with
    | Some _ => RtmpSessionGet a reg
    | None => if decide (StreamAnchor s = a) then Some s else RtmpSessionGet a reg
    end.
Proof.
  intros Hwf. rewrite !Get_eq. unfold RtmpSessionPush. cbv zeta.
  destruct (shard reg (index (StreamAnchor s)) !! StreamAnchor s) eqn:E;
    simpl; [reflexivity|].
  rewrite shard_insert by exact Hwf.
  destruct (decide (StreamAnchor s = a)) as [<-|N].
  - rewrite decide_True by reflexivity. apply lookup_insert_eq.
  - destruct (decide (index (StreamAnchor s) = index a)) as [Ei|Ni];
      [|reflexivity].
    rewrite lookup_insert_ne by exact N. now rewrite Ei.
Qed.

Lemma Get_Del (s : Session) (a : string) (reg : list (gmap string Session)) :
  wf reg ->
  RtmpSessionGet a (RtmpSessionDel s reg)
  = if decide (StreamAnchor s = a) then None else RtmpSessionGet a reg.
Proof.
  intros Hwf. rewrite !Get_eq. unfold RtmpSessionDel. cbv zeta.
  rewrite shard_insert by exact Hwf.
  destruct (decide (StreamAnchor s = a)) as [<-|N].
  - rewrite decide_True by reflexivity. apply lookup_delete_eq.
  - destruct (decide (index (StreamAnchor s) = index a)) as [Ei|Ni];
      [|reflexivity].
    rewrite lookup_delete_ne by exact N. now rewrite Ei.
Qed.

Lemma Push_result (s : Session) (reg : list (gmap string Session)) :
  RtmpSessionPush s reg
  = match RtmpSessionGet (StreamAnchor s) reg with
    | Some _ => (false, reg)
    | None => (true, (RtmpSessionPush s reg).2)
    end.
Proof.
  rewrite Get_eq. unfold RtmpSessionPush. cbv zeta.
  now destruct (shard reg (index (StreamAnchor s)) !! StreamAnchor s).
Qed.

Lemma Get_step_kept (o : op) (a : string) (s1 : Session)
    (reg : list (gmap string Session)) :
  wf reg -> ~ removes a o ->
  RtmpSessionGet a reg = Some s1 -> RtmpSessionGet a (step reg o) = Some s1.
Proof.
  intros Hwf Hno Hget. destruct o as [s|s]; simpl in *.
  - rewrite Get_Push by exact Hwf.
    destruct (RtmpSessionGet (StreamAnchor s) reg) eqn:E; [exact Hget|].
    destruct (decide (StreamAnchor s = a)) as [<-|N]; [congruence|exact Hget].
  - rewrite Get_Del by exact Hwf. now rewrite decide_False.
Qed.

Lemma Get_run_kept (ops : list op) (a : string) (s1 : Session)
    (reg : list (gmap string Session)) :
  wf reg -> Forall (fun o => ~ removes a o) ops ->
  RtmpSessionGet a reg = Some s1 -> RtmpSessionGet a (run ops reg) = Some s1.
Proof.
  revert reg. induction ops as [|o ops IH]; intros reg Hwf Hall Hget; simpl;
    [exact Hget|].
  inversion Hall as [|? ? Ho Hops]; subst.
  apply IH; [now apply step_wf | exact Hops | now apply Get_step_kept].
Qed.

(** C1.  After a push for anchor [a] has returned true, and whatever
    pushes and removals of other anchors (and pushes for [a]) follow, a
    push of another session for [a] returns false and changes nothing, and
    [a] is still mapped to the first session; once [RtmpSessionDel] has
    removed [a], a push for [a] returns true and registers the new
    session. *)
Theorem push_insert_if_absent
    (reg reg1 : list (gmap string Session)) (s1 s2 sd : Session)
    (ops : list op) :
  wf reg ->
  StreamAnchor s2 = StreamAnchor s1 ->
  StreamAnchor sd = StreamAnchor s1 ->
  RtmpSessionPush s1 reg = (true, reg1) ->
  Forall (fun o => ~ removes (StreamAnchor s1) o) ops ->
  let reg2 := run ops reg1 in
  RtmpSessionPush s2 reg2 = (false, reg2)
  /\ RtmpSessionGet (StreamAnchor s1) reg2 = Some s1
  /\ (RtmpSessionPush s2 (RtmpSessionDel sd reg2)).1 = true
  /\ RtmpSessionGet (StreamAnchor s1)
       (RtmpSessionPush s2 (RtmpSessionDel sd reg2)).2 = Some s2.
Proof.
  intros Hwf E2 Ed Hpush Hops reg2.
  assert (Hwf1 : wf reg1).
  { replace reg1 with (RtmpSessionPush s1 reg).2 by now rewrite Hpush.
    now apply Push_wf. }
  assert (Hget1 : RtmpSessionGet (StreamAnchor s1) reg1 = Some s1).
  { replace reg1 with (RtmpSessionPush s1 reg).2 by now rewrite Hpush.
    rewrite Get_Push by exact Hwf. rewrite Push_result in Hpush.
    destruct (RtmpSessionGet (StreamAnchor s1) reg); [discriminate|].
    now rewrite decide_True. }
  assert (Hwf2 : wf reg2) by now apply run_wf.
  assert (Hget2 : RtmpSessionGet (StreamAnchor s1) reg2 = Some s1)
    by now apply Get_run_kept.
  assert (Hdel : RtmpSessionGet (StreamAnchor s2) (RtmpSessionDel sd reg2) = None).
  { rewrite Get_Del by exact Hwf2. rewrite decide_True by congruence.
    reflexivity. }
  repeat split.
  - rewrite Push_result, E2, Hget2. reflexivity.
  - exact Hget2.
  - rewrite Push_result, Hdel. reflexivity.
  - rewrite Get_Push by now apply Del_wf. rewrite Hdel.
    now rewrite decide_True.
Qed.

Lemma push_insert_if_absent_witness :
  let s1 := set_ackn 1 (mkSession "h/live/a" 0 0 false false ∅ 128 []) in
  let s2 := set_ackn 2 s1 in
  let s3 := mkSession "h/live/b" 0 0 false false ∅ 128 [] in
  let reg1 := (RtmpSessionPush s1 init).2 in
  let reg2 := run [OpPush s3; OpPush s2; OpDel s3] reg1 in
  RtmpSessionPush s2 reg2 = (false, reg2)
  /\ RtmpSessionGet (StreamAnchor s1) reg2 = Some s1
  /\ (RtmpSessionPush s2 (RtmpSessionDel s1 reg2)).1 = true
  /\ RtmpSessionGet (StreamAnchor s1)
       (RtmpSessionPush s2 (RtmpSessionDel s1 reg2)).2 = Some s2.
Proof.
  intros s1 s2 s3 reg1 reg2.
  apply (push_insert_if_absent init reg1 s1 s2 s1 [OpPush s3; OpPush s2; OpDel s3]).
  - exact init_wf.
  - reflexivity.
  - reflexivity.
  - reflexivity.
  - repeat constructor; simpl; try tauto. discriminate.
Defined.






End RegistryFacts.

(** ** A type 0 header on an unfinished message *)

Section TypeZero.

Lemma set_readcsmap_same (self : Session) :
  set_readcsmap (readcsmap self) self = self.
Proof. now destruct self. Qed.

Lemma ReadFull_Some_eq (r : list byte) (n : nat) got r' :
  ReadFull r n = (got, r', None) ->
  got = take n r /\ r' = drop n r /\ (n <= length r)%nat.
Proof.
  unfold ReadFull. destruct (n <=? length r)%nat eqn:E; [|discriminate].
  intros [= <- <-]. apply Nat.leb_le in E. auto.
Qed.

Lemma take_drop_take (r : list byte) :
  take 3 (drop 3 (take 11 r)) = take 3 (drop 3 r).
Proof.
  rewrite !take_drop_commute. rewrite take_take. reflexivity.
Qed.

(** C6.  When the basic header announces type 0 for chunk stream [csid]:
    if that chunk stream still has bytes of a message to come,
    [readChunk] returns the protocol error, having called no handler and
    changed nothing but the connection; otherwise a header that is read
    to its end starts a new message: the declared length is taken from
    bytes 3..5 of the header, all of it is left to read, and the buffer is
    a fresh one of that length. *)
Theorem readChunk_type0_new_message
    (env : Env) (self : Session) (r : list byte) (csid n : Z) :
  readBasicHeader (bufr self) = (r, Ok (0, csid, n)) ->
  let cs := default zeroChunkStream (readcsmap self !! csid) in
  if msgdataleft cs =? 0 then
    match readMsgHeader 0 cs r with
    | (cs', _, Ok k) =>
        msghdrtype cs' = 0
        /\ msgdatalen cs' = U24BE (take 3 (drop 3 r))
        /\ msgdataleft cs' = msgdatalen cs'
        /\ msgdata cs' = replicate (Z.to_nat (msgdatalen cs')) Byte.x00
        /\ 11 <= k
    | (_, _, Err e) => e = ErrEOF \/ e = ErrUnexpectedEOF
    | (_, _, Panic) => False
    end
  else
    readChunk env self
    = (set_bufr r self, [], Err (ErrMsgDataLeft (msgdataleft cs))).
Proof.
  intros Hbasic cs.
  destruct (msgdataleft cs =? 0) eqn:Eleft.
  - unfold readMsgHeader. rewrite Eleft. simpl negb. cbv iota.
    destruct (ReadFull r 11) as [[h r1] [e|]] eqn:E.
    { eapply ReadFull_error, E. }
    apply ReadFull_Some_eq in E as (-> & -> & Hlen).
    cbv zeta. unfold readTimeExt.
    rewrite take_drop_take.
    destruct (U24BE (take 3 (take 11 r)) =? 0xffffff).
    + destruct (ReadFull (drop 11 r) 4) as [[b r2] [e|]] eqn:E4.
      { eapply ReadFull_error, E4. }
      simpl. repeat split; lia.
    + simpl. repeat split; lia.
  - unfold readChunk, readChunkData. rewrite Hbasic. fold cs.
    unfold readMsgHeader. rewrite Eleft. simpl negb. cbv iota.
    assert (Hcs : readcsmap self !! csid = Some cs).
    { subst cs. destruct (readcsmap self !! csid) as [c|]; [reflexivity|].
      simpl in Eleft. discriminate. }
    rewrite insert_id by exact Hcs. now rewrite set_readcsmap_same.
Qed.

Lemma readChunk_type0_new_message_witness :
  let cs := mkChunkStream 0 0 false 1 8 10 6 0 (replicate 10 Byte.x00) in
  let self := set_readcsmap {[ 6 := cs ]} (NewSesion [Byte.x06; Byte.x00]) in
  readChunk sampleEnv self = (set_bufr [Byte.x00] self, [], Err (ErrMsgDataLeft 6)).
Proof.
  intros cs self.
  exact (readChunk_type0_new_message sampleEnv self [Byte.x00] 6 1 eq_refl).
Defined.

End TypeZero.

(** ** Bytes consumed and the acknowledgement window *)

Section AckWindow.

Lemma ReadFull_consumes (r : list byte) (n : nat) got r' :
  ReadFull r n = (got, r', None) -> len r = Z.of_nat n + len r'.
Proof.
  intros H. apply ReadFull_Some_eq in H as (_ & -> & Hn).
  unfold len. rewrite length_drop. lia.
Qed.

Lemma readBasicHeader_consumes (r r' : list byte) (fmtTpye csid n : Z) :
  readBasicHeader r = (r', Ok (fmtTpye, csid, n)) -> len r = len r' + n.
Proof.
  destruct r as [|hb rest]; [discriminate|].
  rewrite readBasicHeader_cons. unfold len.
  repeat case_match; intros [= <- <- <- <-] || discriminate; simpl; lia.
Qed.

Lemma readTimeExt_consumes timestamp cs r cs' r' ts k :
  readTimeExt timestamp cs r = (cs', r', Ok (ts, k)) -> len r = len r' + k.
Proof.
  unfold readTimeExt. destruct (timestamp =? 0xffffff).
  - destruct (ReadFull r 4) as [[b r1] [e|]] eqn:E; [discriminate|].
    intros [= _ <- _ <-]. apply ReadFull_consumes in E. lia.
  - intros [= _ <- _ <-]. lia.
Qed.

Lemma readMsgHeader_consumes fmtTpye cs r cs' r' k :
  readMsgHeader fmtTpye cs r = (cs', r', Ok k) -> len r = len r' + k.
Proof.
  unfold readMsgHeader.
  destruct fmtTpye as [|[[]|[]|]|]; try discriminate.
  - (* type 0 *)
    destruct (negb _); [discriminate|].
    destruct (ReadFull r 11) as [[h r1] [e1|]] eqn:E; [discriminate|].
    cbv zeta.
    destruct (readTimeExt _ _ _) as [[cs1 r2] [[ts k']|e2|]] eqn:E2;
      try discriminate.
    intros [= _ <- <-]. apply ReadFull_consumes in E.
    apply readTimeExt_consumes in E2. lia.
  - (* type 3 *)
    destruct (hastimeext cs && EXTTIME).
    + destruct (msghdrtype cs) as [|[[]|[]|]|];
        try (cbv beta iota zeta; intros [= _ <- <-]; lia).
      all: destruct (ReadFull r 4) as [[h r1] [e1|]] eqn:E;
        cbv beta iota zeta;
        [discriminate | intros [= _ <- <-]; apply ReadFull_consumes in E; lia].
    + destruct (msghdrtype cs) as [|[[]|[]|]|];
        cbv beta iota zeta; intros [= _ <- <-]; lia.
  - (* type 2 *)
    destruct (negb _); [discriminate|].
    destruct (ReadFull r 3) as [[h r1] [e1|]] eqn:E; [discriminate|].
    cbv zeta.
    destruct (readTimeExt _ _ _) as [[cs1 r2] [[ts k']|e2|]] eqn:E2;
      try discriminate.
    intros [= _ <- <-]. apply ReadFull_consumes in E.
    apply readTimeExt_consumes in E2. lia.
  - (* type 1 *)
    destruct (negb _); [discriminate|].
    destruct (ReadFull r 7) as [[h r1] [e1|]] eqn:E; [discriminate|].
    cbv zeta.
    destruct (readTimeExt _ _ _) as [[cs1 r2] [[ts k']|e2|]] eqn:E2;
      try discriminate.
    intros [= _ <- <-]. apply ReadFull_consumes in E.
    apply readTimeExt_consumes in E2. lia.
Qed.

Lemma readPayload_consumes rmcs cs r cs' r' size :
  readPayload rmcs cs r = (cs', r', Ok size) -> len r = len r' + size.
Proof.
  unfold readPayload. cbv zeta.
  set (sz := if msgdataleft cs >? rmcs then rmcs else msgdataleft cs).
  set (off := u32 (msgdatalen cs - msgdataleft cs)).
  destruct (negb _) eqn:Eb; [discriminate|].
  apply negb_false_iff, andb_true_iff in Eb as [H1 H2].
  apply Z.leb_le in H1.
  destruct (ReadFull r (Z.to_nat sz)) as [[got r1] [e|]] eqn:E; [discriminate|].
  intros [= _ <- <-]. apply ReadFull_consumes in E. lia.
Qed.

Lemma readChunkData_consumes (self self' : Session) (csid n : Z) :
  readChunkData self = (self', Ok (csid, n)) ->
  len (bufr self) = len (bufr self') + n.
Proof.
  unfold readChunkData.
  destruct (readBasicHeader (bufr self)) as [r [[[f c] n0]|e0|]] eqn:E0;
    try discriminate.
  destruct (readMsgHeader _ _ _) as [[cs1 r1] [k|e1|]] eqn:E1; try discriminate.
  destruct (readPayload _ _ _) as [[cs2 r2] [sz|e2|]] eqn:E2; try discriminate.
  intros [= <- _ <-]. simpl.
  apply readBasicHeader_consumes in E0. apply readMsgHeader_consumes in E1.
  apply readPayload_consumes in E2. lia.
Qed.

Lemma u32_add_u32 (a n : Z) : u32 (a + u32 n) = u32 (a + n).
Proof. unfold u32. now rewrite Zplus_mod_idemp_r. Qed.

(** The last step of [readChunk] on its own. *)
Lemma ackStep_spec (env : Env) (n : Z) (self : Session) :
  env_frame env ->
  let a := u32 (ackn self + n) in
  match ackStep env n self with
  | (self', evs, res) =>
      bufr self' = bufr self
      /\ readAckSize self' = readAckSize self
      /\ readcsmap self' = readcsmap self
      /\ match res with
         | Ok _ => True
         | Err e => exists c, e = ErrWrite c
         | Panic => False
         end
      /\ handlerCalls evs = []
      /\ acks evs =
           (if negb (readAckSize self =? 0) && (a >? readAckSize self)
            then [a] else [])
      /\ match res with
         | Ok _ =>
             ackn self' =
               (if negb (readAckSize self =? 0) && (a >? readAckSize self)
                then 0 else a)
         | _ => True
         end
  end.
Proof.
  intros (_ & _ & Hw) a. unfold ackStep. cbv zeta. rewrite u32_add_u32.
  fold a. simpl readAckSize. simpl ackn.
  destruct (negb (readAckSize self =? 0) && (a >? readAckSize self)).
  - destruct (Hw (set_ackn a self) a) as [(_ & Hm & Hb) (Hs & _)].
    destruct (writeRtmpMsgAck env (set_ackn a self) a) as [s' [c|]];
      simpl in *; repeat split; eauto.
  - simpl. repeat split; auto.
Qed.

Lemma readChunkData_keeps (self : Session) :
  ackn (readChunkData self).1 = ackn self
  /\ readAckSize (readChunkData self).1 = readAckSize self
  /\ readMaxChunkSize (readChunkData self).1 = readMaxChunkSize self.
Proof.
  unfold readChunkData.
  destruct (readBasicHeader (bufr self)) as [r [[[f c] n0]|e0|]]; simpl; auto.
  destruct (readMsgHeader _ _ _) as [[cs1 r1] [k|e1|]]; simpl; auto.
  destruct (readPayload _ _ _) as [[cs2 r2] [sz|e2|]]; simpl; auto.
Qed.

(** C7.  [readChunk] adds the bytes the chunk took from the connection
    to [ackn] (in [uint32]); when the window [readAckSize] is not 0 and the
    counter is above it, one acknowledgement carrying the counter is sent
    and the counter is set to 0; otherwise none is sent, in particular none
    when the window is 0.  A call that fails has sent no acknowledgement,
    unless the failure is that of sending a due one. *)
Theorem readChunk_ack_window (env : Env) (self : Session) :
  env_frame env ->
  match readChunk env self with
  | (self', evs, res) =>
      let n := len (bufr self) - len (bufr self') in
      let a := u32 (ackn self + n) in
      let due := negb (readAckSize self' =? 0) && (a >? readAckSize self') in
      (if readAckSize self' =? 0 then acks evs = [] else True)
      /\ match res with
         | Ok _ =>
             acks evs = (if due then [a] else [])
             /\ ackn self' = (if due then 0 else a)
         | _ => acks evs = [] \/ (due = true /\ acks evs = [a])
         end
  end.
Proof.
  intros Hframe. pose proof Hframe as (Hh & Hr & Hw).
  unfold readChunk.
  pose proof (readChunkData_keeps self) as (Ka & Ks & _).
  destruct (readChunkData self) as [s1 [[csid n]|e|]] eqn:E; simpl in Ka, Ks.
  2,3: split; [now destruct (_ =? _) | now left].
  apply readChunkData_consumes in E.
  assert (Hack : forall s, ackn s = ackn s1 -> bufr s = bufr s1 ->
            match ackStep env n s with
            | (self', evs, res) =>
                let n' := len (bufr self) - len (bufr self') in
                let a := u32 (ackn self + n') in
                let due := negb (readAckSize self' =? 0) && (a >? readAckSize self') in
                handlerCalls evs = []
                /\ (if readAckSize self' =? 0 then acks evs = [] else True)
                /\ match res with
                   | Ok _ =>
                       acks evs = (if due then [a] else [])
                       /\ ackn self' = (if due then 0 else a)
                   | _ => acks evs = [] \/ (due = true /\ acks evs = [a])
                   end
            end).
  { intros s Hsa Hsb. pose proof (ackStep_spec env n s Hframe) as H.
    destruct (ackStep env n s) as [[s' evs] res]. cbv zeta in *.
    destruct H as (Hb & Hsz & _ & _ & Hhc & Hacks & Hres).
    rewrite Hb, Hsb, Hsz.
    replace (len (bufr self) - len (bufr s1)) with n by lia.
    rewrite Hsa, Ka in *.
    split; [exact Hhc|]. split.
    - rewrite Hacks. now destruct (readAckSize s =? 0).
    - destruct res as [[]|e'|].
      + split; assumption.
      + rewrite Hacks. destruct (negb _ && _); auto.
      + rewrite Hacks. destruct (negb _ && _); auto. }
  assert (Hack' : forall s, ackn s = ackn s1 -> bufr s = bufr s1 ->
            match ackStep env n s with
            | (self', evs, res) =>
                let n' := len (bufr self) - len (bufr self') in
                let a := u32 (ackn self + n') in
                let due := negb (readAckSize self' =? 0) && (a >? readAckSize self') in
                (if readAckSize self' =? 0 then acks evs = [] else True)
                /\ match res with
                   | Ok _ =>
                       acks evs = (if due then [a] else [])
                       /\ ackn self' = (if due then 0 else a)
                   | _ => acks evs = [] \/ (due = true /\ acks evs = [a])
                   end
            end).
  { intros s Hsa Hsb. specialize (Hack s Hsa Hsb).
    destruct (ackStep env n s) as [[s' evs] res]. cbv zeta in *.
    destruct Hack as (_ & H1 & H2). split; assumption. }
  destruct (msgdataleft _ =? 0); [|now apply Hack'].
  destruct (Hr s1) as [(Ra & _ & Rb) _].
  destruct (hands env _) as [h|] eqn:Eh; [|now apply Hack'].
  match goal with |- context [h ?s ?a ?b ?c ?d] =>
    pose proof (Hh _ h s a b d Eh) as (Ha2 & _ & Hb2);
    destruct (h s a b c d) as [s3 [c'|]] end; simpl in Ha2, Hb2.
  - simpl. split; [now destruct (_ =? _) | now left].
  - specialize (Hack' s3 ltac:(congruence) ltac:(congruence)).
    destruct (ackStep env n s3) as [[s' evs] res]. exact Hack'.
Qed.

Lemma sampleEnv_frame : env_frame sampleEnv.
Proof.
  unfold env_frame, keeps_reader, keeps_sizes. split; [|now simpl].
  intros t h s ts sid d Ht. simpl in Ht.
  repeat case_match; try discriminate; injection Ht as <-; simpl; auto.
Qed.

Example readChunk_ackSample :
  (readChunk sampleEnv ackSample).1.2
    = [EvHandler 8 0 1 [Byte.xaa; Byte.xbb]; EvAck 14]
  /\ (readChunk sampleEnv ackSample).2 = Ok tt
  /\ ackn (readChunk sampleEnv ackSample).1.1 = 0.
Proof. vm_compute. auto. Qed.

Lemma readChunk_ack_window_witness :
  env_frame sampleEnv
  /\ match readChunk sampleEnv ackSample with
     | (self', evs, res) =>
         let n := len (bufr ackSample) - len (bufr self') in
         let a := u32 (ackn ackSample + n) in
         let due := negb (readAckSize self' =? 0) && (a >? readAckSize self') in
         (if readAckSize self' =? 0 then acks evs = [] else True)
         /\ match res with
            | Ok _ =>
                acks evs = (if due then [a] else [])
                /\ ackn self' = (if due then 0 else a)
            | _ => acks evs = [] \/ (due = true /\ acks evs = [a])
            end
     end.
Proof.
  split; [exact sampleEnv_frame|].
  exact (readChunk_ack_window sampleEnv ackSample sampleEnv_frame).
Defined.

End AckWindow.

(** ** Reassembly of a message from its chunks *)

Section Reassembly.

Lemma at_range (b : list byte) (i : nat) : 0 <= at_ b i < 256.
Proof. apply byte_to_Z_range. Qed.

Lemma U24BE_range (b : list byte) : 0 <= U24BE b < 2 ^ 24.
Proof.
  unfold U24BE.
  pose proof (at_range b 0). pose proof (at_range b 1). pose proof (at_range b 2).
  rewrite !Z.shiftl_mul_pow2 by lia.
  rewrite (lor_add (at_ b 0 * 2 ^ 16) (at_ b 1 * 2 ^ 8) 16);
    [|lia|now rewrite Z.mod_mul by lia|lia].
  rewrite (lor_add _ _ 8); [lia|lia| |lia].
  replace (at_ b 0 * 2 ^ 16 + at_ b 1 * 2 ^ 8)
    with ((at_ b 0 * 2 ^ 8 + at_ b 1) * 2 ^ 8) by lia.
  now rewrite Z.mod_mul by lia.
Qed.

Lemma zeroChunkStream_wf : cs_wf zeroChunkStream.
Proof. unfold cs_wf, len. simpl. lia. Qed.

Lemma Start_wf (cs : chunkStream) :
  0 <= msgdatalen cs < 2 ^ 32 -> cs_wf (Start cs).
Proof.
  intros H. unfold cs_wf, Start, len. simpl.
  rewrite length_replicate. lia.
Qed.

Lemma readTimeExt_fields timestamp cs r cs' r' res :
  readTimeExt timestamp cs r = (cs', r', res) ->
  msgdatalen cs' = msgdatalen cs /\ msgdataleft cs' = msgdataleft cs
  /\ msgdata cs' = msgdata cs.
Proof.
  unfold readTimeExt. destruct (timestamp =? 0xffffff).
  - destruct (ReadFull r 4) as [[b r1] [e|]]; intros [= <- _ _]; auto.
  - intros [= <- _ _]. auto.
Qed.

(** A header that is read to its end leaves the chunk stream well formed. *)
Lemma readMsgHeader_wf fmtTpye cs r cs' r' k :
  cs_wf cs -> readMsgHeader fmtTpye cs r = (cs', r', Ok k) -> cs_wf cs'.
Proof.
  intros Hwf. pose proof Hwf as (Hlen & Hleft & Hmax).
  unfold readMsgHeader.
  destruct fmtTpye as [|[[]|[]|]|]; try discriminate.
  - (* type 0 *)
    destruct (negb _); [discriminate|].
    destruct (ReadFull r 11) as [[h r1] [e1|]]; [discriminate|]. cbv zeta.
    destruct (readTimeExt _ _ _) as [[cs1 r2] [[ts k']|e2|]] eqn:E2;
      try discriminate.
    intros [= <- _ _]. apply readTimeExt_fields in E2 as (E & _ & _).
    apply Start_wf. simpl in *. rewrite E.
    pose proof (U24BE_range (take 3 (drop 3 h))). lia.
  - (* type 3 *)
    assert (Hk : forall c, msgdatalen c = msgdatalen cs ->
                 msgdataleft c = msgdataleft cs -> msgdata c = msgdata cs ->
                 cs_wf (if msgdataleft c =? 0 then Start c else c)).
    { intros c E1 E2 E3. destruct (msgdataleft c =? 0).
      - apply Start_wf. lia.
      - unfold cs_wf. now rewrite E1, E2, E3. }
    assert (Hk' : forall c, msgdatalen c = msgdatalen cs ->
                 msgdataleft c = msgdataleft cs -> msgdata c = msgdata cs ->
                 (if msgdataleft c =? 0 then Start c else c) = cs' ->
                 cs_wf cs').
    { intros c E1 E2 E3 <-. now apply Hk. }
    destruct (hastimeext cs && EXTTIME).
    + destruct (msghdrtype cs) as [|[[]|[]|]|];
        try (cbv beta iota zeta; intros [= E _ _];
             refine (Hk' _ _ _ _ E); reflexivity).
      all: destruct (ReadFull r 4) as [[h r1] [e1|]];
        cbv beta iota zeta;
        first [discriminate
              | intros [= E _ _]; refine (Hk' _ _ _ _ E); reflexivity].
    + destruct (msghdrtype cs) as [|[[]|[]|]|];
        cbv beta iota zeta; intros [= E _ _];
        refine (Hk' _ _ _ _ E); reflexivity.
  - (* type 2 *)
    destruct (negb _); [discriminate|].
    destruct (ReadFull r 3) as [[h r1] [e1|]]; [discriminate|]. cbv zeta.
    destruct (readTimeExt _ _ _) as [[cs1 r2] [[ts k']|e2|]] eqn:E2;
      try discriminate.
    intros [= <- _ _]. apply readTimeExt_fields in E2 as (E & _ & _).
    apply Start_wf. simpl in *. lia.
  - (* type 1 *)
    destruct (negb _); [discriminate|].
    destruct (ReadFull r 7) as [[h r1] [e1|]]; [discriminate|]. cbv zeta.
    destruct (readTimeExt _ _ _) as [[cs1 r2] [[ts k']|e2|]] eqn:E2;
      try discriminate.
    intros [= <- _ _]. apply readTimeExt_fields in E2 as (E & _ & _).
    apply Start_wf. simpl in *. rewrite E.
    pose proof (U24BE_range (take 3 (drop 3 h))). lia.
Qed.

(** The payload of one chunk, for a well-formed chunk stream, a chunk
    size that is not negative and a connection that delivers the bytes. *)
Lemma readPayload_spec (rmcs : Z) (cs : chunkStream) (r : list byte) :
  cs_wf cs -> 0 <= rmcs ->
  let size := Z.min (msgdataleft cs) rmcs in
  let off := msgdatalen cs - msgdataleft cs in
  size <= len r ->
  readPayload rmcs cs r
  = (set_msgdataleft (msgdataleft cs - size)
       (set_msgdata (take (Z.to_nat off) (msgdata cs)
                     ++ take (Z.to_nat size) r
                     ++ drop (Z.to_nat (off + size)) (msgdata cs)) cs),
     drop (Z.to_nat size) r, Ok size).
Proof.
  intros (Hlen & Hleft & Hmax) Hr size off Hfit.
  unfold readPayload. cbv zeta.
  assert (Es : (if msgdataleft cs >? rmcs then rmcs else msgdataleft cs) = size).
  { unfold size. destruct (Z.gtb_spec (msgdataleft cs) rmcs); lia. }
  rewrite Es.
  assert (Eo : u32 (msgdatalen cs - msgdataleft cs) = off).
  { unfold u32, off. apply Z.mod_small. lia. }
  rewrite Eo.
  assert (Hsize : 0 <= size <= msgdataleft cs) by (unfold size; lia).
  unfold len in *.
  replace (off <=? off + size) with true by (symmetry; apply Z.leb_le; lia).
  replace (off + size <=? Z.of_nat (length (msgdata cs))) with true
    by (symmetry; apply Z.leb_le; unfold off; lia).
  simpl negb. cbv iota.
  rewrite ReadFull_enough by lia.
  rewrite length_take.
  replace (Z.to_nat off + Z.to_nat size `min` length r)%nat
    with (Z.to_nat (off + size)) by (unfold off; lia).
  simpl msgdataleft.
  replace (u32 (msgdataleft cs - u32 size)) with (msgdataleft cs - size);
    [reflexivity|].
  unfold u32. rewrite (Z.mod_small size) by lia.
  symmetry. apply Z.mod_small. lia.
Qed.

Lemma readPayload_wf (rmcs : Z) (cs : chunkStream) (r : list byte) :
  cs_wf cs -> 0 <= rmcs ->
  let size := Z.min (msgdataleft cs) rmcs in
  let off := msgdatalen cs - msgdataleft cs in
  size <= len r ->
  cs_wf (set_msgdataleft (msgdataleft cs - size)
           (set_msgdata (take (Z.to_nat off) (msgdata cs)
                         ++ take (Z.to_nat size) r
                         ++ drop (Z.to_nat (off + size)) (msgdata cs)) cs)).
Proof.
  intros (Hlen & Hleft & Hmax) Hr size off Hfit.
  assert (Hsize : 0 <= size <= msgdataleft cs) by (unfold size; lia).
  unfold cs_wf, len in *. simpl.
  rewrite !length_app, !length_take, length_drop.
  unfold off. lia.
Qed.

Lemma session_wf_insert (self : Session) (csid : Z) (cs : chunkStream) m :
  session_wf self -> cs_wf cs -> m = <[csid := cs]> (readcsmap self) ->
  forall k c, m !! k = Some c -> cs_wf c.
Proof.
  intros Hs Hc -> k c. destruct (decide (csid = k)) as [<-|N].
  - rewrite lookup_insert_eq. now intros [= <-].
  - rewrite lookup_insert_ne by exact N. apply Hs.
Qed.

Lemma NewSesion_wf (input : list byte) : session_wf (NewSesion input).
Proof. intros csid cs H. simpl in H. now rewrite lookup_empty in H. Qed.

(** C3.  A chunk whose headers have been read, on a session whose chunk
    streams are well formed and whose chunk size is not negative, from a
    connection that delivers the payload: [readChunk] reads
    [min(msgdataleft, readMaxChunkSize)] bytes into the buffer at offset
    [msgdatalen - msgdataleft] and takes that many off [msgdataleft]; the
    entry of the handler table for the message type is called (a nil entry
    is no call) exactly when [msgdataleft] has come to 0, with a payload of
    [msgdatalen] bytes; the chunk stream is left in that state, so with
    [msgdataleft = 0] after a delivery; and the chunk streams are well
    formed again, so the same holds for the next chunk. *)
Theorem readChunk_reassembly
    (env : Env) (self : Session) (r0 r1 : list byte)
    (fmtTpye csid n0 k : Z) (cs1 : chunkStream) :
  env_frame env ->
  session_wf self ->
  0 <= readMaxChunkSize self ->
  readBasicHeader (bufr self) = (r0, Ok (fmtTpye, csid, n0)) ->
  readMsgHeader fmtTpye (default zeroChunkStream (readcsmap self !! csid)) r0
    = (cs1, r1, Ok k) ->
  let size := Z.min (msgdataleft cs1) (readMaxChunkSize self) in
  let off := msgdatalen cs1 - msgdataleft cs1 in
  size <= len r1 ->
  let cs2 :=
    set_msgdataleft (msgdataleft cs1 - size)
      (set_msgdata (take (Z.to_nat off) (msgdata cs1)
                    ++ take (Z.to_nat size) r1
                    ++ drop (Z.to_nat (off + size)) (msgdata cs1)) cs1) in
  match readChunk env self with
  | (self', evs, res) =>
      handlerCalls evs =
        (if msgdataleft cs2 =? 0 then
           match hands env (msgtypeid cs2) with
           | Some _ => [EvHandler (msgtypeid cs2) (timenow cs2) (msgsid cs2)
                          (msgdata cs2)]
           | None => []
           end
         else [])
      /\ len (msgdata cs2) = msgdatalen cs2
      /\ readcsmap self' !! csid = Some cs2
      /\ bufr self' = drop (Z.to_nat size) r1
      /\ session_wf self'
      /\ match res with
         | Ok _ => True
         | Err e => exists c, e = ErrHandler c \/ e = ErrWrite c
         | Panic => False
         end
  end.
Proof.
  intros Hframe Hswf Hrmcs Hbasic Hhdr size off Hfit cs2.
  pose proof Hframe as (Hh & Hr & Hw).
  assert (Hwf0 : cs_wf (default zeroChunkStream (readcsmap self !! csid))).
  { destruct (readcsmap self !! csid) as [c|] eqn:E; simpl;
      [eapply Hswf, E | apply zeroChunkStream_wf]. }
  assert (Hwf1 : cs_wf cs1) by (eapply readMsgHeader_wf; eauto).
  assert (Hwf2 : cs_wf cs2) by (now apply readPayload_wf).
  unfold readChunk, readChunkData. rewrite Hbasic, Hhdr.
  rewrite (readPayload_spec _ _ _ Hwf1 Hrmcs Hfit).
  fold size off cs2.
  set (s1 := set_bufr (drop (Z.to_nat size) r1)
               (set_readcsmap (<[csid:=cs2]> (readcsmap self)) self)).
  assert (Hm1 : readcsmap s1 = <[csid:=cs2]> (readcsmap self)) by reflexivity.
  assert (Hb1 : bufr s1 = drop (Z.to_nat size) r1) by reflexivity.
  assert (Hl1 : readcsmap s1 !! csid = Some cs2)
    by (rewrite Hm1; apply lookup_insert_eq).
  rewrite Hl1. simpl default.
  assert (Hack : forall s, readcsmap s = readcsmap s1 -> bufr s = bufr s1 ->
            match ackStep env (n0 + k + size) s with
            | (self', evs, res) =>
                handlerCalls evs = []
                /\ len (msgdata cs2) = msgdatalen cs2
                /\ readcsmap self' !! csid = Some cs2
                /\ bufr self' = drop (Z.to_nat size) r1
                /\ session_wf self'
                /\ match res with
                   | Ok _ => True
                   | Err e => exists c, e = ErrHandler c \/ e = ErrWrite c
                   | Panic => False
                   end
            end).
  { intros s Hsm Hsb.
    pose proof (ackStep_spec env (n0 + k + size) s Hframe) as H.
    destruct (ackStep env (n0 + k + size) s) as [[s' evs] res]. cbv zeta in H.
    destruct H as (Hb & _ & Hm & Hres & Hhc & _).
    split; [exact Hhc|]. split; [apply Hwf2|].
    split; [now rewrite Hm, Hsm|]. split; [now rewrite Hb, Hsb|].
    split.
    - intros j c. rewrite Hm, Hsm. apply (session_wf_insert self csid cs2 _ Hswf Hwf2 Hm1).
    - destruct res as [[]|e|]; auto. destruct Hres as [c ->]. eauto. }
  destruct (msgdataleft cs2 =? 0); [|now apply Hack].
  destruct (Hr s1) as [(_ & Rm & Rb) _].
  destruct (hands env (msgtypeid cs2)) as [h|] eqn:Eh.
  - match goal with |- context [h ?s ?a ?b ?c ?d] =>
      pose proof (Hh _ h s a b d Eh) as (_ & Hm2 & Hb2);
      destruct (h s a b c d) as [s3 [c'|]] end; simpl in Hm2, Hb2.
    + simpl. split; [reflexivity|]. split; [apply Hwf2|].
      split; [now rewrite Hm2, Rm|]. split; [now rewrite Hb2, Rb|].
      split; [|eauto].
      intros j c. rewrite Hm2, Rm. apply (session_wf_insert self csid cs2 _ Hswf Hwf2 Hm1).
    + specialize (Hack s3 ltac:(congruence) ltac:(congruence)).
      destruct (ackStep env (n0 + k + size) s3) as [[s' evs] res].
      destruct Hack as (Hhc & Hrest). split; [|exact Hrest].
      simpl. now rewrite Hhc.
  - specialize (Hack (ReadRegister env s1) Rm Rb).
    destruct (ackStep env _ _) as [[s' evs] res]. exact Hack.
Qed.

Lemma reassemblySample_wf : session_wf reassemblySample.
Proof.
  intros csid cs H. simpl in H.
  apply lookup_singleton_Some in H as [_ <-].
  unfold cs_wf, len. simpl. lia.
Qed.

Lemma readChunk_reassembly_witness :
  match readChunk sampleEnv reassemblySample with
  | (self', evs, res) =>
      handlerCalls evs =
        [EvHandler 8 0 1
           [Byte.xaa; Byte.xbb; Byte.xcc; Byte.xdd; Byte.xee; Byte.xff]]
      /\ len [Byte.xaa; Byte.xbb; Byte.xcc; Byte.xdd; Byte.xee; Byte.xff] = 6
      /\ readcsmap self' !! 3 =
           Some (mkChunkStream 0 0 false 1 8 6 0 0
                   [Byte.xaa; Byte.xbb; Byte.xcc; Byte.xdd; Byte.xee; Byte.xff])
      /\ bufr self' = []
      /\ session_wf self'
      /\ match res with
         | Ok _ => True
         | Err e => exists c, e = ErrHandler c \/ e = ErrWrite c
         | Panic => False
         end
  end.
Proof.
  refine (readChunk_reassembly sampleEnv reassemblySample
            [Byte.xee; Byte.xff] [Byte.xee; Byte.xff] 3 3 1 0 midMessage
            sampleEnv_frame reassemblySample_wf _ eq_refl eq_refl _).
  - simpl. lia.
  - vm_compute. discriminate.
Defined.

(** Both chunks of the message read in turn: one call of the audio
    handler, after the second chunk, with the six bytes. *)
Example rtmpReadMsgCycle_twoChunks :
  exists self',
    rtmpReadMsgCycle sampleEnv 3 twoChunks
    = Some (self',
            [EvHandler 8 0 1
               [Byte.xaa; Byte.xbb; Byte.xcc; Byte.xdd; Byte.xee; Byte.xff]],
            Err ErrEOF)
    /\ (msgdataleft <$> readcsmap self' !! 3) = Some 0.
Proof. eexists. split; vm_compute; reflexivity. Qed.

End Reassembly.

(** ** Writing and reading back a chunk header *)

Section HeaderRoundTrip.

Lemma bytesU24BE_U24BE (v : Z) (l : list byte) :
  0 <= v < 2 ^ 24 -> U24BE (bytesU24BE v ++ l) = v.
Proof.
  intros Hv. unfold bytesU24BE. cbn [app]. rewrite U24BE_eq.
  rewrite !byte_to_Z_to_byte, !Z.shiftr_div_pow2 by lia.
  change (2 ^ 16) with 65536. change (2 ^ 8) with 256.
  change (2 ^ 24) with 16777216 in Hv.
  Z.div_mod_to_equations. lia.
Qed.

Lemma bytesU32BE_U32BE (v : Z) (l : list byte) :
  0 <= v < 2 ^ 32 -> U32BE (bytesU32BE v ++ l) = v.
Proof.
  intros Hv. unfold bytesU32BE. cbn [app]. rewrite U32BE_eq.
  rewrite !byte_to_Z_to_byte, !Z.shiftr_div_pow2 by lia.
  change (2 ^ 16) with 65536. change (2 ^ 8) with 256.
  change (2 ^ 24) with 16777216. change (2 ^ 32) with 4294967296 in Hv.
  Z.div_mod_to_equations. lia.
Qed.

Lemma bytesU32LE_U32LE (v : Z) (l : list byte) :
  0 <= v < 2 ^ 32 -> U32LE (bytesU32LE v ++ l) = v.
Proof.
  intros Hv. unfold bytesU32LE. cbn [app]. rewrite U32LE_eq.
  rewrite !byte_to_Z_to_byte, !Z.shiftr_div_pow2 by lia.
  change (2 ^ 16) with 65536. change (2 ^ 8) with 256.
  change (2 ^ 24) with 16777216. change (2 ^ 32) with 4294967296 in Hv.
  Z.div_mod_to_equations. lia.
Qed.

Lemma store_eq (b : list byte) (i : Z) (v : byte) :
  0 <= i < len b -> store b i v = Some (<[Z.to_nat i := v]> b).
Proof.
  intros H. unfold store, len in *.
  replace (0 <=? i) with true by (symmetry; apply Z.leb_le; lia).
  now replace (i <? Z.of_nat (length b)) with true
    by (symmetry; apply Z.ltb_lt; lia).
Qed.

Lemma put_eq (b : list byte) (off : Z) (bs : list byte) :
  0 <= off -> off + len bs <= len b ->
  put b off bs = Some (take (Z.to_nat off) b ++ bs
                       ++ drop (Z.to_nat off + length bs) b).
Proof.
  intros H0 H1. unfold put, len in *.
  replace (0 <=? off) with true by (symmetry; apply Z.leb_le; lia).
  now replace (off + Z.of_nat (length bs) <=? Z.of_nat (length b)) with true
    by (symmetry; apply Z.leb_le; lia).
Qed.

Lemma csid_byte0 (csid : Z) :
  0 <= csid <= 63 -> Z.land (csid mod 256) 0x3f = csid.
Proof.
  intros H. rewrite Z.mod_small by lia.
  change 0x3f with (Z.ones 6). rewrite Z.land_ones by lia.
  apply Z.mod_small. change (2 ^ 6) with 64. lia.
Qed.

Lemma csid_byte3 (csid : Z) :
  0 <= csid <= 63 -> Z.lor (Z.land (csid mod 256) 0x3f) 0xC0 = csid + 0xC0.
Proof.
  intros H. rewrite csid_byte0 by exact H. rewrite Z.lor_comm.
  rewrite (lor_add 0xC0 csid 6); [lia | lia | reflexivity |].
  change (2 ^ 6) with 64. lia.
Qed.

Local Arguments Z_to_byte : simpl never.
Local Arguments Z.shiftr : simpl never.
Local Arguments Z.land : simpl never.
Local Arguments Z.lor : simpl never.
Local Arguments Z.modulo : simpl never.
Local Arguments Z.mul : simpl never.
Local Arguments Z.add : simpl never.
Local Arguments Z.of_nat : simpl never.

Ltac buffer16 b H :=
  unfold len in H;
  do 16 (destruct b as [|? b]; [simpl in H; lia|]).

Ltac do_store :=
  first [ rewrite store_eq by (unfold len; simpl length; lia)
        | rewrite put_eq by (unfold len; simpl length; lia) ];
  cbn [mbind option_bind]; simpl.

(** What [fillChunk0Header] leaves in the first [n] bytes of the buffer. *)
Lemma fillChunk0Header_bytes (b : list byte)
    (csid timestamp msgtypeid msgsid msgdatalen : Z) :
  chunkHeaderLength <= len b -> 0 <= csid <= 63 ->
  0 <= timestamp < 2 ^ 32 -> 0 <= msgdatalen < 2 ^ 32 ->
  let hdr := wireHeader0 csid timestamp msgtypeid msgsid msgdatalen in
  exists b', fillChunk0Header b csid timestamp msgtypeid msgsid msgdatalen
             = Some (b', len hdr)
             /\ take (length hdr) b' = hdr.
Proof.
  intros Hb Hc Ht Hl hdr. unfold chunkHeaderLength in Hb.
  buffer16 b Hb. subst hdr.
  unfold fillChunk0Header, wireHeader0, extBytes. cbv zeta.
  rewrite csid_byte0 by exact Hc.
  unfold u32. rewrite !Z.mod_small by lia.
  do_store.
  destruct (timestamp <? 0xffffff) eqn:E1; do_store; do_store; do_store;
    do_store.
  - replace (timestamp >=? 0xffffff) with false
      by (symmetry; apply Z.ltb_lt in E1; rewrite Z.geb_leb; apply Z.leb_gt; lia).
    eexists. split; reflexivity.
  - replace (timestamp >=? 0xffffff) with true
      by (symmetry; apply Z.ltb_ge in E1; rewrite Z.geb_leb; apply Z.leb_le; lia).
    do_store. eexists. split; reflexivity.
Qed.

Lemma fillChunk3Header_bytes (b : list byte) (csid timestamp : Z) :
  chunkHeaderLength <= len b -> 0 <= csid <= 63 ->
  let hdr := wireHeader3 csid timestamp in
  exists b', fillChunk3Header b csid timestamp = Some (b', len hdr)
             /\ take (length hdr) b' = hdr.
Proof.
  intros Hb Hc hdr. unfold chunkHeaderLength in Hb.
  buffer16 b Hb. subst hdr.
  unfold fillChunk3Header, wireHeader3, extBytes. cbv zeta.
  rewrite csid_byte3 by exact Hc.
  do_store.
  destruct (timestamp >=? 0xffffff).
  - do_store. eexists. split; reflexivity.
  - eexists. split; reflexivity.
Qed.

Lemma ReadFull_3 (b0 b1 b2 : byte) (r : list byte) :
  ReadFull (b0 :: b1 :: b2 :: r) 3 = ([b0; b1; b2], r, None).
Proof. exact (ReadFull_app [b0; b1; b2] r). Qed.

Lemma ReadFull_11 (b0 b1 b2 b3 b4 b5 b6 b7 b8 b9 b10 : byte) (r : list byte) :
  ReadFull (b0 :: b1 :: b2 :: b3 :: b4 :: b5 :: b6 :: b7 :: b8 :: b9 :: b10 :: r) 11
  = ([b0; b1; b2; b3; b4; b5; b6; b7; b8; b9; b10], r, None).
Proof. exact (ReadFull_app [b0; b1; b2; b3; b4; b5; b6; b7; b8; b9; b10] r). Qed.

Lemma set_timenow_same (cs : chunkStream) : set_timenow (timenow cs) cs = cs.
Proof. now destruct cs. Qed.

Lemma readBasicHeader_wire0 (csid : Z) (tail : list byte) :
  2 <= csid <= 63 ->
  readBasicHeader (Z_to_byte csid :: tail) = (tail, Ok (0, csid, 1)).
Proof.
  intros H. rewrite readBasicHeader_cons, byte_to_Z_to_byte.
  rewrite (Z.mod_small csid 256) by lia.
  rewrite (Z.mod_small csid 64) by lia.
  rewrite (Z.div_small csid 64) by lia.
  destruct (Z.eqb_spec csid 0); [lia|]. destruct (Z.eqb_spec csid 1); [lia|].
  reflexivity.
Qed.

Lemma readBasicHeader_wire3 (csid : Z) (tail : list byte) :
  2 <= csid <= 63 ->
  readBasicHeader (Z_to_byte (csid + 0xC0) :: tail) = (tail, Ok (3, csid, 1)).
Proof.
  intros H. rewrite readBasicHeader_cons, byte_to_Z_to_byte.
  rewrite (Z.mod_small (csid + 0xC0) 256) by lia.
  replace ((csid + 0xC0) mod 64) with csid
    by (apply (Z.mod_unique_pos _ _ 3); lia).
  replace ((csid + 0xC0) / 64) with 3
    by (apply (Z.div_unique_pos _ _ _ csid); lia).
  destruct (Z.eqb_spec csid 0); [lia|]. destruct (Z.eqb_spec csid 1); [lia|].
  reflexivity.
Qed.

(** The chunk stream after a type 0 header carrying these fields. *)
Lemma readMsgHeader_wire0 (cs : chunkStream) (tail : list byte)
    (timestamp msgtypeid msgsid msgdatalen : Z) :
  msgdataleft cs = 0 ->
  0 <= timestamp < 2 ^ 32 -> 0 <= msgtypeid < 256 ->
  0 <= msgsid < 2 ^ 32 -> 0 <= msgdatalen < 2 ^ 24 ->
  readMsgHeader 0 cs
    (bytesU24BE (if timestamp <? 0xffffff then timestamp else 0xffffff)
     ++ bytesU24BE msgdatalen ++ [Z_to_byte msgtypeid] ++ bytesU32LE msgsid
     ++ extBytes timestamp ++ tail)
  = (Start (mkChunkStream timestamp (timedelta cs) (timestamp >=? 0xffffff)
              msgsid msgtypeid msgdatalen (msgdataleft cs) 0 (msgdata cs)),
     tail, Ok (11 + len (extBytes timestamp))).
Proof.
  intros Hleft Ht Hty Hsid Hlen.
  unfold readMsgHeader. rewrite Hleft. simpl negb. cbv iota.
  unfold bytesU24BE at 1 2. unfold bytesU32LE. cbn [app].
  rewrite ReadFull_11. cbv zeta. cbn [take drop firstn skipn].
  change (at_ _ 6) with (byte_to_Z (Z_to_byte msgtypeid)).
  rewrite byte_to_Z_to_byte, (Z.mod_small msgtypeid) by lia.
  match goal with |- context [U32LE ?l] =>
    change (U32LE l) with (U32LE (bytesU32LE msgsid ++ [])) end.
  rewrite bytesU32LE_U32LE by lia.
  match goal with |- context [set_msgdatalen (U24BE ?l)] =>
    change (U24BE l) with (U24BE (bytesU24BE msgdatalen ++ [])) end.
  rewrite bytesU24BE_U24BE by lia.
  match goal with |- context [readTimeExt (U24BE ?l)] =>
    change (U24BE l)
      with (U24BE (bytesU24BE (if timestamp <? 0xffffff then timestamp
                               else 0xffffff) ++ [])) end.
  rewrite bytesU24BE_U24BE by (destruct (timestamp <? 0xffffff) eqn:E;
                               [apply Z.ltb_lt in E|]; lia).
  unfold readTimeExt, extBytes.
  destruct (Z.ltb_spec timestamp 0xffffff) as [Hlt|Hge].
  - replace (timestamp =? 0xffffff) with false by (symmetry; apply Z.eqb_neq; lia).
    replace (timestamp >=? 0xffffff) with false
      by (symmetry; rewrite Z.geb_leb; apply Z.leb_gt; lia).
    reflexivity.
  - replace (timestamp >=? 0xffffff) with true
      by (symmetry; rewrite Z.geb_leb; apply Z.leb_le; lia).
    simpl (0xffffff =? 0xffffff). cbv iota.
    unfold bytesU32BE at 1. cbn [app]. rewrite ReadFull_4.
    match goal with |- context [U32BE ?l] =>
      change (U32BE l) with (U32BE (bytesU32BE timestamp ++ [])) end.
    rewrite bytesU32BE_U32BE by lia. reflexivity.
Qed.

(** A type 3 header on a message that a type 0 header started with this
    timestamp. *)
Lemma readMsgHeader_wire3 (cs : chunkStream) (tail : list byte) :
  msghdrtype cs = 0 -> msgdataleft cs <> 0 ->
  0 <= timenow cs < 2 ^ 32 ->
  hastimeext cs = (timenow cs >=? 0xffffff) ->
  readMsgHeader 3 cs (extBytes (timenow cs) ++ tail)
  = (cs, tail, Ok (len (extBytes (timenow cs)))).
Proof.
  intros Hty Hleft Ht Hext. unfold readMsgHeader, extBytes.
  rewrite Hext, Hty. change EXTTIME with true.
  apply Z.eqb_neq in Hleft.
  destruct (timenow cs >=? 0xffffff); simpl andb; cbv iota.
  - unfold bytesU32BE at 1. cbn [app]. rewrite ReadFull_4.
    match goal with |- context [U32BE ?l] =>
      change (U32BE l) with (U32BE (bytesU32BE (timenow cs) ++ [])) end.
    rewrite bytesU32BE_U32BE by lia. rewrite set_timenow_same.
    now rewrite Hleft.
  - now rewrite Hleft.
Qed.

Lemma ackStep_keeps_sizes (env : Env) (n : Z) (self : Session) :
  env_frame env ->
  readMaxChunkSize (ackStep env n self).1.1 = readMaxChunkSize self.
Proof.
  intros (_ & _ & Hw). unfold ackStep. cbv zeta.
  destruct (negb _ && _); [|reflexivity].
  match goal with |- context [writeRtmpMsgAck env ?s ?a] =>
    destruct (Hw s a) as [_ (_ & Hs)];
    destruct (writeRtmpMsgAck env s a) as [s' [c|]] end; simpl in *; auto.
Qed.

(** The first part of [readChunk] when the headers are read and the
    payload is there. *)
Lemma readChunkData_ok (self : Session) (r0 r1 : list byte)
    (fmtTpye csid n0 k : Z) (cs1 : chunkStream) :
  readBasicHeader (bufr self) = (r0, Ok (fmtTpye, csid, n0)) ->
  readMsgHeader fmtTpye (default zeroChunkStream (readcsmap self !! csid)) r0
    = (cs1, r1, Ok k) ->
  cs_wf cs1 -> 0 <= readMaxChunkSize self ->
  let size := Z.min (msgdataleft cs1) (readMaxChunkSize self) in
  let off := msgdatalen cs1 - msgdataleft cs1 in
  size <= len r1 ->
  readChunkData self
  = (set_bufr (drop (Z.to_nat size) r1)
       (set_readcsmap
          (<[csid := set_msgdataleft (msgdataleft cs1 - size)
                       (set_msgdata (take (Z.to_nat off) (msgdata cs1)
                                     ++ take (Z.to_nat size) r1
                                     ++ drop (Z.to_nat (off + size)) (msgdata cs1))
                          cs1)]> (readcsmap self)) self),
     Ok (csid, n0 + k + size)).
Proof.
  intros Hb Hh Hwf Hr size off Hfit. unfold readChunkData.
  rewrite Hb, Hh. now rewrite (readPayload_spec _ _ _ Hwf Hr Hfit).
Qed.

(** The second part of [readChunk]: what is called, and what is left of
    the session the first part produced. *)
Lemma readChunk_after_data (env : Env) (self s1 : Session) (csid n : Z)
    (cs2 : chunkStream) :
  env_frame env ->
  readChunkData self = (s1, Ok (csid, n)) ->
  readcsmap s1 !! csid = Some cs2 ->
  match readChunk env self with
  | (self', evs, res) =>
      handlerCalls evs =
        (if msgdataleft cs2 =? 0 then
           match hands env (msgtypeid cs2) with
           | Some _ => [EvHandler (msgtypeid cs2) (timenow cs2) (msgsid cs2)
                          (msgdata cs2)]
           | None => []
           end
         else [])
      /\ readcsmap self' = readcsmap s1
      /\ bufr self' = bufr s1
      /\ (if msgdataleft cs2 =? 0 then True
          else readMaxChunkSize self' = readMaxChunkSize s1)
      /\ match res with
         | Ok _ => True
         | Err e =>
             if msgdataleft cs2 =? 0
             then exists c, e = ErrHandler c \/ e = ErrWrite c
             else exists c, e = ErrWrite c
         | Panic => False
         end
  end.
Proof.
  intros Hframe Hdata Hcs. pose proof Hframe as (Hh & Hr & Hw).
  unfold readChunk. rewrite Hdata, Hcs. simpl default.
  assert (Hack : forall s, readcsmap s = readcsmap s1 -> bufr s = bufr s1 ->
            match ackStep env n s with
            | (self', evs, res) =>
                handlerCalls evs = []
                /\ readcsmap self' = readcsmap s1
                /\ bufr self' = bufr s1
                /\ readMaxChunkSize self' = readMaxChunkSize s
                /\ match res with
                   | Ok _ => True
                   | Err e => exists c, e = ErrWrite c
                   | Panic => False
                   end
            end).
  { intros s Hsm Hsb.
    pose proof (ackStep_spec env n s Hframe) as H.
    pose proof (ackStep_keeps_sizes env n s Hframe) as Hk.
    destruct (ackStep env n s) as [[s' evs] res]. cbv zeta in H. simpl in Hk.
    destruct H as (Hb & _ & Hm & Hres & Hhc & _).
    repeat split; congruence. }
  destruct (msgdataleft cs2 =? 0).
  - destruct (Hr s1) as [(_ & Rm & Rb) _].
    destruct (hands env (msgtypeid cs2)) as [h|] eqn:Eh.
    + match goal with |- context [h ?s ?a ?b ?c ?d] =>
        pose proof (Hh _ h s a b d Eh) as (_ & Hm2 & Hb2);
        destruct (h s a b c d) as [s3 [c'|]] end; simpl in Hm2, Hb2.
      * simpl. repeat split; try congruence. eauto.
      * specialize (Hack s3 ltac:(congruence) ltac:(congruence)).
        destruct (ackStep env n s3) as [[s' evs] res].
        destruct Hack as (Hhc & Hm & Hb & _ & Hres).
        simpl. rewrite Hhc. repeat split; auto.
        destruct res as [[]|e|]; auto. destruct Hres as [c ->]. eauto.
    + specialize (Hack (ReadRegister env s1) Rm Rb).
      destruct (ackStep env n _) as [[s' evs] res].
      destruct Hack as (Hhc & Hm & Hb & _ & Hres).
      repeat split; auto.
      destruct res as [[]|e|]; auto. destruct Hres as [c ->]. eauto.
  - specialize (Hack s1 eq_refl eq_refl).
    destruct (ackStep env n s1) as [[s' evs] res]. exact Hack.
Qed.

Lemma len_extBytes (timestamp : Z) :
  len (extBytes timestamp) = if timestamp >=? 0xffffff then 4 else 0.
Proof. unfold extBytes. now destruct (timestamp >=? 0xffffff). Qed.

Lemma to_nat_len {A : Type} (l : list A) : Z.to_nat (len l) = length l.
Proof. unfold len. apply Nat2Z.id. Qed.

Lemma len_nonneg {A : Type} (l : list A) : 0 <= len l.
Proof. unfold len. lia. Qed.

Lemma len_app {A : Type} (l1 l2 : list A) : len (l1 ++ l2) = len l1 + len l2.
Proof. unfold len. rewrite length_app. lia. Qed.

(** C4.  [fillChunk0Header] writes [0xFFFFFF] in the 24-bit field and the
    timestamp in four more bytes, big-endian, exactly when the timestamp is
    [0xFFFFFF] or more, and [fillChunk3Header] appends the same four bytes
    to the header of the continuation.  A message sent as a type 0 chunk
    and a type 3 continuation with these headers is read back by two calls
    of [readChunk] with the timestamp it was sent with, for every 32-bit
    timestamp, so for 0xFFFFFE, 0xFFFFFF, 0x01000000 and 0xFFFFFFFF. *)
Theorem extended_timestamp_round_trip
    (env : Env) (self : Session) (b : list byte)
    (csid timestamp msgtypeid msgsid : Z) (p1 p2 rest : list byte) :
  env_frame env ->
  chunkHeaderLength <= len b ->
  2 <= csid <= 63 -> 0 <= timestamp < 2 ^ 32 ->
  0 <= msgtypeid < 256 -> 0 <= msgsid < 2 ^ 32 ->
  len p1 = readMaxChunkSize self -> 0 < len p2 <= readMaxChunkSize self ->
  len p1 + len p2 < 2 ^ 24 ->
  msgdataleft (default zeroChunkStream (readcsmap self !! csid)) = 0 ->
  let msgdatalen := len p1 + len p2 in
  let hdr0 := wireHeader0 csid timestamp msgtypeid msgsid msgdatalen in
  let hdr3 := wireHeader3 csid timestamp in
  bufr self = hdr0 ++ p1 ++ hdr3 ++ p2 ++ rest ->
  (exists b0, fillChunk0Header b csid timestamp msgtypeid msgsid msgdatalen
              = Some (b0, len hdr0)
              /\ take (length hdr0) b0 = hdr0)
  /\ (exists b3, fillChunk3Header b csid timestamp = Some (b3, len hdr3)
                 /\ take (length hdr3) b3 = hdr3)
  /\ take 3 (drop 1 hdr0)
     = bytesU24BE (if timestamp <? 0xffffff then timestamp else 0xffffff)
  /\ drop 12 hdr0 = (if timestamp >=? 0xffffff then bytesU32BE timestamp else [])
  /\ drop 1 hdr3 = (if timestamp >=? 0xffffff then bytesU32BE timestamp else [])
  /\ match readChunk env self with
     | (s1, evs1, Ok _) =>
         handlerCalls evs1 = []
         /\ (timenow <$> readcsmap s1 !! csid) = Some timestamp
         /\ match readChunk env s1 with
            | (s2, evs2, _) =>
                handlerCalls evs2 =
                  match hands env msgtypeid with
                  | Some _ => [EvHandler msgtypeid timestamp msgsid (p1 ++ p2)]
                  | None => []
                  end
                /\ (timenow <$> readcsmap s2 !! csid) = Some timestamp
                /\ bufr s2 = rest
            end
     | (_, evs1, Err e) => handlerCalls evs1 = [] /\ exists c, e = ErrWrite c
     | (_, _, Panic) => False
     end.
Proof.
  intros Hframe Hb Hcsid Hts Hty Hsid Hp1 Hp2 Hlen Hleft L hdr0 hdr3 Hbufr.
  pose proof (len_nonneg p1) as Hp1nn.
  assert (HL : 0 <= L < 2 ^ 24) by (unfold L; lia).
  split; [apply fillChunk0Header_bytes; auto; lia|].
  split; [apply fillChunk3Header_bytes; auto; lia|].
  split; [reflexivity|]. split; [reflexivity|]. split; [reflexivity|].
  (* the first chunk *)
  set (cs0 := default zeroChunkStream (readcsmap self !! csid)) in *.
  set (tail1 := p1 ++ hdr3 ++ p2 ++ rest) in *.
  set (cs1 := Start (mkChunkStream timestamp (timedelta cs0)
                       (timestamp >=? 0xffffff) msgsid msgtypeid L
                       (msgdataleft cs0) 0 (msgdata cs0))).
  assert (E1 : readBasicHeader (bufr self)
               = (bytesU24BE (if timestamp <? 0xffffff then timestamp else 0xffffff)
                  ++ bytesU24BE L ++ [Z_to_byte msgtypeid] ++ bytesU32LE msgsid
                  ++ extBytes timestamp ++ tail1, Ok (0, csid, 1))).
  { rewrite Hbufr. unfold hdr0, wireHeader0.
    rewrite <- app_comm_cons, <- !app_assoc.
    now apply readBasicHeader_wire0. }
  assert (E2 := readMsgHeader_wire0 cs0 tail1 timestamp msgtypeid msgsid L
                  Hleft Hts Hty Hsid HL).
  fold cs1 in E2.
  assert (Hwf1 : cs_wf cs1) by (apply Start_wf; simpl; lia).
  assert (Hsz1 : Z.min (msgdataleft cs1) (readMaxChunkSize self) = len p1)
    by (simpl; lia).
  assert (Hd1 := readChunkData_ok self _ _ _ _ _ _ cs1 E1 E2 Hwf1
                   ltac:(lia)).
  cbv zeta in Hd1. rewrite Hsz1 in Hd1.
  specialize (Hd1 ltac:(unfold tail1; rewrite len_app; pose proof (len_nonneg (hdr3 ++ p2 ++ rest)); lia)).
  set (D1 := take (Z.to_nat (msgdatalen cs1 - msgdataleft cs1)) (msgdata cs1)
             ++ take (Z.to_nat (len p1)) tail1
             ++ drop (Z.to_nat (msgdatalen cs1 - msgdataleft cs1 + len p1))
                  (msgdata cs1)) in *.
  set (cs2 := set_msgdataleft (msgdataleft cs1 - len p1) (set_msgdata D1 cs1)) in *.
  assert (Hwf2 : cs_wf cs2).
  { pose proof (readPayload_wf (readMaxChunkSize self) cs1 tail1 Hwf1
                  ltac:(lia)) as H.
    cbv zeta in H. rewrite Hsz1 in H. apply H.
    unfold tail1. rewrite len_app.
    pose proof (len_nonneg (hdr3 ++ p2 ++ rest)). lia. }
  assert (Hleft2 : msgdataleft cs2 = len p2) by (simpl; unfold L; lia).
  pose proof (readChunk_after_data env self _ csid _ cs2 Hframe Hd1
                ltac:(apply lookup_insert_eq)) as Ha1.
  destruct (readChunk env self) as [[s1 evs1] res1].
  replace (msgdataleft cs2 =? 0) with false in Ha1
    by (symmetry; apply Z.eqb_neq; lia).
  destruct Ha1 as (Hc1 & Hm1 & Hb1 & Hr1 & Hres1).
  simpl in Hm1, Hb1, Hr1.
  destruct res1 as [[]|e|]; [|split; assumption|exact Hres1].
  split; [exact Hc1|].
  split; [now rewrite Hm1, lookup_insert_eq|].
  (* the continuation *)
  assert (Hdrop : drop (Z.to_nat (len p1)) tail1 = hdr3 ++ p2 ++ rest).
  { rewrite to_nat_len. unfold tail1. apply drop_app_length. }
  rewrite Hdrop in Hb1.
  assert (F1 : readBasicHeader (bufr s1)
               = (extBytes timestamp ++ p2 ++ rest, Ok (3, csid, 1))).
  { rewrite Hb1. unfold hdr3, wireHeader3. rewrite <- app_comm_cons.
    now apply readBasicHeader_wire3. }
  assert (Hcs2 : default zeroChunkStream (readcsmap s1 !! csid) = cs2)
    by now rewrite Hm1, lookup_insert_eq.
  assert (F2 : readMsgHeader 3 (default zeroChunkStream (readcsmap s1 !! csid))
                 (extBytes timestamp ++ p2 ++ rest)
               = (cs2, p2 ++ rest, Ok (len (extBytes timestamp)))).
  { rewrite Hcs2.
    exact (readMsgHeader_wire3 cs2 (p2 ++ rest) eq_refl ltac:(lia) Hts eq_refl). }
  assert (Hsz2 : Z.min (msgdataleft cs2) (readMaxChunkSize s1) = len p2)
    by (rewrite Hleft2, Hr1; lia).
  assert (Hd2 := readChunkData_ok s1 _ _ _ _ _ _ cs2 F1 F2 Hwf2
                   ltac:(rewrite Hr1; lia)).
  cbv zeta in Hd2. rewrite Hsz2 in Hd2.
  specialize (Hd2 ltac:(rewrite len_app; pose proof (len_nonneg rest); lia)).
  set (D2 := take (Z.to_nat (msgdatalen cs2 - msgdataleft cs2)) (msgdata cs2)
             ++ take (Z.to_nat (len p2)) (p2 ++ rest)
             ++ drop (Z.to_nat (msgdatalen cs2 - msgdataleft cs2 + len p2))
                  (msgdata cs2)) in *.
  set (cs3 := set_msgdataleft (msgdataleft cs2 - len p2) (set_msgdata D2 cs2)) in *.
  assert (HD2 : D2 = p1 ++ p2).
  { unfold D2. rewrite Hleft2. simpl msgdatalen. simpl msgdata.
    replace (L - len p2) with (len p1) by (unfold L; lia).
    rewrite !to_nat_len.
    assert (HlenD1 : length D1 = Z.to_nat L).
    { destruct Hwf1 as (Hl1 & _). destruct Hwf2 as (Hl2 & _).
      simpl in Hl2. unfold len in Hl2. lia. }
    rewrite (drop_ge D1) by (rewrite HlenD1; unfold L, len; lia).
    rewrite take_app_length, app_nil_r. f_equal.
    unfold D1. simpl msgdatalen. simpl msgdataleft.
    rewrite Z.sub_diag. simpl (Z.to_nat 0). rewrite take_0. cbn [app].
    rewrite to_nat_len. unfold tail1.
    rewrite (take_app_length p1 (hdr3 ++ p2 ++ rest)).
    apply take_app_length. }
  pose proof (readChunk_after_data env s1 _ csid _ cs3 Hframe Hd2
                ltac:(apply lookup_insert_eq)) as Ha2.
  destruct (readChunk env s1) as [[s2 evs2] res2].
  replace (msgdataleft cs3 =? 0) with true in Ha2
    by (symmetry; apply Z.eqb_eq; simpl; lia).
  destruct Ha2 as (Hc2 & Hm2 & Hb2 & _).
  simpl in Hc2, Hm2, Hb2. rewrite HD2 in Hc2.
  split; [exact Hc2|].
  split; [now rewrite Hm2, lookup_insert_eq|].
  rewrite Hb2, to_nat_len. apply drop_app_length.
Qed.

Lemma extended_timestamp_round_trip_witness :
  let self := roundTripSample 0xFFFFFFFF in
  let b := replicate 16 Byte.x00 in
  let hdr0 := wireHeader0 6 0xFFFFFFFF 8 1 3 in
  let hdr3 := wireHeader3 6 0xFFFFFFFF in
  (exists b0, fillChunk0Header b 6 0xFFFFFFFF 8 1 3 = Some (b0, len hdr0)
              /\ take (length hdr0) b0 = hdr0)
  /\ (exists b3, fillChunk3Header b 6 0xFFFFFFFF = Some (b3, len hdr3)
                 /\ take (length hdr3) b3 = hdr3)
  /\ take 3 (drop 1 hdr0) = bytesU24BE 0xffffff
  /\ drop 12 hdr0 = bytesU32BE 0xFFFFFFFF
  /\ drop 1 hdr3 = bytesU32BE 0xFFFFFFFF
  /\ match readChunk sampleEnv self with
     | (s1, evs1, Ok _) =>
         handlerCalls evs1 = []
         /\ (timenow <$> readcsmap s1 !! 6) = Some 0xFFFFFFFF
         /\ match readChunk sampleEnv s1 with
            | (s2, evs2, _) =>
                handlerCalls evs2 =
                  [EvHandler 8 0xFFFFFFFF 1 [Byte.xaa; Byte.xbb; Byte.xcc]]
                /\ (timenow <$> readcsmap s2 !! 6) = Some 0xFFFFFFFF
                /\ bufr s2 = []
            end
     | (_, evs1, Err e) => handlerCalls evs1 = [] /\ exists c, e = ErrWrite c
     | (_, _, Panic) => False
     end.
Proof.
  refine (extended_timestamp_round_trip sampleEnv (roundTripSample 0xFFFFFFFF)
            (replicate 16 Byte.x00) 6 0xFFFFFFFF 8 1
            [Byte.xaa; Byte.xbb] [Byte.xcc] []
            sampleEnv_frame _ _ _ _ _ eq_refl _ _ eq_refl eq_refl).
  all: vm_compute; intuition discriminate.
Defined.

(** The four timestamps around the 24-bit limit, each sent and read back
    in full: the handler receives the timestamp that was sent. *)
Example round_trip_four_timestamps :
  Forall (fun timestamp =>
            exists self',
              rtmpReadMsgCycle sampleEnv 3 (roundTripSample timestamp)
              = Some (self',
                      [EvHandler 8 timestamp 1 [Byte.xaa; Byte.xbb; Byte.xcc]],
                      Err ErrEOF))
    [0xFFFFFE; 0xFFFFFF; 0x01000000; 0xFFFFFFFF].
Proof. repeat constructor; eexists; vm_compute; reflexivity. Qed.

End HeaderRoundTrip.

(** * Further properties of the code *)

(** ** The registry: anchors do not interfere *)

Section RegistryMore.
Import Registry.

(** X1.  A push or a removal for one anchor changes the lookup of no other
    anchor, also of one that hashes to the same shard. *)
Theorem registry_other_anchor_kept
    (reg : list (gmap string Session)) (s : Session) (a : string) :
  wf reg -> a <> StreamAnchor s ->
  RtmpSessionGet a (RtmpSessionPush s reg).2 = RtmpSessionGet a reg
  /\ RtmpSessionGet a (RtmpSessionDel s reg) = RtmpSessionGet a reg.
Proof.
  intros Hwf Hne. split.
  - rewrite Get_Push by exact Hwf.
    destruct (RtmpSessionGet (StreamAnchor s) reg); [reflexivity|].
    now rewrite decide_False by congruence.
  - rewrite Get_Del by exact Hwf. now rewrite decide_False by congruence.
Qed.

Lemma registry_other_anchor_kept_witness :
  let s := mkSession "h/live/a" 0 0 false false ∅ 128 [] in
  let t := mkSession "h/live/b" 0 0 false false ∅ 128 [] in
  let reg := (RtmpSessionPush t init).2 in
  RtmpSessionGet "h/live/b" (RtmpSessionPush s reg).2 = RtmpSessionGet "h/live/b" reg
  /\ RtmpSessionGet "h/live/b" (RtmpSessionDel s reg) = RtmpSessionGet "h/live/b" reg.
Proof.
  intros s t reg.
  apply (registry_other_anchor_kept reg s "h/live/b").
  - reflexivity.
  - discriminate.
Defined.

Lemma shard_lookup (reg : list (gmap string Session)) (a : string) :
  wf reg -> reg !! Z.to_nat (index a) = Some (shard reg (index a)).
Proof.
  intros Hwf. unfold shard.
  pose proof (index_nat_lt a reg Hwf) as Hlt.
  destruct (reg !! Z.to_nat (index a)) eqn:E; [reflexivity|].
  apply lookup_ge_None in E. lia.
Qed.

(** X2.  Removing an anchor that is not registered leaves the whole array
    as it is, and removing the session a push has just registered gives
    back the array from before the push. *)
Theorem registry_del_restores
    (reg : list (gmap string Session)) (s : Session) :
  wf reg -> RtmpSessionGet (StreamAnchor s) reg = None ->
  RtmpSessionDel s reg = reg
  /\ RtmpSessionPush s reg = (true, (RtmpSessionPush s reg).2)
  /\ RtmpSessionDel s (RtmpSessionPush s reg).2 = reg.
Proof.
  intros Hwf Hnone. pose proof Hnone as Hn. rewrite Get_eq in Hn.
  assert (Hid : <[Z.to_nat (index (StreamAnchor s)) :=
                   shard reg (index (StreamAnchor s))]> reg = reg)
    by (apply list_insert_id, shard_lookup, Hwf).
  split; [|split].
  - unfold RtmpSessionDel. cbv zeta. now rewrite delete_id.
  - rewrite Push_result, Hnone. reflexivity.
  - unfold RtmpSessionDel, RtmpSessionPush. cbv zeta. rewrite Hn. simpl.
    unfold shard at 1. rewrite list_lookup_insert_eq by now apply index_nat_lt.
    simpl. rewrite list_insert_insert_eq.
    rewrite delete_insert_id by exact Hn. exact Hid.
Qed.

Lemma registry_del_restores_witness :
  let s := mkSession "h/live/a" 0 0 false false ∅ 128 [] in
  RtmpSessionDel s init = init
  /\ RtmpSessionPush s init = (true, (RtmpSessionPush s init).2)
  /\ RtmpSessionDel s (RtmpSessionPush s init).2 = init.
Proof.
  intros s. apply (registry_del_restores init s); reflexivity.
Defined.

End RegistryMore.

(** ** [readChunk] neither panics nor stalls *)

Section ReadChunkSafety.

Lemma readBasicHeader_count (r r' : list byte) (fmtTpye csid n : Z) :
  readBasicHeader r = (r', Ok (fmtTpye, csid, n)) -> 1 <= n <= 3.
Proof.
  destruct r as [|hb rest]; [discriminate|].
  rewrite readBasicHeader_cons.
  repeat case_match; intros [= <- <- <- <-] || discriminate; lia.
Qed.

Lemma readBasicHeader_no_panic (r r' : list byte) :
  readBasicHeader r <> (r', Panic).
Proof.
  destruct r as [|hb rest]; [discriminate|].
  rewrite readBasicHeader_cons. repeat case_match; discriminate.
Qed.

Lemma readMsgHeader_no_panic fmtTpye cs r cs' r' :
  readMsgHeader fmtTpye cs r <> (cs', r', Panic).
Proof.
  unfold readMsgHeader, readTimeExt.
  repeat case_match; simplify_eq; discriminate.
Qed.

Lemma readMsgHeader_count fmtTpye cs r cs' r' k :
  readMsgHeader fmtTpye cs r = (cs', r', Ok k) -> 0 <= k.
Proof.
  intros H. pose proof (readMsgHeader_consumes _ _ _ _ _ _ H) as Hc.
  unfold readMsgHeader, readTimeExt in H.
  repeat case_match; simplify_eq; lia.
Qed.

Lemma readPayload_count rmcs cs r cs' r' size :
  readPayload rmcs cs r = (cs', r', Ok size) -> 0 <= size.
Proof.
  unfold readPayload. cbv zeta.
  destruct (negb _) eqn:Eb; [discriminate|].
  apply negb_false_iff, andb_true_iff in Eb as [H1 _].
  apply Z.leb_le in H1.
  destruct (ReadFull r _) as [[got r1] [e|]]; [discriminate|].
  intros [= _ _ <-]. lia.
Qed.

Lemma readPayload_no_panic rmcs cs r cs' r' :
  cs_wf cs -> 0 <= rmcs -> readPayload rmcs cs r <> (cs', r', Panic).
Proof.
  intros (Hlen & Hleft & Hmax) Hr. unfold readPayload. cbv zeta.
  set (sz := if msgdataleft cs >? rmcs then rmcs else msgdataleft cs).
  assert (Hsz : 0 <= sz <= msgdataleft cs)
    by (unfold sz; destruct (Z.gtb_spec (msgdataleft cs) rmcs); lia).
  assert (Eo : u32 (msgdatalen cs - msgdataleft cs)
               = msgdatalen cs - msgdataleft cs)
    by (unfold u32; apply Z.mod_small; lia).
  rewrite Eo. unfold len in Hlen.
  replace (msgdatalen cs - msgdataleft cs <=? msgdatalen cs - msgdataleft cs + sz)
    with true by (symmetry; apply Z.leb_le; lia).
  replace (msgdatalen cs - msgdataleft cs + sz <=? Z.of_nat (length (msgdata cs)))
    with true by (symmetry; apply Z.leb_le; lia).
  simpl negb. cbv iota.
  destruct (ReadFull r (Z.to_nat sz)) as [[got r1] [e|]]; discriminate.
Qed.

(** A payload that is read leaves a well-formed chunk stream well formed. *)
Lemma readPayload_keeps_wf rmcs cs r cs' r' size :
  cs_wf cs -> 0 <= rmcs ->
  readPayload rmcs cs r = (cs', r', Ok size) -> cs_wf cs'.
Proof.
  intros Hwf Hr H.
  pose proof (readPayload_consumes _ _ _ _ _ _ H) as Hc.
  pose proof (readPayload_count _ _ _ _ _ _ H) as Hs.
  assert (Hsize : size = Z.min (msgdataleft cs) rmcs).
  { revert H. unfold readPayload. cbv zeta.
    destruct (negb _); [discriminate|].
    destruct (ReadFull r _) as [[got r1] [e|]]; [discriminate|].
    intros [= _ _ <-]. destruct (Z.gtb_spec (msgdataleft cs) rmcs); lia. }
  assert (Hfit : Z.min (msgdataleft cs) rmcs <= len r).
  { rewrite <- Hsize. pose proof (len_nonneg r'). lia. }
  rewrite (readPayload_spec rmcs cs r Hwf Hr Hfit) in H.
  injection H as <- _ _. now apply readPayload_wf.
Qed.

Lemma readChunkData_safe (self : Session) :
  session_wf self -> 0 <= readMaxChunkSize self ->
  match readChunkData self with
  | (s1, Ok (csid, n)) =>
      session_wf s1 /\ 1 <= n /\ is_Some (readcsmap s1 !! csid)
  | (_, Err _) => True
  | (_, Panic) => False
  end.
Proof.
  intros Hswf Hr. unfold readChunkData.
  destruct (readBasicHeader (bufr self)) as [r [[[f csid] n0]|e0|]] eqn:E0;
    [|exact I|now apply readBasicHeader_no_panic in E0].
  pose proof (readBasicHeader_count _ _ _ _ _ E0) as Hn0.
  assert (Hwf0 : cs_wf (default zeroChunkStream (readcsmap self !! csid))).
  { destruct (readcsmap self !! csid) as [c|] eqn:E; simpl;
      [eapply Hswf, E | apply zeroChunkStream_wf]. }
  destruct (readMsgHeader _ _ _) as [[cs1 r1] [k|e1|]] eqn:E1;
    [|exact I|now apply readMsgHeader_no_panic in E1].
  pose proof (readMsgHeader_count _ _ _ _ _ _ E1) as Hk.
  pose proof (readMsgHeader_wf _ _ _ _ _ _ Hwf0 E1) as Hwf1.
  destruct (readPayload _ _ _) as [[cs2 r2] [sz|e2|]] eqn:E2;
    [|exact I|now apply readPayload_no_panic in E2].
  pose proof (readPayload_count _ _ _ _ _ _ E2) as Hsz.
  pose proof (readPayload_keeps_wf _ _ _ _ _ _ Hwf1 Hr E2) as Hwf2.
  simpl. split; [|split; [lia|]].
  - intros j c. now apply (session_wf_insert self csid cs2 _ Hswf Hwf2 eq_refl).
  - rewrite lookup_insert_eq. eauto.
Qed.

Lemma readChunkData_progress (self s1 : Session) (csid n : Z) :
  readChunkData self = (s1, Ok (csid, n)) ->
  1 <= n /\ is_Some (readcsmap s1 !! csid).
Proof.
  unfold readChunkData.
  destruct (readBasicHeader (bufr self)) as [r [[[f c] n0]|e0|]] eqn:E0;
    try discriminate.
  destruct (readMsgHeader _ _ _) as [[cs1 r1] [k|e1|]] eqn:E1; try discriminate.
  destruct (readPayload _ _ _) as [[cs2 r2] [sz|e2|]] eqn:E2; try discriminate.
  intros [= <- <- <-]. simpl.
  apply readBasicHeader_count in E0. apply readMsgHeader_count in E1.
  apply readPayload_count in E2.
  split; [lia|]. rewrite lookup_insert_eq. eauto.
Qed.

(** Every chunk that is read takes at least one byte off the connection. *)
Lemma readChunk_progress (env : Env) (self self' : Session) evs u :
  env_frame env -> readChunk env self = (self', evs, Ok u) ->
  (length (bufr self') < length (bufr self))%nat.
Proof.
  intros Hframe H.
  destruct (readChunkData self) as [s1 [[csid n]|e|]] eqn:E;
    [|unfold readChunk in H; rewrite E in H; discriminate..].
  pose proof (readChunkData_progress _ _ _ _ E) as (Hn & cs2 & Hcs).
  pose proof (readChunkData_consumes _ _ _ _ E) as Hc.
  pose proof (readChunk_after_data env self s1 csid n cs2 Hframe E Hcs) as Ha.
  rewrite H in Ha. destruct Ha as (_ & _ & Hb & _).
  rewrite Hb. unfold len in Hc. lia.
Qed.

(** X3.  On a session whose chunk streams are well formed and whose chunk
    size is not negative, [readChunk] does not panic, whatever the
    connection delivers; when it returns nil the chunk streams are well
    formed again and at least one byte has been taken off the connection. *)
Theorem readChunk_safe (env : Env) (self : Session) :
  env_frame env -> session_wf self -> 0 <= readMaxChunkSize self ->
  match readChunk env self with
  | (self', _, Ok _) =>
      session_wf self' /\ len (bufr self') < len (bufr self)
  | (_, _, Err _) => True
  | (_, _, Panic) => False
  end.
Proof.
  intros Hframe Hswf Hr.
  pose proof (readChunkData_safe self Hswf Hr) as Hd.
  destruct (readChunkData self) as [s1 [[csid n]|e|]] eqn:E.
  - destruct Hd as (Hwf1 & Hn & cs2 & Hcs).
    pose proof (readChunk_after_data env self s1 csid n cs2 Hframe E Hcs) as Ha.
    pose proof (readChunk_progress env self) as Hp.
    destruct (readChunk env self) as [[s' evs] res].
    destruct Ha as (_ & Hm & Hb & _ & Hres).
    destruct res as [u|e|]; [|exact I|exact Hres].
    split.
    + intros j c. rewrite Hm. apply Hwf1.
    + specialize (Hp s' evs u Hframe eq_refl). unfold len. lia.
  - unfold readChunk. now rewrite E.
  - destruct Hd.
Qed.

Lemma readChunk_safe_witness :
  match readChunk sampleEnv reassemblySample with
  | (self', _, Ok _) =>
      session_wf self' /\ len (bufr self') < len (bufr reassemblySample)
  | (_, _, Err _) => True
  | (_, _, Panic) => False
  end.
Proof.
  refine (readChunk_safe sampleEnv reassemblySample sampleEnv_frame
            reassemblySample_wf _).
  simpl. lia.
Defined.

(** X4.  On a connection that delivers finitely many bytes both read loops
    end: [rtmpReadMsgCycle] with an error or a panic, never with nil, and
    [rtmpReadCmdMsgCycle] with nil only when the session has become
    publishing or playing.  One more turn than there are bytes is enough. *)
Theorem read_loops_end (env : Env) (fuel : nat) (self : Session) :
  env_frame env -> (length (bufr self) < fuel)%nat ->
  (exists self' evs res,
      rtmpReadMsgCycle env fuel self = Some (self', evs, res)
      /\ res <> Ok tt)
  /\ (exists self' evs res,
        rtmpReadCmdMsgCycle env fuel self = Some (self', evs, res)
        /\ match res with
           | Ok _ => publishing self' || playing self' = true
           | _ => True
           end).
Proof.
  intros Hframe. revert self.
  induction fuel as [|fuel IH]; intros self Hlen; [lia|].
  cbn [rtmpReadMsgCycle rtmpReadCmdMsgCycle].
  pose proof (readChunk_progress env self) as Hp.
  destruct (readChunk env self) as [[s1 evs1] [[]|e|]].
  - specialize (Hp s1 evs1 tt Hframe eq_refl).
    destruct (IH s1 ltac:(lia)) as [(s2 & evs2 & res2 & -> & Hne)
                                      (s3 & evs3 & res3 & -> & Hres)].
    split; [eauto 6|].
    destruct (publishing s1 || playing s1) eqn:Epp.
    + exists s1, evs1, (Ok tt). auto.
    + eauto 6.
  - split; exists s1, evs1, (Err e); split; auto; discriminate.
  - split; exists s1, evs1, Panic; split; auto; discriminate.
Qed.

Lemma read_loops_end_witness :
  (exists self' evs res,
      rtmpReadMsgCycle sampleEnv 20 twoChunks = Some (self', evs, res)
      /\ res <> Ok tt)
  /\ (exists self' evs res,
        rtmpReadCmdMsgCycle sampleEnv 20 twoChunks = Some (self', evs, res)
        /\ match res with
           | Ok _ => publishing self' || playing self' = true
           | _ => True
           end).
Proof.
  apply (read_loops_end sampleEnv 20 twoChunks sampleEnv_frame).
  simpl. lia.
Defined.

End ReadChunkSafety.

(** ** Messages that begin with a type 1 or a type 2 header *)

Section DeltaHeaders.

Lemma ReadFull_7 (b0 b1 b2 b3 b4 b5 b6 : byte) (r : list byte) :
  ReadFull (b0 :: b1 :: b2 :: b3 :: b4 :: b5 :: b6 :: r) 7
  = ([b0; b1; b2; b3; b4; b5; b6], r, None).
Proof. exact (ReadFull_app [b0; b1; b2; b3; b4; b5; b6] r). Qed.

Lemma readBasicHeader_wire (f csid : Z) (tail : list byte) :
  0 <= f <= 3 -> 2 <= csid <= 63 ->
  readBasicHeader (Z_to_byte (csid + 64 * f) :: tail) = (tail, Ok (f, csid, 1)).
Proof.
  intros Hf H. rewrite readBasicHeader_cons, byte_to_Z_to_byte.
  rewrite (Z.mod_small (csid + 64 * f) 256) by lia.
  replace ((csid + 64 * f) mod 64) with csid
    by (apply (Z.mod_unique_pos _ _ f); lia).
  replace ((csid + 64 * f) / 64) with f
    by (apply (Z.div_unique_pos _ _ _ csid); lia).
  destruct (Z.eqb_spec csid 0); [lia|]. destruct (Z.eqb_spec csid 1); [lia|].
  reflexivity.
Qed.

(** The timestamp field and what follows it, read back. *)
Lemma readTimeExt_wire (v : Z) (cs : chunkStream) (tail : list byte) :
  0 <= v < 2 ^ 32 ->
  readTimeExt (if v <? 0xffffff then v else 0xffffff) cs (extBytes v ++ tail)
  = (set_hastimeext (v >=? 0xffffff) cs, tail, Ok (v, len (extBytes v))).
Proof.
  intros Hv. unfold readTimeExt, extBytes.
  destruct (Z.ltb_spec v 0xffffff) as [Hlt|Hge].
  - replace (v =? 0xffffff) with false by (symmetry; apply Z.eqb_neq; lia).
    replace (v >=? 0xffffff) with false
      by (symmetry; rewrite Z.geb_leb; apply Z.leb_gt; lia).
    reflexivity.
  - replace (v >=? 0xffffff) with true
      by (symmetry; rewrite Z.geb_leb; apply Z.leb_le; lia).
    simpl (0xffffff =? 0xffffff). cbv iota.
    unfold bytesU32BE at 1. cbn [app]. rewrite ReadFull_4.
    match goal with |- context [U32BE ?l] =>
      change (U32BE l) with (U32BE (bytesU32BE v ++ [])) end.
    rewrite bytesU32BE_U32BE by lia. reflexivity.
Qed.

Lemma timestamp_field_range (v : Z) :
  0 <= v < 2 ^ 32 -> 0 <= (if v <? 0xffffff then v else 0xffffff) < 2 ^ 24.
Proof. intros H. destruct (Z.ltb_spec v 0xffffff); lia. Qed.

Lemma readMsgHeader_wire1 (cs : chunkStream) (tail : list byte)
    (delta msgtypeid msgdatalen : Z) :
  msgdataleft cs = 0 ->
  0 <= delta < 2 ^ 32 -> 0 <= msgtypeid < 256 -> 0 <= msgdatalen < 2 ^ 24 ->
  readMsgHeader 1 cs
    (bytesU24BE (if delta <? 0xffffff then delta else 0xffffff)
     ++ bytesU24BE msgdatalen ++ [Z_to_byte msgtypeid]
     ++ extBytes delta ++ tail)
  = (Start (mkChunkStream (u32 (timenow cs + delta)) delta
              (delta >=? 0xffffff) (msgsid cs) msgtypeid msgdatalen
              (msgdataleft cs) 1 (msgdata cs)),
     tail, Ok (7 + len (extBytes delta))).
Proof.
  intros Hleft Hd Hty Hlen.
  unfold readMsgHeader. rewrite Hleft. simpl negb. cbv iota.
  unfold bytesU24BE at 1 2. cbn [app].
  rewrite ReadFull_7. cbv zeta. cbn [take drop firstn skipn].
  change (at_ _ 6) with (byte_to_Z (Z_to_byte msgtypeid)).
  rewrite byte_to_Z_to_byte, (Z.mod_small msgtypeid) by lia.
  match goal with |- context [set_msgdatalen (U24BE ?l)] =>
    change (U24BE l) with (U24BE (bytesU24BE msgdatalen ++ [])) end.
  rewrite bytesU24BE_U24BE by lia.
  match goal with |- context [readTimeExt (U24BE ?l)] =>
    change (U24BE l)
      with (U24BE (bytesU24BE (if delta <? 0xffffff then delta
                               else 0xffffff) ++ [])) end.
  rewrite bytesU24BE_U24BE by now apply timestamp_field_range.
  rewrite readTimeExt_wire by exact Hd. reflexivity.
Qed.

Lemma readMsgHeader_wire2 (cs : chunkStream) (tail : list byte) (delta : Z) :
  msgdataleft cs = 0 -> 0 <= delta < 2 ^ 32 ->
  readMsgHeader 2 cs
    (bytesU24BE (if delta <? 0xffffff then delta else 0xffffff)
     ++ extBytes delta ++ tail)
  = (Start (mkChunkStream (u32 (timenow cs + delta)) delta
              (delta >=? 0xffffff) (msgsid cs) (msgtypeid cs) (msgdatalen cs)
              (msgdataleft cs) 2 (msgdata cs)),
     tail, Ok (3 + len (extBytes delta))).
Proof.
  intros Hleft Hd.
  unfold readMsgHeader. rewrite Hleft. simpl negb. cbv iota.
  unfold bytesU24BE at 1. cbn [app].
  rewrite ReadFull_3. cbv zeta. cbn [take drop firstn skipn].
  match goal with |- context [readTimeExt (U24BE ?l)] =>
    change (U24BE l)
      with (U24BE (bytesU24BE (if delta <? 0xffffff then delta
                               else 0xffffff) ++ [])) end.
  rewrite bytesU24BE_U24BE by now apply timestamp_field_range.
  rewrite readTimeExt_wire by exact Hd. reflexivity.
Qed.

(** A chunk that brings the last bytes of its message. *)
Lemma readChunk_completes (env : Env) (self : Session) (r0 : list byte)
    (fmtTpye csid n0 k : Z) (cs1 : chunkStream) (payload rest : list byte) :
  env_frame env ->
  readBasicHeader (bufr self) = (r0, Ok (fmtTpye, csid, n0)) ->
  readMsgHeader fmtTpye (default zeroChunkStream (readcsmap self !! csid)) r0
    = (cs1, payload ++ rest, Ok k) ->
  cs_wf cs1 -> msgdataleft cs1 = len payload ->
  len payload <= readMaxChunkSize self ->
  match readChunk env self with
  | (self', evs, _) =>
      handlerCalls evs =
        match hands env (msgtypeid cs1) with
        | Some _ =>
            [EvHandler (msgtypeid cs1) (timenow cs1) (msgsid cs1)
               (take (Z.to_nat (msgdatalen cs1 - len payload)) (msgdata cs1)
                ++ payload)]
        | None => []
        end
      /\ bufr self' = rest
      /\ (timenow <$> readcsmap self' !! csid) = Some (timenow cs1)
  end.
Proof.
  intros Hframe E1 E2 Hwf1 Hleft Hfit.
  pose proof (len_nonneg payload) as Hpn.
  assert (Hsz : Z.min (msgdataleft cs1) (readMaxChunkSize self) = len payload)
    by lia.
  assert (Hd := readChunkData_ok self _ _ _ _ _ _ cs1 E1 E2 Hwf1 ltac:(lia)).
  cbv zeta in Hd. rewrite Hsz, Hleft in Hd.
  specialize (Hd ltac:(rewrite len_app; pose proof (len_nonneg rest); lia)).
  rewrite to_nat_len, take_app_length, drop_app_length in Hd.
  rewrite (drop_ge (msgdata cs1)) in Hd
    by (destruct Hwf1 as (Hl & _); unfold len in *; lia).
  rewrite app_nil_r in Hd.
  match type of Hd with context [<[csid := ?c]> _] =>
    pose proof (readChunk_after_data env self _ csid _ c Hframe Hd
                  ltac:(apply lookup_insert_eq)) as Ha end.
  destruct (readChunk env self) as [[s' evs] res].
  simpl in Ha. rewrite Z.sub_diag in Ha. simpl in Ha.
  destruct Ha as (Hc & Hm & Hb & _).
  split; [exact Hc|]. split; [exact Hb|].
  now rewrite Hm, lookup_insert_eq.
Qed.

(** A chunk of the full chunk size that leaves bytes of its message to
    come. *)
Lemma readChunk_partial (env : Env) (self : Session) (r0 : list byte)
    (fmtTpye csid n0 k : Z) (cs1 : chunkStream) (p tail : list byte) :
  env_frame env ->
  readBasicHeader (bufr self) = (r0, Ok (fmtTpye, csid, n0)) ->
  readMsgHeader fmtTpye (default zeroChunkStream (readcsmap self !! csid)) r0
    = (cs1, p ++ tail, Ok k) ->
  cs_wf cs1 -> len p = readMaxChunkSize self ->
  readMaxChunkSize self < msgdataleft cs1 ->
  match readChunk env self with
  | (self', evs, res) =>
      handlerCalls evs = []
      /\ readcsmap self' =
           <[csid := set_msgdataleft (msgdataleft cs1 - len p)
                       (set_msgdata
                          (take (Z.to_nat (msgdatalen cs1 - msgdataleft cs1))
                             (msgdata cs1)
                           ++ p
                           ++ drop (Z.to_nat (msgdatalen cs1 - msgdataleft cs1
                                              + len p)) (msgdata cs1)) cs1)]>
             (readcsmap self)
      /\ bufr self' = tail
      /\ readMaxChunkSize self' = readMaxChunkSize self
      /\ match res with
         | Ok _ => True
         | Err e => exists c, e = ErrWrite c
         | Panic => False
         end
  end.
Proof.
  intros Hframe E1 E2 Hwf1 Hp Hmore.
  pose proof (len_nonneg p) as Hpn.
  assert (Hsz : Z.min (msgdataleft cs1) (readMaxChunkSize self) = len p) by lia.
  assert (Hd := readChunkData_ok self _ _ _ _ _ _ cs1 E1 E2 Hwf1 ltac:(lia)).
  cbv zeta in Hd. rewrite Hsz in Hd.
  specialize (Hd ltac:(rewrite len_app; pose proof (len_nonneg tail); lia)).
  rewrite to_nat_len, take_app_length, drop_app_length in Hd.
  match type of Hd with context [<[csid := ?c]> _] =>
    pose proof (readChunk_after_data env self _ csid _ c Hframe Hd
                  ltac:(apply lookup_insert_eq)) as Ha end.
  destruct (readChunk env self) as [[s' evs] res].
  simpl in Ha.
  replace (msgdataleft cs1 - len p =? 0) with false in Ha
    by (symmetry; apply Z.eqb_neq; lia).
  exact Ha.
Qed.

(** X5.  A message that arrives in one chunk with a type 1 header: the
    handler for its type gets the timestamp of the chunk stream advanced by
    the delta (modulo 2^32, the delta in the extended form when it does not
    fit 24 bits), the message stream id the chunk stream had before, and the
    payload. *)
Theorem readChunk_type1_message
    (env : Env) (self : Session) (csid delta msgtypeid : Z)
    (payload rest : list byte) :
  env_frame env ->
  2 <= csid <= 63 -> 0 <= delta < 2 ^ 32 -> 0 <= msgtypeid < 256 ->
  len payload < 2 ^ 24 -> len payload <= readMaxChunkSize self ->
  let cs := default zeroChunkStream (readcsmap self !! csid) in
  msgdataleft cs = 0 ->
  bufr self = wireHeader1 csid delta msgtypeid (len payload) ++ payload ++ rest ->
  match readChunk env self with
  | (self', evs, _) =>
      handlerCalls evs =
        match hands env msgtypeid with
        | Some _ => [EvHandler msgtypeid (u32 (timenow cs + delta)) (msgsid cs)
                       payload]
        | None => []
        end
      /\ bufr self' = rest
      /\ (timenow <$> readcsmap self' !! csid) = Some (u32 (timenow cs + delta))
  end.
Proof.
  intros Hframe Hcsid Hd Hty Hlen Hfit cs Hleft Hbufr.
  pose proof (len_nonneg payload) as Hpn.
  assert (E1 : readBasicHeader (bufr self)
               = (bytesU24BE (if delta <? 0xffffff then delta else 0xffffff)
                  ++ bytesU24BE (len payload) ++ [Z_to_byte msgtypeid]
                  ++ extBytes delta ++ payload ++ rest, Ok (1, csid, 1))).
  { rewrite Hbufr. unfold wireHeader1.
    rewrite <- app_comm_cons, <- !app_assoc.
    change (csid + 0x40) with (csid + 64 * 1).
    now apply readBasicHeader_wire. }
  assert (E2 := readMsgHeader_wire1 cs (payload ++ rest) delta msgtypeid
                  (len payload) Hleft Hd Hty ltac:(lia)).
  match type of E2 with _ = (?c, _, _) => set (cs1 := c) in * end.
  assert (Hwf1 : cs_wf cs1) by (apply Start_wf; simpl; lia).
  pose proof (readChunk_completes env self _ _ _ _ _ cs1 payload rest
                Hframe E1 E2 Hwf1 eq_refl Hfit) as H.
  destruct (readChunk env self) as [[s' evs] res].
  simpl in H. rewrite Z.sub_diag in H. simpl in H. exact H.
Qed.

Lemma readChunk_type1_message_witness :
  let self :=
    set_readcsmap {[ 3 := mkChunkStream 1000 0 false 1 8 6 0 0
                            (replicate 6 Byte.x00) ]}
      (NewSesion (wireHeader1 3 40 8 2 ++ [Byte.xaa; Byte.xbb] ++ [])) in
  match readChunk sampleEnv self with
  | (self', evs, _) =>
      handlerCalls evs = [EvHandler 8 1040 1 [Byte.xaa; Byte.xbb]]
      /\ bufr self' = []
      /\ (timenow <$> readcsmap self' !! 3) = Some 1040
  end.
Proof.
  intros self.
  refine (readChunk_type1_message sampleEnv self 3 40 8
            [Byte.xaa; Byte.xbb] [] sampleEnv_frame _ _ _ _ _ eq_refl eq_refl).
  all: vm_compute; intuition discriminate.
Defined.

(** X6.  A message that arrives in one chunk with a type 2 header has the
    length, the type and the message stream id of the message before it on
    the chunk stream, and the timestamp advanced by the delta. *)
Theorem readChunk_type2_message
    (env : Env) (self : Session) (csid delta : Z) (cs : chunkStream)
    (payload rest : list byte) :
  env_frame env ->
  2 <= csid <= 63 -> 0 <= delta < 2 ^ 32 ->
  readcsmap self !! csid = Some cs ->
  msgdataleft cs = 0 -> msgdatalen cs = len payload -> len payload < 2 ^ 32 ->
  len payload <= readMaxChunkSize self ->
  bufr self = wireHeader2 csid delta ++ payload ++ rest ->
  match readChunk env self with
  | (self', evs, _) =>
      handlerCalls evs =
        match hands env (msgtypeid cs) with
        | Some _ => [EvHandler (msgtypeid cs) (u32 (timenow cs + delta))
                       (msgsid cs) payload]
        | None => []
        end
      /\ bufr self' = rest
      /\ (timenow <$> readcsmap self' !! csid) = Some (u32 (timenow cs + delta))
  end.
Proof.
  intros Hframe Hcsid Hd Hcs Hleft Hlen Hmax Hfit Hbufr.
  pose proof (len_nonneg payload) as Hpn.
  assert (E1 : readBasicHeader (bufr self)
               = (bytesU24BE (if delta <? 0xffffff then delta else 0xffffff)
                  ++ extBytes delta ++ payload ++ rest, Ok (2, csid, 1))).
  { rewrite Hbufr. unfold wireHeader2.
    rewrite <- app_comm_cons, <- !app_assoc.
    change (csid + 0x80) with (csid + 64 * 2).
    now apply readBasicHeader_wire. }
  assert (E2 := readMsgHeader_wire2 cs (payload ++ rest) delta Hleft Hd).
  match type of E2 with _ = (?c, _, _) => set (cs1 := c) in * end.
  assert (Hwf1 : cs_wf cs1) by (apply Start_wf; simpl; lia).
  assert (Hdef : default zeroChunkStream (readcsmap self !! csid) = cs)
    by now rewrite Hcs.
  rewrite <- Hdef in E2 at 1.
  pose proof (readChunk_completes env self _ _ _ _ _ cs1 payload rest
                Hframe E1 E2 Hwf1 Hlen Hfit) as H.
  destruct (readChunk env self) as [[s' evs] res].
  simpl in H. rewrite Hlen, Z.sub_diag in H. simpl in H. exact H.
Qed.

Lemma readChunk_type2_message_witness :
  let cs := mkChunkStream 1000 0 false 1 8 2 0 0 (replicate 2 Byte.x00) in
  let self :=
    set_readcsmap {[ 3 := cs ]}
      (NewSesion (wireHeader2 3 40 ++ [Byte.xaa; Byte.xbb] ++ [])) in
  match readChunk sampleEnv self with
  | (self', evs, _) =>
      handlerCalls evs = [EvHandler 8 1040 1 [Byte.xaa; Byte.xbb]]
      /\ bufr self' = []
      /\ (timenow <$> readcsmap self' !! 3) = Some 1040
  end.
Proof.
  intros cs self.
  refine (readChunk_type2_message sampleEnv self 3 40 cs
            [Byte.xaa; Byte.xbb] [] sampleEnv_frame _ _ eq_refl eq_refl eq_refl
            _ _ eq_refl).
  all: vm_compute; intuition discriminate.
Defined.

Lemma readMsgHeader_wire3_delta (cs : chunkStream) (tail : list byte) :
  msghdrtype cs = 1 \/ msghdrtype cs = 2 -> msgdataleft cs <> 0 ->
  0 <= timedelta cs < 2 ^ 32 ->
  hastimeext cs = (timedelta cs >=? 0xffffff) ->
  readMsgHeader 3 cs (extBytes (timedelta cs) ++ tail)
  = (set_timenow (u32 (timenow cs + timedelta cs)) cs, tail,
     Ok (len (extBytes (timedelta cs)))).
Proof.
  intros Hty Hleft Hd Hext. unfold readMsgHeader, extBytes.
  rewrite Hext. change EXTTIME with true.
  apply Z.eqb_neq in Hleft.
  destruct (timedelta cs >=? 0xffffff); simpl andb; cbv iota;
    destruct Hty as [-> | ->].
  1,2: unfold bytesU32BE at 1; cbn [app]; rewrite ReadFull_4;
       match goal with |- context [U32BE ?l] =>
         change (U32BE l) with (U32BE (bytesU32BE (timedelta cs) ++ [])) end;
       rewrite bytesU32BE_U32BE by lia; simpl msgdataleft;
       now rewrite Hleft.
  all: simpl msgdataleft; now rewrite Hleft.
Qed.

(** X7.  A message that begins with a type 1 header and is continued by a
    type 3 chunk: the continuation adds the delta to the timestamp of the
    chunk stream once more, so the handler gets the timestamp from before
    the message advanced by twice the delta. *)
Theorem readChunk_type1_continuation_adds_delta
    (env : Env) (self : Session) (csid delta msgtypeid : Z)
    (p1 p2 rest : list byte) :
  env_frame env ->
  2 <= csid <= 63 -> 0 <= delta < 2 ^ 32 -> 0 <= msgtypeid < 256 ->
  len p1 = readMaxChunkSize self -> 0 < len p2 <= readMaxChunkSize self ->
  len p1 + len p2 < 2 ^ 24 ->
  let cs := default zeroChunkStream (readcsmap self !! csid) in
  msgdataleft cs = 0 ->
  bufr self = wireHeader1 csid delta msgtypeid (len p1 + len p2) ++ p1
              ++ wireHeader3 csid delta ++ p2 ++ rest ->
  match readChunk env self with
  | (s1, evs1, Ok _) =>
      handlerCalls evs1 = []
      /\ match readChunk env s1 with
         | (s2, evs2, _) =>
             handlerCalls evs2 =
               match hands env msgtypeid with
               | Some _ =>
                   [EvHandler msgtypeid
                      (u32 (u32 (timenow cs + delta) + delta)) (msgsid cs)
                      (p1 ++ p2)]
               | None => []
               end
             /\ bufr s2 = rest
         end
  | (_, _, Err e) => exists c, e = ErrWrite c
  | (_, _, Panic) => False
  end.
Proof.
  intros Hframe Hcsid Hd Hty Hp1 Hp2 Hlen cs Hleft Hbufr.
  pose proof (len_nonneg p1) as Hp1n.
  set (L := len p1 + len p2) in *.
  set (tail1 := wireHeader3 csid delta ++ p2 ++ rest) in *.
  assert (E1 : readBasicHeader (bufr self)
               = (bytesU24BE (if delta <? 0xffffff then delta else 0xffffff)
                  ++ bytesU24BE L ++ [Z_to_byte msgtypeid]
                  ++ extBytes delta ++ p1 ++ tail1, Ok (1, csid, 1))).
  { rewrite Hbufr. unfold wireHeader1.
    rewrite <- app_comm_cons, <- !app_assoc.
    change (csid + 0x40) with (csid + 64 * 1).
    now apply readBasicHeader_wire. }
  assert (E2 := readMsgHeader_wire1 cs (p1 ++ tail1) delta msgtypeid L
                  Hleft Hd Hty ltac:(unfold L; lia)).
  match type of E2 with _ = (?c, _, _) => set (cs1 := c) in * end.
  assert (Hwf1 : cs_wf cs1) by (apply Start_wf; simpl; unfold L; lia).
  pose proof (readChunk_partial env self _ _ _ _ _ cs1 p1 tail1
                Hframe E1 E2 Hwf1 Hp1 ltac:(simpl; unfold L; lia)) as Ha.
  match type of Ha with context [<[csid := ?c]> _] => set (cs2 := c) in * end.
  assert (Hwf2 : cs_wf cs2).
  { pose proof (readPayload_wf (readMaxChunkSize self) cs1 (p1 ++ tail1) Hwf1
                  ltac:(lia)) as H.
    cbv zeta in H.
    replace (Z.min (msgdataleft cs1) (readMaxChunkSize self)) with (len p1) in H
      by (simpl; unfold L; lia).
    rewrite to_nat_len, take_app_length in H. apply H.
    rewrite len_app. pose proof (len_nonneg tail1). lia. }
  destruct (readChunk env self) as [[s1 evs1] res1].
  destruct Ha as (Hc1 & Hm1 & Hb1 & Hr1 & Hres1).
  destruct res1 as [[]|e|]; [|exact Hres1..].
  split; [exact Hc1|].
  assert (F1 : readBasicHeader (bufr s1)
               = (extBytes delta ++ p2 ++ rest, Ok (3, csid, 1))).
  { rewrite Hb1. unfold tail1, wireHeader3. rewrite <- app_comm_cons.
    now apply readBasicHeader_wire3. }
  assert (Hcs2 : default zeroChunkStream (readcsmap s1 !! csid) = cs2)
    by now rewrite Hm1, lookup_insert_eq.
  assert (F2 : readMsgHeader 3 (default zeroChunkStream (readcsmap s1 !! csid))
                 (extBytes delta ++ p2 ++ rest)
               = (set_timenow (u32 (timenow cs2 + delta)) cs2, p2 ++ rest,
                  Ok (len (extBytes delta)))).
  { rewrite Hcs2.
    exact (readMsgHeader_wire3_delta cs2 (p2 ++ rest) (or_introl eq_refl)
             ltac:(simpl; unfold L; lia) Hd eq_refl). }
  set (cs3 := set_timenow (u32 (timenow cs2 + delta)) cs2) in *.
  assert (Hwf3 : cs_wf cs3) by exact Hwf2.
  pose proof (readChunk_completes env s1 _ _ _ _ _ cs3 p2 rest
                Hframe F1 F2 Hwf3 ltac:(simpl; unfold L; lia)
                ltac:(rewrite Hr1; lia)) as Hb.
  destruct (readChunk env s1) as [[s2 evs2] res2].
  destruct Hb as (Hc2 & Hb2 & _). split; [|exact Hb2].
  rewrite Hc2. unfold cs3, cs2, cs1, Start. rename msgtypeid into ty.
  cbn [msgtypeid timenow msgsid msgdatalen msgdataleft msgdata
       set_timenow set_msgdataleft set_msgdata].
  destruct (hands env ty); [|reflexivity].
  do 2 f_equal.
  rewrite Z.sub_diag. change (Z.to_nat 0) with 0%nat. rewrite take_0.
  cbn [app].
  replace (L - len p2) with (len p1) by (unfold L; lia).
  rewrite to_nat_len. now rewrite take_app_length.
Qed.

Lemma readChunk_type1_continuation_adds_delta_witness :
  let self :=
    set_readMaxChunkSize 2
      (set_readcsmap {[ 3 := mkChunkStream 1000 0 false 1 8 6 0 0
                              (replicate 6 Byte.x00) ]}
         (NewSesion (wireHeader1 3 40 8 3 ++ [Byte.xaa; Byte.xbb]
                     ++ wireHeader3 3 40 ++ [Byte.xcc] ++ []))) in
  match readChunk sampleEnv self with
  | (s1, evs1, Ok _) =>
      handlerCalls evs1 = []
      /\ match readChunk sampleEnv s1 with
         | (s2, evs2, _) =>
             handlerCalls evs2 =
               [EvHandler 8 1080 1 [Byte.xaa; Byte.xbb; Byte.xcc]]
             /\ bufr s2 = []
         end
  | (_, _, Err e) => exists c, e = ErrWrite c
  | (_, _, Panic) => False
  end.
Proof.
  intros self.
  refine (readChunk_type1_continuation_adds_delta sampleEnv self 3 40 8
            [Byte.xaa; Byte.xbb] [Byte.xcc] [] sampleEnv_frame
            _ _ _ eq_refl _ _ eq_refl eq_refl).
  all: vm_compute; intuition discriminate.
Defined.

End DeltaHeaders.

(** ** The header writers and the buffer they are given *)

Section HeaderWriterBounds.

Lemma store_None (b : list byte) (i : Z) (v : byte) :
  len b <= i -> store b i v = None.
Proof.
  intros H. unfold store, len in *.
  replace (i <? Z.of_nat (length b)) with false
    by (symmetry; apply Z.ltb_ge; lia).
  now rewrite andb_false_r.
Qed.

Lemma put_None (b : list byte) (off : Z) (bs : list byte) :
  len b < off + len bs -> put b off bs = None.
Proof.
  intros H. unfold put, len in *.
  replace (off + Z.of_nat (length bs) <=? Z.of_nat (length b)) with false
    by (symmetry; apply Z.leb_gt; lia).
  now rewrite andb_false_r.
Qed.

Local Arguments Z_to_byte : simpl never.
Local Arguments Z.shiftr : simpl never.
Local Arguments Z.land : simpl never.
Local Arguments Z.lor : simpl never.
Local Arguments Z.modulo : simpl never.
Local Arguments Z.mul : simpl never.
Local Arguments Z.add : simpl never.
Local Arguments Z.of_nat : simpl never.

Ltac solve_len := unfold len; simpl length; lia.

Ltac write_step :=
  first [ rewrite store_eq by solve_len
        | rewrite put_eq by solve_len
        | rewrite store_None by solve_len
        | rewrite put_None by solve_len ];
  cbn [mbind option_bind]; simpl.

Ltac peel b :=
  destruct b as [|? b];
  [ repeat write_step; try (split; [|split; [|split]]);
    first [ solve_len | reflexivity ] | ].

(** X8.  [fillChunk0Header] needs 12 bytes of buffer, 16 when the timestamp
    is [0xFFFFFF] or more, and [fillChunk3Header] needs 1, respectively 5:
    on a shorter buffer they panic, on any other they return that count,
    keep the length of the buffer and leave the bytes past the count as
    they were. *)
Theorem header_writers_bounds
    (b : list byte) (csid timestamp msgtypeid msgsid msgdatalen : Z) :
  let ext := if timestamp >=? 0xffffff then 4 else 0 in
  match fillChunk0Header b csid timestamp msgtypeid msgsid msgdatalen with
  | Some (b', n) =>
      12 + ext <= len b /\ n = 12 + ext /\ length b' = length b
      /\ drop (Z.to_nat n) b' = drop (Z.to_nat n) b
  | None => len b < 12 + ext
  end
  /\ match fillChunk3Header b csid timestamp with
     | Some (b', n) =>
         1 + ext <= len b /\ n = 1 + ext /\ length b' = length b
         /\ drop (Z.to_nat n) b' = drop (Z.to_nat n) b
     | None => len b < 1 + ext
     end.
Proof.
  cbv zeta. split.
  - unfold fillChunk0Header. cbv zeta.
    destruct (Z.ltb_spec timestamp 0xffffff) as [Hlt|Hge].
    + replace (timestamp >=? 0xffffff) with false
        by (symmetry; rewrite Z.geb_leb; apply Z.leb_gt; lia).
      do 12 peel b.
      repeat write_step. repeat split; solve_len.
    + replace (timestamp >=? 0xffffff) with true
        by (symmetry; rewrite Z.geb_leb; apply Z.leb_le; lia).
      do 16 peel b.
      repeat write_step. repeat split; solve_len.
  - unfold fillChunk3Header. cbv zeta.
    destruct (timestamp >=? 0xffffff).
    + do 5 peel b. repeat write_step. repeat split; solve_len.
    + do 1 peel b. repeat write_step. repeat split; solve_len.
Qed.

End HeaderWriterBounds.

(** ** Splitting a buffer into NAL units *)

Section SplitUnits.
Import NALU.

Lemma U32BE_range (b : list byte) : 0 <= U32BE b < 2 ^ 32.
Proof.
  unfold U32BE.
  pose proof (at_range b 0). pose proof (at_range b 1).
  pose proof (at_range b 2). pose proof (at_range b 3).
  rewrite !Z.shiftl_mul_pow2 by lia.
  rewrite (lor_add (at_ b 0 * 2 ^ 24) (at_ b 1 * 2 ^ 16) 24);
    [|lia|now rewrite Z.mod_mul by lia|lia].
  rewrite (lor_add (at_ b 0 * 2 ^ 24 + at_ b 1 * 2 ^ 16) (at_ b 2 * 2 ^ 8) 16);
    [|lia| |lia].
  2:{ replace (at_ b 0 * 2 ^ 24 + at_ b 1 * 2 ^ 16)
        with ((at_ b 0 * 2 ^ 8 + at_ b 1) * 2 ^ 16) by lia.
      now rewrite Z.mod_mul by lia. }
  rewrite (lor_add _ _ 8); [lia|lia| |lia].
  replace (at_ b 0 * 2 ^ 24 + at_ b 1 * 2 ^ 16 + at_ b 2 * 2 ^ 8)
    with ((at_ b 0 * 2 ^ 16 + at_ b 1 * 2 ^ 8 + at_ b 2) * 2 ^ 8) by lia.
  now rewrite Z.mod_mul by lia.
Qed.

Lemma Z_to_byte_mod (v w : Z) : v mod 256 = w mod 256 -> Z_to_byte v = Z_to_byte w.
Proof. unfold Z_to_byte. now intros ->. Qed.

Lemma Z_to_byte_of (x : byte) (v : Z) :
  v mod 256 = byte_to_Z x -> Z_to_byte v = x.
Proof.
  intros H. rewrite <- (Z_to_byte_to_Z x). apply Z_to_byte_mod.
  rewrite H. symmetry. apply Z.mod_small, byte_to_Z_range.
Qed.

(** The four bytes a length was read from are the bytes that encode it. *)
Lemma bytesU32BE_of_U32BE (b0 b1 b2 b3 : byte) (l : list byte) :
  bytesU32BE (U32BE (b0 :: b1 :: b2 :: b3 :: l)) = [b0; b1; b2; b3].
Proof.
  rewrite U32BE_eq. unfold bytesU32BE.
  pose proof (byte_to_Z_range b0). pose proof (byte_to_Z_range b1).
  pose proof (byte_to_Z_range b2). pose proof (byte_to_Z_range b3).
  rewrite !Z.shiftr_div_pow2 by lia.
  change (2 ^ 24) with 16777216. change (2 ^ 16) with 65536.
  change (2 ^ 8) with 256.
  repeat f_equal; apply Z_to_byte_of; Z.div_mod_to_equations; lia.
Qed.

Lemma len_bytesU32BE (v : Z) : len (bytesU32BE v) = 4.
Proof. reflexivity. Qed.

Lemma avcc_cons (n : list byte) (l : list (list byte)) :
  avcc (n :: l) = bytesU32BE (len n) ++ n ++ avcc l.
Proof.
  unfold avcc. cbn [map concat]. unfold avccFrame at 1.
  now rewrite <- app_assoc.
Qed.

Lemma length_avcc (l : list (list byte)) : (length l <= length (avcc l))%nat.
Proof.
  induction l as [|n l IH]; [simpl; lia|].
  rewrite avcc_cons, !length_app. simpl. lia.
Qed.

Ltac lens :=
  unfold u32, len in *; repeat rewrite length_app in *;
  change (length (bytesU32BE _)) with 4%nat in *;
  try rewrite Z.mod_small; lia.

Lemma avccLoop_frames (rest : list (list byte)) :
  forall (n1 : list byte) (acc : list (list byte)) (fuel : nat),
    (length rest < fuel)%nat -> len (n1 ++ avcc rest) < 2 ^ 32 ->
    avccLoop fuel (n1 ++ avcc rest) (len n1) acc
    = Returns (acc ++ n1 :: rest, []).
Proof.
  induction rest as [|n2 rest IH]; intros n1 acc fuel Hfuel Hlen;
    (destruct fuel as [|fuel]; [simpl in Hfuel; lia|]);
    cbn [avccLoop].
  - change (avcc []) with (@nil byte) in *. rewrite app_nil_r.
    replace (len n1 >? len n1) with false
      by (symmetry; rewrite Z.gtb_ltb; apply Z.ltb_ge; lia).
    rewrite to_nat_len, take_ge, drop_ge by lia. reflexivity.
  - rewrite avcc_cons in *.
    replace (len n1 >? len (n1 ++ bytesU32BE (len n2) ++ n2 ++ avcc rest))
      with false
      by (symmetry; rewrite Z.gtb_ltb; apply Z.ltb_ge; lens).
    rewrite to_nat_len, take_app_length, drop_app_length.
    replace (len (bytesU32BE (len n2) ++ n2 ++ avcc rest) <? 4) with false
      by (symmetry; apply Z.ltb_ge; lens).
    rewrite bytesU32BE_U32BE by lens.
    change 4%nat with (length (bytesU32BE (len n2))).
    rewrite drop_app_length.
    replace (len n2 >? u32 (len (n2 ++ avcc rest))) with false
      by (symmetry; rewrite Z.gtb_ltb; apply Z.ltb_ge; lens).
    rewrite IH by (simpl in Hfuel; lens).
    now rewrite <- app_assoc.
Qed.

(** X9.  A buffer that is a sequence of units, each behind its length in
    four bytes big-endian, is split into exactly these units and reported
    as AVCC. *)
Theorem SplitNALUs_avcc_round_trip (nalus : list (list byte)) :
  nalus <> [] -> len (avcc nalus) < 2 ^ 32 ->
  SplitNALUs (avcc nalus) = Returns (nalus, NALU_AVCC).
Proof.
  destruct nalus as [|n1 rest]; [congruence|]. intros _ Hlen.
  pose proof (length_avcc (n1 :: rest)) as Hfuel.
  rewrite avcc_cons in *.
  rewrite !len_app, len_bytesU32BE in Hlen.
  pose proof (len_nonneg n1). pose proof (len_nonneg (avcc rest)).
  unfold SplitNALUs.
  replace (len (bytesU32BE (len n1) ++ n1 ++ avcc rest) <? 4) with false
    by (symmetry; apply Z.ltb_ge; rewrite len_app, len_bytesU32BE, len_app; lia).
  cbv zeta. rewrite bytesU32BE_U32BE by lia.
  replace (len n1 <=? u32 (len (bytesU32BE (len n1) ++ n1 ++ avcc rest)))
    with true.
  2:{ symmetry. apply Z.leb_le. unfold u32.
      rewrite len_app, len_bytesU32BE, len_app, Z.mod_small by lia. lia. }
  change 4%nat with (length (bytesU32BE (len n1))).
  rewrite drop_app_length.
  rewrite avccLoop_frames; [reflexivity| |rewrite len_app; lia].
  cbn [length] in Hfuel. lens.
Qed.

Lemma SplitNALUs_avcc_round_trip_witness :
  SplitNALUs (avcc [[Byte.x40; Byte.x01]; [Byte.x42]])
  = Returns ([[Byte.x40; Byte.x01]; [Byte.x42]], NALU_AVCC).
Proof.
  apply SplitNALUs_avcc_round_trip.
  - discriminate.
  - vm_compute. reflexivity.
Defined.

Lemma take4_U32BE (s : list byte) :
  (4 <= length s)%nat ->
  bytesU32BE (U32BE s) = take 4 s /\ U32BE (take 4 s) = U32BE s.
Proof.
  intros H. destruct s as [|b0 [|b1 [|b2 [|b3 l]]]]; simpl in H; try lia.
  split; [apply bytesU32BE_of_U32BE|]. cbn [take firstn].
  now rewrite !U32BE_eq.
Qed.

Lemma avccLoop_sound (fuel : nat) :
  forall (_b : list byte) (v : Z) (acc nalus : list (list byte))
         (rem : list byte),
    0 <= v ->
    avccLoop fuel _b v acc = Returns (nalus, rem) ->
    exists l t,
      nalus = acc ++ l /\ l <> []
      /\ bytesU32BE v ++ _b = avcc l ++ t ++ rem
      /\ (t = [] \/ (length t = 4%nat /\ U32BE t > u32 (len rem))).
Proof.
  induction fuel as [|fuel IH]; intros _b v acc nalus rem Hv;
    cbn [avccLoop]; [discriminate|].
  destruct (Z.gtb_spec v (len _b)) as [Hgt|Hle]; [discriminate|].
  set (n1 := take (Z.to_nat v) _b).
  set (b1 := drop (Z.to_nat v) _b).
  assert (Hsplit : _b = n1 ++ b1) by (symmetry; apply take_drop).
  assert (Hn1 : len n1 = v).
  { unfold n1, len in *. rewrite length_take. lia. }
  assert (Hframe : bytesU32BE v ++ _b = avcc [n1] ++ b1).
  { rewrite avcc_cons, Hn1. change (avcc []) with (@nil byte).
    rewrite app_nil_r, <- app_assoc. now rewrite <- Hsplit. }
  destruct (Z.ltb_spec (len b1) 4) as [Hshort|Hlong].
  - intros [= <- <-]. exists [n1], []. repeat split; auto.
  - assert (H4 : (4 <= length b1)%nat) by (unfold len in Hlong; lia).
    destruct (take4_U32BE b1 H4) as (Hbytes & Hval).
    destruct (Z.gtb_spec (U32BE b1) (u32 (len (drop 4 b1)))) as [Hbig|Hfit].
    + intros [= <- <-]. exists [n1], (take 4 b1).
      split; [reflexivity|]. split; [discriminate|]. split.
      * rewrite Hframe. f_equal. symmetry. apply take_drop.
      * right. split; [rewrite length_take; lia|]. rewrite Hval. lia.
    + intros Hrec.
      apply IH in Hrec as (l & t & -> & Hl & Hb & Ht);
        [|apply U32BE_range].
      exists (n1 :: l), t. split; [now rewrite <- app_assoc|].
      split; [discriminate|]. split; [|exact Ht].
      rewrite Hframe, (avcc_cons n1 l). change (avcc [n1]) with
        (bytesU32BE (len n1) ++ n1 ++ avcc []).
      change (avcc []) with (@nil byte). rewrite app_nil_r.
      rewrite <- !app_assoc. do 2 f_equal.
      rewrite <- (take_drop 4 b1) at 1. rewrite <- Hbytes. exact Hb.
Qed.

Lemma annexB_not_avcc (fuel : nat) (b : list byte) (v3 v4 : Z)
    (nalus : list (list byte)) (typ : Z) :
  (if (v3 =? 1) || (v4 =? 1)
   then match annexBLoop fuel b 0 0 v3 v4 [] with
        | Returns nalus => Returns (nalus, NALU_ANNEXB)
        | Panics => Panics
        | Cut => Cut
        end
   else Returns ([b], NALU_RAW)) = Returns (nalus, typ) ->
  typ <> NALU_AVCC.
Proof.
  destruct (_ || _).
  - destruct (annexBLoop _ _ _ _ _ _ _); try discriminate.
    intros [= _ <-]. discriminate.
  - intros [= _ <-]. discriminate.
Qed.

(** X10.  When [SplitNALUs] reports AVCC, the buffer is the sequence of the
    returned units, each behind its length in four bytes, followed by
    nothing or by four bytes that encode a length other than 0: a length
    with no unit after it at the very end is dropped without notice. *)
Theorem SplitNALUs_avcc_sound (b : list byte) (nalus : list (list byte)) :
  SplitNALUs b = Returns (nalus, NALU_AVCC) ->
  nalus <> []
  /\ exists t, b = avcc nalus ++ t
               /\ (t = [] \/ (length t = 4%nat /\ U32BE t <> 0)).
Proof.
  unfold SplitNALUs.
  destruct (Z.ltb_spec (len b) 4) as [Hshort|Hlong]; [discriminate|].
  cbv zeta.
  assert (H4 : (4 <= length b)%nat) by (unfold len in Hlong; lia).
  destruct (take4_U32BE b H4) as (Hbytes & _).
  destruct (U32BE b <=? u32 (len b));
    [|intros H; now apply annexB_not_avcc in H].
  destruct (avccLoop _ _ _ _) as [[l rem]| |] eqn:E; try discriminate.
  destruct (Z.eqb_spec (len rem) 0) as [Hrem|Hrem];
    [|intros H; now apply annexB_not_avcc in H].
  intros [= ->].
  apply avccLoop_sound in E as (l' & t & E1 & Hl & Hb & Ht);
    [|apply U32BE_range].
  simpl in E1. subst l'.
  assert (rem = []) by (destruct rem; [reflexivity|unfold len in Hrem; simpl in Hrem; lia]).
  subst rem. split; [exact Hl|]. exists t. split.
  - rewrite <- (take_drop 4 b) at 1. rewrite <- Hbytes, Hb.
    now rewrite app_nil_r.
  - destruct Ht as [Ht|[Ht1 Ht2]]; [now left|right].
    split; [exact Ht1|]. change (u32 (len [])) with 0 in Ht2. lia.
Qed.

Lemma SplitNALUs_avcc_sound_witness :
  let b := [Byte.x00; Byte.x00; Byte.x00; Byte.x01; Byte.xaa;
            Byte.x00; Byte.x00; Byte.x00; Byte.x05] in
  [[Byte.xaa]] <> []
  /\ exists t, b = avcc [[Byte.xaa]] ++ t
               /\ (t = [] \/ (length t = 4%nat /\ U32BE t <> 0)).
Proof.
  intros b. apply (SplitNALUs_avcc_sound b [[Byte.xaa]]). reflexivity.
Defined.

Lemma avccLoop_returns (fuel : nat) :
  forall (_b : list byte) (v : Z) (acc : list (list byte)),
    (length _b < fuel)%nat -> 0 <= v <= len _b -> len _b < 2 ^ 32 ->
    exists res, avccLoop fuel _b v acc = Returns res.
Proof.
  induction fuel as [|fuel IH]; intros _b v acc Hfuel Hv Hlen; [lia|].
  cbn [avccLoop].
  destruct (Z.gtb_spec v (len _b)) as [Hgt|_]; [lia|].
  destruct (len (drop _ _) <? 4) eqn:E4; [eauto|].
  apply Z.ltb_ge in E4.
  set (b1 := drop (Z.to_nat v) _b) in *.
  assert (Hb1 : (length b1 <= length _b)%nat)
    by (unfold b1; rewrite length_drop; lia).
  assert (Hb2 : len (drop 4 b1) = len b1 - 4)
    by (unfold len in *; rewrite length_drop; lia).
  destruct (Z.gtb_spec (U32BE b1) (u32 (len (drop 4 b1)))) as [_|Hfit];
    [eauto|].
  apply IH.
  - unfold len in *. rewrite length_drop. lia.
  - split; [apply U32BE_range|]. unfold u32 in Hfit.
    rewrite Z.mod_small in Hfit; [exact Hfit|]. unfold len in *. lia.
  - unfold len in *. lia.
Qed.

Lemma scanStartCode_spec (s : list byte) :
  forall v3 v4 : Z,
    v3 <> 1 -> v4 <> 1 ->
    forall (k : nat) (a c : Z),
      scanStartCode s v3 v4 = (k, a, c) ->
      a = 1 /\ (k + 3 <= length s)%nat
      \/ (a <> 1 /\ c = 1 /\ (k + 4 <= length s)%nat)
      \/ (a <> 1 /\ c <> 1 /\ k = length s).
Proof.
  induction s as [|x s' IH]; intros v3 v4 H3 H4 k a c.
  - intros [= <- <- <-]. right. right. auto.
  - assert (Hrec : forall w3 w4, w3 <> 1 -> w4 <> 1 ->
              (let '(k, v3, v4) := scanStartCode s' w3 w4 in (S k, v3, v4))
              = (k, a, c) ->
              a = 1 /\ (k + 3 <= length (x :: s'))%nat
              \/ (a <> 1 /\ c = 1 /\ (k + 4 <= length (x :: s'))%nat)
              \/ (a <> 1 /\ c <> 1 /\ k = length (x :: s'))).
    { intros w3 w4 Hw3 Hw4.
      destruct (scanStartCode s' w3 w4) as [[k' a'] c'] eqn:E.
      intros [= <- <- <-].
      apply (IH _ _ Hw3 Hw4) in E. cbn [length]. lia. }
    cbn [scanStartCode].
    destruct ((3 <=? length (x :: s'))%nat && (byte_to_Z x =? 0)) eqn:E3;
      [|now apply Hrec].
    apply andb_prop in E3 as [E3 _]. apply Nat.leb_le in E3.
    destruct (Z.eqb_spec (U24BE (x :: s')) 0) as [Ez|Enz].
    + destruct (4 <=? length (x :: s'))%nat eqn:E4;
        [|apply Hrec; [lia|exact H4]].
      apply Nat.leb_le in E4.
      destruct (Z.eqb_spec (at_ (x :: s') 3) 1) as [E1|E1].
      * intros [= <- <- <-]. right. left. repeat split; [lia|exact E1|lia].
      * apply Hrec; [lia|exact E1].
    + destruct (Z.eqb_spec (U24BE (x :: s')) 1) as [E1|E1].
      * intros [= <- <- <-]. left. split; [exact E1|lia].
      * now apply Hrec.
Qed.

Lemma annexBLoop_returns (fuel : nat) (b : list byte) :
  forall (start pos : nat) (v3 v4 : Z) (acc : list (list byte)),
    (start <= pos)%nat ->
    (v3 = 1 /\ (pos + 3 <= length b)%nat
     \/ (v3 <> 1 /\ v4 = 1 /\ (pos + 4 <= length b)%nat)
     \/ (v3 <> 1 /\ v4 <> 1 /\ pos = length b)) ->
    (length b - pos < fuel)%nat ->
    Forall (fun nalu => nalu <> []) acc ->
    exists nalus,
      annexBLoop fuel b start pos v3 v4 acc = Returns nalus
      /\ Forall (fun nalu => nalu <> []) nalus.
Proof.
  induction fuel as [|fuel IH]; intros start pos v3 v4 acc Hsp Hinv Hfuel Hacc;
    [lia|].
  cbn [annexBLoop].
  assert (Hpos : (pos <= length b)%nat) by lia.
  assert (Hadd : exists acc',
            (if negb (start =? pos)%nat
             then option_map (fun nalu => acc ++ [nalu]) (slice b start pos)
             else Some acc) = Some acc'
            /\ Forall (fun nalu => nalu <> []) acc').
  { destruct (Nat.eqb_spec start pos) as [->|Hne]; cbn [negb]; [eauto|].
    unfold slice.
    replace ((start <=? pos)%nat && (pos <=? length b)%nat) with true
      by (symmetry; apply andb_true_intro; split; apply Nat.leb_le; lia).
    cbn [option_map]. eexists. split; [reflexivity|].
    apply Forall_app. split; [exact Hacc|].
    constructor; [|constructor].
    intros E. apply (f_equal (@length byte)) in E.
    rewrite length_take, length_drop in E. cbn [length] in E. lia. }
  destruct Hadd as (acc' & -> & Hacc').
  cbv zeta.
  set (pos' := if v3 =? 1 then (pos + 3)%nat
               else if v4 =? 1 then (pos + 4)%nat else pos).
  assert (Hpos' : (pos' <= length b
                   /\ (pos' <> length b -> pos + 3 <= pos'))%nat).
  { unfold pos'. destruct Hinv as [[-> ?]|[(? & -> & ?)|(? & ? & ?)]].
    - cbn. lia.
    - destruct (Z.eqb_spec v3 1); [contradiction|]. cbn. lia.
    - destruct (Z.eqb_spec v3 1); [contradiction|].
      destruct (Z.eqb_spec v4 1); [contradiction|]. lia. }
  destruct (Nat.eqb_spec pos' (length b)) as [_|Hne]; [eauto|].
  destruct (scanStartCode (drop pos' b) 0 0) as [[k a] c] eqn:E.
  apply scanStartCode_spec in E; [|lia|lia].
  rewrite length_drop in E.
  apply IH; [lia|lia|lia|exact Hacc'].
Qed.

(** X11.  [SplitNALUs] always comes back, and it panics on exactly the
    buffers whose first four bytes hold a length that fits the whole buffer
    but not the bytes after these four.  When it reports RAW the one unit is
    the buffer; when it reports Annex B the buffer starts with a start code
    and no unit is empty. *)
Theorem SplitNALUs_outcome (b : list byte) :
  len b < 2 ^ 32 ->
  match SplitNALUs b with
  | Cut => False
  | Panics => first_length_overruns b
  | Returns (nalus, typ) =>
      ~ first_length_overruns b
      /\ (typ = NALU_RAW /\ nalus = [b]
          \/ typ = NALU_AVCC
          \/ typ = NALU_ANNEXB
             /\ (U24BE b = 1 \/ U32BE b = 1)
             /\ Forall (fun nalu => nalu <> []) nalus)
  end.
Proof.
  intros Hlen. unfold SplitNALUs, first_length_overruns.
  destruct (Z.ltb_spec (len b) 4) as [Hshort|Hlong];
    [split; [lia|left; auto]|].
  cbv zeta.
  assert (Hdrop : len (drop 4 b) = len b - 4)
    by (unfold len in *; rewrite length_drop; lia).
  assert (Hannex : ~ (len b - 4 < U32BE b <= len b) ->
    match (if (U24BE b =? 1) || (U32BE b =? 1)
           then match annexBLoop (S (length b)) b 0 0 (U24BE b) (U32BE b) []
                with
                | Returns nalus => Returns (nalus, NALU_ANNEXB)
                | Panics => Panics
                | Cut => Cut
                end
           else Returns ([b], NALU_RAW)) with
    | Cut => False
    | Panics => 4 <= len b /\ len b - 4 < U32BE b <= len b
    | Returns (nalus, typ) =>
        ~ (4 <= len b /\ len b - 4 < U32BE b <= len b)
        /\ (typ = NALU_RAW /\ nalus = [b]
            \/ typ = NALU_AVCC
            \/ typ = NALU_ANNEXB
               /\ (U24BE b = 1 \/ U32BE b = 1)
               /\ Forall (fun nalu => nalu <> []) nalus)
    end).
  { intros Hno.
    destruct ((U24BE b =? 1) || (U32BE b =? 1)) eqn:E;
      [|split; [lia|left; auto]].
    assert (Hcode : U24BE b = 1 \/ U32BE b = 1).
    { apply orb_prop in E as [E|E]; apply Z.eqb_eq in E; auto. }
    destruct (annexBLoop_returns (S (length b)) b 0 0 (U24BE b) (U32BE b) [])
      as (nalus & -> & Hne).
    - lia.
    - unfold len in Hlong. destruct (Z.eq_dec (U24BE b) 1); [left|right; left];
        repeat split; lia.
    - lia.
    - constructor.
    - split; [lia|]. right. right. auto. }
  unfold u32. rewrite (Z.mod_small (len b)) by (unfold len in *; lia).
  destruct (Z.leb_spec (U32BE b) (len b)) as [Hle|Hgt]; [|apply Hannex; lia].
  destruct (Z_le_gt_dec (U32BE b) (len b - 4)) as [Hfit|Hover].
  - destruct (avccLoop_returns (S (length b)) (drop 4 b) (U32BE b) [])
      as ([nalus rem] & ->).
    + rewrite length_drop. lia.
    + split; [apply U32BE_range|lia].
    + lia.
    + destruct (len rem =? 0); [|apply Hannex; lia].
      split; [lia|]. right. left. reflexivity.
  - cbn [avccLoop].
    destruct (Z.gtb_spec (U32BE b) (len (drop 4 b))) as [_|Hno]; [|lia].
    lia.
Qed.

Lemma SplitNALUs_outcome_witness :
  first_length_overruns [Byte.x00; Byte.x00; Byte.x00; Byte.x01].
Proof.
  apply (SplitNALUs_outcome [Byte.x00; Byte.x00; Byte.x00; Byte.x01]).
  reflexivity.
Defined.

Lemma byte_to_Z_inj (x y : byte) : byte_to_Z x = byte_to_Z y -> x = y.
Proof.
  intros E. rewrite <- (Z_to_byte_to_Z x), <- (Z_to_byte_to_Z y).
  now rewrite E.
Qed.

Lemma U24BE_is_1 (s : list byte) :
  (3 <= length s)%nat -> U24BE s = 1 -> take 3 s = StartCodeBytes.
Proof.
  intros H. destruct s as [|b0 [|b1 [|b2 l]]]; simpl in H; try lia.
  rewrite U24BE_eq. intros E.
  pose proof (byte_to_Z_range b0). pose proof (byte_to_Z_range b1).
  pose proof (byte_to_Z_range b2).
  cbn [take firstn]. unfold StartCodeBytes.
  f_equal; [|f_equal; [|f_equal]]; apply byte_to_Z_inj;
    change (byte_to_Z Byte.x00) with 0; change (byte_to_Z Byte.x01) with 1;
    lia.
Qed.

Lemma U24BE_0_then_1 (s : list byte) :
  (4 <= length s)%nat -> U24BE s = 0 -> at_ s 3 = 1 -> take 4 s = StartCode4.
Proof.
  intros H. destruct s as [|b0 [|b1 [|b2 [|b3 l]]]]; simpl in H; try lia.
  rewrite U24BE_eq, !at_cons_S, at_cons_0. intros E E3.
  pose proof (byte_to_Z_range b0). pose proof (byte_to_Z_range b1).
  pose proof (byte_to_Z_range b2).
  cbn [take firstn]. unfold StartCode4.
  f_equal; [|f_equal; [|f_equal; [|f_equal]]]; apply byte_to_Z_inj;
    change (byte_to_Z Byte.x00) with 0; change (byte_to_Z Byte.x01) with 1;
    lia.
Qed.

Lemma U32BE_is_1 (s : list byte) :
  (4 <= length s)%nat -> U32BE s = 1 -> take 4 s = StartCode4.
Proof.
  intros H. destruct s as [|b0 [|b1 [|b2 [|b3 l]]]]; simpl in H; try lia.
  rewrite U32BE_eq. intros E.
  pose proof (byte_to_Z_range b0). pose proof (byte_to_Z_range b1).
  pose proof (byte_to_Z_range b2). pose proof (byte_to_Z_range b3).
  cbn [take firstn]. unfold StartCode4.
  f_equal; [|f_equal; [|f_equal; [|f_equal]]]; apply byte_to_Z_inj;
    change (byte_to_Z Byte.x00) with 0; change (byte_to_Z Byte.x01) with 1;
    lia.
Qed.

(** Where the scanner or the first test of [SplitNALUs] has left [pos]:
    at a start code of three bytes, at one of four, or at the end. *)
Lemma scanStartCode_codes (s : list byte) :
  forall v3 v4 : Z,
    v3 <> 1 -> v4 <> 1 ->
    forall (k : nat) (a c : Z),
      scanStartCode s v3 v4 = (k, a, c) ->
      a = 1 /\ take 3 (drop k s) = StartCodeBytes
      \/ a <> 1 /\ c = 1 /\ take 4 (drop k s) = StartCode4
      \/ a <> 1 /\ c <> 1 /\ k = length s.
Proof.
  induction s as [|x s' IH]; intros v3 v4 H3 H4 k a c.
  - intros [= <- <- <-]. right. right. auto.
  - assert (Hrec : forall w3 w4, w3 <> 1 -> w4 <> 1 ->
              (let '(k, v3, v4) := scanStartCode s' w3 w4 in (S k, v3, v4))
              = (k, a, c) ->
              a = 1 /\ take 3 (drop k (x :: s')) = StartCodeBytes
              \/ a <> 1 /\ c = 1 /\ take 4 (drop k (x :: s')) = StartCode4
              \/ a <> 1 /\ c <> 1 /\ k = length (x :: s')).
    { intros w3 w4 Hw3 Hw4.
      destruct (scanStartCode s' w3 w4) as [[k' a'] c'] eqn:E.
      intros [= <- <- <-].
      apply (IH _ _ Hw3 Hw4) in E. cbn [drop length].
      destruct E as [E|[E|(? & ? & ->)]]; auto. }
    cbn [scanStartCode].
    destruct ((3 <=? length (x :: s'))%nat && (byte_to_Z x =? 0)) eqn:E3;
      [|now apply Hrec].
    apply andb_prop in E3 as [E3 _]. apply Nat.leb_le in E3.
    destruct (Z.eqb_spec (U24BE (x :: s')) 0) as [Ez|Enz].
    + destruct (4 <=? length (x :: s'))%nat eqn:E4;
        [|apply Hrec; [lia|exact H4]].
      apply Nat.leb_le in E4.
      destruct (Z.eqb_spec (at_ (x :: s') 3) 1) as [E1|E1].
      * intros [= <- <- <-]. right. left.
        split; [lia|]. split; [exact E1|]. now apply U24BE_0_then_1.
      * apply Hrec; [lia|exact E1].
    + destruct (Z.eqb_spec (U24BE (x :: s')) 1) as [E1|E1].
      * intros [= <- <- <-]. left. split; [exact E1|].
        now apply U24BE_is_1.
      * now apply Hrec.
Qed.

Lemma gap_nil : gap [].
Proof. exists []. split; [constructor|reflexivity]. Qed.

Lemma gap_snoc (g c : list byte) : gap g -> isStartCode c -> gap (g ++ c).
Proof.
  intros (cs & Hcs & ->) Hc. exists (cs ++ [c]). split.
  - apply Forall_app. split; [exact Hcs|]. now constructor.
  - rewrite concat_app. cbn. now rewrite app_nil_r.
Qed.

Lemma annexB_snoc (gaps nalus : list (list byte)) (g u : list byte) :
  length gaps = length nalus ->
  annexB (gaps ++ [g]) (nalus ++ [u]) = annexB gaps nalus ++ g ++ u.
Proof.
  intros Hlen. unfold annexB. rewrite zip_with_app by exact Hlen.
  rewrite concat_app. cbn. now rewrite app_nil_r.
Qed.

Lemma annexBLoop_sound (fuel : nat) (b : list byte) :
  forall (start pos : nat) (v3 v4 : Z) (acc nalus gaps : list (list byte))
         (g : list byte),
    annexBLoop fuel b start pos v3 v4 acc = Returns nalus ->
    (start <= pos)%nat ->
    (v3 = 1 /\ take 3 (drop pos b) = StartCodeBytes
     \/ v3 <> 1 /\ v4 = 1 /\ take 4 (drop pos b) = StartCode4
     \/ v3 <> 1 /\ v4 <> 1 /\ pos = length b) ->
    length gaps = length acc ->
    Forall (fun g => g <> [] /\ gap g) gaps ->
    gap g -> (g = [] -> start = pos) ->
    take start b = annexB gaps acc ++ g ->
    exists gaps' tail,
      length gaps' = length nalus
      /\ Forall (fun g => g <> [] /\ gap g) gaps'
      /\ gap tail
      /\ b = annexB gaps' nalus ++ tail.
Proof.
  induction fuel as [|fuel IH];
    intros start pos v3 v4 acc nalus gaps g; cbn [annexBLoop];
    [discriminate|].
  intros Hrun Hsp Hcode Hlen Hgaps Hg Hg0 Hpre.
  (* the unit, if there is one *)
  assert (Hadd : exists acc' gaps1 g1,
            (if negb (start =? pos)%nat
             then option_map (fun nalu => acc ++ [nalu]) (slice b start pos)
             else Some acc) = Some acc'
            /\ length gaps1 = length acc'
            /\ Forall (fun g => g <> [] /\ gap g) gaps1
            /\ gap g1
            /\ take pos b = annexB gaps1 acc' ++ g1).
  { destruct (Nat.eqb_spec start pos) as [->|Hne]; cbn [negb].
    - exists acc, gaps, g. auto.
    - destruct (slice b start pos) as [u|] eqn:Eu; [|discriminate].
      unfold slice in Eu. destruct (_ && _); [|discriminate].
      injection Eu as <-.
      eexists _, (gaps ++ [g]), []. split; [reflexivity|].
      split; [rewrite !length_app; cbn; lia|].
      split; [apply Forall_app; split;
              [exact Hgaps|constructor; [split; [intros ->; auto|exact Hg]
                                        |constructor]]|].
      split; [apply gap_nil|].
      rewrite annexB_snoc, app_nil_r by exact Hlen.
      rewrite app_assoc, <- Hpre.
      replace pos with (start + (pos - start))%nat at 1 by lia.
      symmetry. apply take_take_drop. }
  destruct Hadd as (acc' & gaps1 & g1 & Eacc & Hlen1 & Hgaps1 & Hg1 & Hpre1).
  rewrite Eacc in Hrun. cbv zeta in Hrun.
  set (pos' := if v3 =? 1 then (pos + 3)%nat
               else if v4 =? 1 then (pos + 4)%nat else pos) in *.
  assert (Hpos' : (pos' <= length b)%nat).
  { unfold pos'.
    destruct Hcode as [[-> Hc]|[(Hv3 & -> & Hc)|(Hv3 & Hv4 & Hp)]].
    - cbn. apply (f_equal (@length _)) in Hc.
      rewrite length_take, length_drop in Hc.
      change (length StartCodeBytes) with 3%nat in Hc. lia.
    - destruct (Z.eqb_spec v3 1); [contradiction|]. cbn.
      apply (f_equal (@length _)) in Hc.
      rewrite length_take, length_drop in Hc.
      change (length StartCode4) with 4%nat in Hc. lia.
    - destruct (Z.eqb_spec v3 1); [contradiction|].
      destruct (Z.eqb_spec v4 1); [contradiction|]. lia. }
  assert (Hstep : exists g2,
            gap g2 /\ take pos' b = annexB gaps1 acc' ++ g2
            /\ (g2 <> [] \/ pos' = length b)).
  { unfold pos'.
    destruct Hcode as [[-> Hc]|[(Hv3 & -> & Hc)|(Hv3 & Hv4 & Hp)]].
    - cbn. exists (g1 ++ StartCodeBytes).
      split; [apply gap_snoc; [exact Hg1|now left]|].
      split; [|left; intros E; apply app_eq_nil in E as [_ E]; discriminate].
      rewrite app_assoc, <- Hpre1, <- Hc. symmetry. apply take_take_drop.
    - destruct (Z.eqb_spec v3 1); [contradiction|]. cbn.
      exists (g1 ++ StartCode4).
      split; [apply gap_snoc; [exact Hg1|now right]|].
      split; [|left; intros E; apply app_eq_nil in E as [_ E]; discriminate].
      rewrite app_assoc, <- Hpre1, <- Hc. symmetry. apply take_take_drop.
    - destruct (Z.eqb_spec v3 1); [contradiction|].
      destruct (Z.eqb_spec v4 1); [contradiction|].
      exists g1. auto. }
  destruct Hstep as (g2 & Hg2 & Hpre2 & Hg20).
  destruct (Nat.eqb_spec pos' (length b)) as [Hend|Hmore].
  - injection Hrun as <-. exists gaps1, g2.
    split; [exact Hlen1|]. split; [exact Hgaps1|]. split; [exact Hg2|].
    rewrite <- Hpre2, Hend. symmetry. apply firstn_all.
  - destruct Hg20 as [Hg20|Hend]; [|contradiction].
    destruct (scanStartCode (drop pos' b) 0 0) as [[k a] c] eqn:E.
    apply scanStartCode_codes in E; [|lia|lia].
    rewrite drop_drop, length_drop in E.
    apply (IH pos' (pos' + k)%nat a c acc' nalus gaps1 g2); auto.
    + lia.
    + destruct E as [E|[E|(? & ? & ->)]]; auto.
      right. right. repeat split; auto. lia.
    + intros ->. contradiction.
Qed.

Lemma annexB_branch (fuel : nat) (b : list byte) (v3 v4 : Z)
    (nalus : list (list byte)) :
  (if (v3 =? 1) || (v4 =? 1)
   then match annexBLoop fuel b 0 0 v3 v4 [] with
        | Returns nalus => Returns (nalus, NALU_ANNEXB)
        | Panics => Panics
        | Cut => Cut
        end
   else Returns ([b], NALU_RAW)) = Returns (nalus, NALU_ANNEXB) ->
  (v3 = 1 \/ v4 = 1) /\ annexBLoop fuel b 0 0 v3 v4 [] = Returns nalus.
Proof.
  destruct (_ || _) eqn:E; [|discriminate].
  destruct (annexBLoop _ _ _ _ _ _ _); try discriminate.
  intros [= ->]. split; [|reflexivity].
  apply orb_prop in E as [E|E]; apply Z.eqb_eq in E; auto.
Qed.

(** X14.  When [SplitNALUs] reports Annex B, the buffer is made of the
    returned units and of start codes, and of nothing else: before each
    unit stands a run of one or more start codes ([00 00 01] or
    [00 00 00 01]), after the last unit a run of none or more, and no unit
    is empty. *)
Theorem SplitNALUs_annexb_sound (b : list byte) (nalus : list (list byte)) :
  SplitNALUs b = Returns (nalus, NALU_ANNEXB) ->
  Forall (fun nalu => nalu <> []) nalus
  /\ exists gaps tail,
       length gaps = length nalus
       /\ Forall (fun g => g <> [] /\ gap g) gaps
       /\ gap tail
       /\ b = annexB gaps nalus ++ tail.
Proof.
  unfold SplitNALUs.
  destruct (Z.ltb_spec (len b) 4) as [Hshort|Hlong]; [discriminate|].
  cbv zeta. intros Hrun.
  assert (H4 : (4 <= length b)%nat) by (unfold len in Hlong; lia).
  assert (Hloop : (U24BE b = 1 \/ U32BE b = 1)
                  /\ annexBLoop (S (length b)) b 0 0 (U24BE b) (U32BE b) []
                     = Returns nalus).
  { destruct (U32BE b <=? u32 (len b)); [|now apply annexB_branch].
    destruct (avccLoop _ _ _ _) as [[l rem]| |]; try discriminate.
    destruct (len rem =? 0); [discriminate|now apply annexB_branch]. }
  clear Hrun. destruct Hloop as [Hcode Hloop]. split.
  - destruct (annexBLoop_returns (S (length b)) b 0 0 (U24BE b) (U32BE b) [])
      as (nalus' & E & Hne).
    + lia.
    + destruct (Z.eq_dec (U24BE b) 1); [left|right; left];
        repeat split; lia.
    + lia.
    + constructor.
    + rewrite Hloop in E. now injection E as <-.
  - apply (annexBLoop_sound _ _ _ _ _ _ _ _ [] [] Hloop).
    + lia.
    + destruct (Z.eq_dec (U24BE b) 1) as [E3|E3].
      * left. split; [exact E3|]. rewrite drop_0.
        apply U24BE_is_1; [lia|exact E3].
      * right. left. destruct Hcode as [|E4]; [contradiction|].
        rewrite drop_0. repeat split; auto. now apply U32BE_is_1.
    + reflexivity.
    + constructor.
    + apply gap_nil.
    + reflexivity.
    + reflexivity.
Qed.

Lemma SplitNALUs_annexb_sound_witness :
  let b := [Byte.x00; Byte.x00; Byte.x01; Byte.x40; Byte.x01;
            Byte.x00; Byte.x00; Byte.x00; Byte.x01; Byte.x42] in
  let nalus := [[Byte.x40; Byte.x01]; [Byte.x42]] in
  Forall (fun nalu => nalu <> []) nalus
  /\ exists gaps tail,
       length gaps = length nalus
       /\ Forall (fun g => g <> [] /\ gap g) gaps
       /\ gap tail
       /\ b = annexB gaps nalus ++ tail.
Proof.
  intros b nalus. apply (SplitNALUs_annexb_sound b nalus). reflexivity.
Defined.

End SplitUnits.

(** ** Reading the decoder configuration record *)

Section ReadDecoderRecord.
Import H265 Decconf.

Lemma U16BE_range (b : list byte) : 0 <= U16BE b < 2 ^ 16.
Proof.
  unfold U16BE. pose proof (at_range b 0). pose proof (at_range b 1).
  rewrite lor_shiftl_add by lia. change (2 ^ 8) with 256.
  change (2 ^ 16) with 65536. lia.
Qed.

Lemma extends_refl (self : AVCDecoderConfRecord) : extends self self.
Proof. unfold extends. auto. Qed.

Lemma extends_trans (s1 s2 s3 : AVCDecoderConfRecord) :
  extends s1 s2 -> extends s2 s3 -> extends s1 s3.
Proof.
  unfold extends. intros (E1 & V1 & S1 & P1) (E2 & V2 & S2 & P2).
  repeat split; [congruence|etrans; eauto..].
Qed.

Lemma addNALU_extends (self : AVCDecoderConfRecord) (ty : Z)
    (nalu : list byte) :
  extends self (addNALU self ty nalu).
Proof.
  unfold addNALU, extends.
  repeat case_match; cbn; repeat split; auto; now apply prefix_app_r.
Qed.

Lemma readU16BE_Some (b : list byte) (n v : Z) :
  readU16BE b n = Some v -> 0 <= n /\ n + 2 <= len b /\ 0 <= v < 2 ^ 16.
Proof.
  unfold readU16BE.
  destruct (Z.leb_spec 0 n); [|discriminate].
  destruct (Z.leb_spec (n + 2) (len b)); [|discriminate].
  intros [= <-]. pose proof (U16BE_range (drop (Z.to_nat n) b)). lia.
Qed.

Lemma readNALUs_returns (count : nat) (b : list byte) (ty : Z) :
  forall (self : AVCDecoderConfRecord) (n : Z)
         (self' : AVCDecoderConfRecord) (n' : Z) (err : option error),
    readNALUs count b ty self n = Returned self' n' err ->
    0 <= n <= len b ->
    n <= n' <= len b /\ extends self self'.
Proof.
  induction count as [|count IH]; intros self n self' n' err; cbn [readNALUs].
  - intros [= <- <- <-] Hn. split; [lia|apply extends_refl].
  - destruct (readU16BE b n) as [nal_len|] eqn:E; [|discriminate].
    apply readU16BE_Some in E as (H0 & H2 & Hv). cbv zeta.
    destruct (Z.ltb_spec (len b) (n + 2 + nal_len)) as [Hshort|Hfit].
    + intros [= <- <- <-] Hn. split; [lia|apply extends_refl].
    + intros Hrec Hn. apply IH in Hrec as [Hn' Hext]; [|lia].
      split; [lia|]. eapply extends_trans; [apply addNALU_extends|exact Hext].
Qed.

Lemma index_Some (b : list byte) (n x : Z) :
  index b n = Some x -> 0 <= n < len b /\ 0 <= x < 256.
Proof.
  unfold index.
  destruct (Z.leb_spec 0 n); [|discriminate].
  destruct (Z.ltb_spec n (len b)); [|discriminate].
  intros [= <-]. pose proof (at_range b (Z.to_nat n)). lia.
Qed.

Lemma readArrays_returns (count : nat) (b : list byte) :
  forall (self : AVCDecoderConfRecord) (n : Z)
         (self' : AVCDecoderConfRecord) (n' : Z) (err : option error),
    readArrays count b self n = Returned self' n' err ->
    0 <= n <= len b ->
    n <= n' <= len b /\ extends self self'.
Proof.
  induction count as [|count IH]; intros self n self' n' err;
    cbn [readArrays].
  - intros [= <- <- <-] Hn. split; [lia|apply extends_refl].
  - destruct (index b n) as [x|] eqn:Ex; [|discriminate].
    apply index_Some in Ex as [Hx _]. cbv zeta.
    destruct (Z.ltb_spec (len b) (n + 1 + 2)) as [Hshort|Hfit].
    + intros [= <- <- <-] Hn. split; [lia|apply extends_refl].
    + destruct (readU16BE b (n + 1)) as [nal_num|] eqn:E; [|discriminate].
      destruct (readNALUs _ _ _ _ _) as [s1 n1 [e|]|] eqn:E1;
        try discriminate.
      * intros [= <- <- <-] Hn.
        apply readNALUs_returns in E1 as [Hn1 Hext]; [|lia].
        split; [lia|exact Hext].
      * intros Hrec Hn.
        apply readNALUs_returns in E1 as [Hn1 Hext]; [|lia].
        apply IH in Hrec as [Hn' Hext']; [|lia].
        split; [lia|]. eapply extends_trans; eauto.
Qed.

(** X12.  Whenever [Unmarshal] returns, with or without an error, the count
    it returns lies within the buffer, [LengthSizeMinusOne] of the receiver
    is what it was, and its three lists have only grown at the end.  When it
    returns without an error it has read at least 23 bytes and none of the
    three lists is empty. *)
Theorem Unmarshal_returns (self : AVCDecoderConfRecord) (b : list byte)
    (self' : AVCDecoderConfRecord) (n : Z) (err : option error) :
  Unmarshal self b = Returned self' n err ->
  0 <= n <= len b
  /\ extends self self'
  /\ (err = None ->
      23 <= n /\ VPS self' <> [] /\ SPS self' <> [] /\ PPS self' <> []).
Proof.
  unfold Unmarshal.
  destruct (Z.ltb_spec (len b) 7) as [Hshort|Hlong].
  { intros [= <- <- <-]. pose proof (len_nonneg b).
    split; [lia|]. split; [apply extends_refl|discriminate]. }
  cbv zeta. cbn [AVCProfileIndication ProfileCompatibility AVCLevelIndication
                 LengthSizeMinusOne VPS SPS PPS].
  change (0 + 1 + 1 + 4 + 1) with 7. change (7 + 15 + 1) with 23.
  destruct (Z.geb_spec (7 + 15) (len b)) as [Hshort|Hfit].
  { intros [= <- <- <-]. split; [lia|].
    split; [repeat split; reflexivity|discriminate]. }
  destruct (readArrays _ _ _ _) as [s1 n1 e|] eqn:E; [|discriminate].
  apply readArrays_returns in E as [Hn1 Hext]; [|lia].
  assert (Hext' : extends self s1).
  { eapply extends_trans; [|exact Hext]. repeat split; reflexivity. }
  destruct e as [e|].
  { intros [= <- <- <-]. split; [lia|]. split; [exact Hext'|discriminate]. }
  destruct (VPS s1) eqn:EV; [discriminate|].
  destruct (SPS s1) eqn:ES; [discriminate|].
  destruct (PPS s1) eqn:EP; [discriminate|].
  intros [= <- <- <-]. split; [lia|]. split; [exact Hext'|].
  intros _. rewrite EV, ES, EP. repeat split; (lia || discriminate).
Qed.

Lemma Unmarshal_returns_witness :
  let self := mkRecord 0 0 0 0 [] [] [] in
  let self' :=
    mkRecord 1 0x01020304 5 0 [[Byte.x40; Byte.x01]] [[Byte.x42]]
      [[Byte.x44]] in
  let b :=
    hvcc ([Byte.x01; Byte.x21; Byte.x01; Byte.x02; Byte.x03; Byte.x04;
           Byte.x05] ++ repeat Byte.x00 15)
      [(Byte.xa0, [[Byte.x40; Byte.x01]]); (Byte.xa1, [[Byte.x42]]);
       (Byte.xa2, [[Byte.x44]])] in
  0 <= 42 <= len b
  /\ extends self self'
  /\ (@None error = None ->
      23 <= 42 /\ VPS self' <> [] /\ SPS self' <> [] /\ PPS self' <> []).
Proof.
  intros self self' b. apply (Unmarshal_returns self b self' 42 None).
  reflexivity.
Defined.

Lemma U16BE_bytesU16BE (v : Z) (l : list byte) :
  0 <= v < 2 ^ 16 -> U16BE (bytesU16BE v ++ l) = v.
Proof.
  intros Hv. unfold bytesU16BE. cbn [app]. rewrite U16BE_eq.
  rewrite !byte_to_Z_to_byte, !Z.shiftr_div_pow2 by lia.
  change (2 ^ 8) with 256. change (2 ^ 16) with 65536 in Hv.
  Z.div_mod_to_equations. lia.
Qed.

Lemma len_hvccUnit (u : list byte) : len (hvccUnit u) = 2 + len u.
Proof. unfold hvccUnit. rewrite len_app. reflexivity. Qed.

Lemma drop_len_app (pre rest : list byte) :
  drop (Z.to_nat (len pre)) (pre ++ rest) = rest.
Proof. rewrite to_nat_len. apply drop_app_length. Qed.

Lemma readU16BE_at (pre rest : list byte) (v : Z) :
  0 <= v < 2 ^ 16 ->
  readU16BE (pre ++ bytesU16BE v ++ rest) (len pre) = Some v.
Proof.
  intros Hv. unfold readU16BE. pose proof (len_nonneg pre).
  pose proof (len_nonneg rest).
  rewrite drop_len_app, U16BE_bytesU16BE by exact Hv.
  rewrite !len_app. change (len (bytesU16BE v)) with 2.
  destruct (Z.leb_spec 0 (len pre)); [|lia].
  destruct (Z.leb_spec (len pre + 2) (len pre + (2 + len rest))); [|lia].
  reflexivity.
Qed.

Lemma readNALUs_step (count : nat) (pre u rest : list byte) (ty : Z)
    (self : AVCDecoderConfRecord) :
  len u < 2 ^ 16 ->
  readNALUs (S count) (pre ++ hvccUnit u ++ rest) ty self (len pre)
  = readNALUs count (pre ++ hvccUnit u ++ rest) ty (addNALU self ty u)
      (len (pre ++ hvccUnit u)).
Proof.
  intros Hu. pose proof (len_nonneg u). pose proof (len_nonneg pre).
  pose proof (len_nonneg rest).
  assert (Hlen : len (pre ++ hvccUnit u) = len pre + 2 + len u)
    by (rewrite len_app, len_hvccUnit; lia).
  rewrite Hlen.
  set (b := pre ++ hvccUnit u ++ rest).
  assert (Hb1 : b = pre ++ bytesU16BE (len u) ++ u ++ rest)
    by (unfold b, hvccUnit; now rewrite <- app_assoc).
  assert (Hb2 : b = (pre ++ bytesU16BE (len u)) ++ u ++ rest)
    by (rewrite Hb1; now rewrite <- app_assoc).
  assert (Hread : readU16BE b (len pre) = Some (len u))
    by (rewrite Hb1; apply readU16BE_at; lia).
  assert (Hlenb : len b = len pre + 2 + len u + len rest).
  { rewrite Hb1, !len_app. change (len (bytesU16BE (len u))) with 2. lia. }
  assert (Hnalu : take (Z.to_nat (len u)) (drop (Z.to_nat (len pre + 2)) b)
                  = u).
  { replace (len pre + 2) with (len (pre ++ bytesU16BE (len u)))
      by (rewrite len_app; reflexivity).
    rewrite Hb2, drop_len_app, to_nat_len. apply take_app_length. }
  cbn [readNALUs]. rewrite Hread. cbv zeta. rewrite Hnalu.
  destruct (Z.ltb_spec (len b) (len pre + 2 + len u)) as [Hshort|_]; [lia|].
  reflexivity.
Qed.

Lemma readNALUs_units (units : list (list byte)) :
  forall (pre post : list byte) (ty : Z) (self : AVCDecoderConfRecord),
    Forall (fun u => len u < 2 ^ 16) units ->
    readNALUs (length units) (pre ++ concat (map hvccUnit units) ++ post)
      ty self (len pre)
    = Returned (fold_left (fun s u => addNALU s ty u) units self)
        (len (pre ++ concat (map hvccUnit units))) None.
Proof.
  induction units as [|u units IH]; intros pre post ty self Hall.
  - cbn. now rewrite app_nil_r.
  - apply Forall_cons in Hall as [Hu Hall].
    cbn [length map concat fold_left]. rewrite <- app_assoc.
    rewrite readNALUs_step by exact Hu.
    rewrite (app_assoc pre (hvccUnit u)).
    rewrite IH by exact Hall. now rewrite <- !app_assoc.
Qed.

Lemma index_at (pre rest : list byte) (x : byte) :
  index (pre ++ x :: rest) (len pre) = Some (byte_to_Z x).
Proof.
  unfold index, at_. pose proof (len_nonneg pre). pose proof (len_nonneg rest).
  rewrite len_app. change (len (x :: rest)) with (Z.of_nat (S (length rest))).
  destruct (Z.leb_spec 0 (len pre)); [|lia].
  destruct (Z.ltb_spec (len pre) (len pre + Z.of_nat (S (length rest))));
    [|lia].
  cbn [andb]. rewrite to_nat_len, nth_middle. reflexivity.
Qed.

Lemma readArrays_step (count : nat) (pre rest : list byte)
    (a : byte * list (list byte)) (self : AVCDecoderConfRecord) :
  len (snd a) < 2 ^ 16 ->
  Forall (fun u => len u < 2 ^ 16) (snd a) ->
  readArrays (S count) (pre ++ hvccArray a ++ rest) self (len pre)
  = readArrays count (pre ++ hvccArray a ++ rest)
      (fold_left (fun s u => addNALU s (Z.land (byte_to_Z (fst a)) 0x3f) u)
         (snd a) self)
      (len (pre ++ hvccArray a)).
Proof.
  intros Hnum Hall. destruct a as [t units]. cbn [fst snd] in *.
  pose proof (len_nonneg units). pose proof (len_nonneg pre).
  cbn [readArrays]. unfold hvccArray. cbn [fst snd].
  set (body := concat (map hvccUnit units)).
  replace (pre ++ ([t] ++ bytesU16BE (len units) ++ body) ++ rest)
    with (pre ++ t :: bytesU16BE (len units) ++ body ++ rest)
    by (cbn [app]; now rewrite <- !app_assoc).
  rewrite index_at. cbv zeta.
  set (b := pre ++ t :: bytesU16BE (len units) ++ body ++ rest).
  assert (Hb : b = (pre ++ [t]) ++ bytesU16BE (len units) ++ body ++ rest)
    by (unfold b; now rewrite <- app_assoc).
  destruct (Z.ltb_spec (len b) (len pre + 1 + 2)) as [Hshort|_].
  { rewrite Hb, !len_app in Hshort.
    change (len [t]) with 1 in Hshort.
    change (len (bytesU16BE (len units))) with 2 in Hshort.
    pose proof (len_nonneg (body ++ rest)). rewrite len_app in *. lia. }
  replace (len pre + 1) with (len (pre ++ [t]))
    by (rewrite len_app; reflexivity).
  rewrite Hb at 1. rewrite readU16BE_at by lia.
  replace (len (pre ++ [t]) + 2)
    with (len ((pre ++ [t]) ++ bytesU16BE (len units)))
    by (rewrite (len_app (pre ++ [t])); reflexivity).
  rewrite to_nat_len.
  replace b with (((pre ++ [t]) ++ bytesU16BE (len units)) ++ body ++ rest)
    at 1 by (rewrite Hb; now rewrite <- !app_assoc).
  unfold body at 1. rewrite readNALUs_units by exact Hall.
  fold body. f_equal. f_equal. cbn [app]. now rewrite <- !app_assoc.
Qed.

Lemma readArrays_arrays (arrays : list (byte * list (list byte))) :
  forall (pre : list byte) (self : AVCDecoderConfRecord),
    Forall (fun a => len (snd a) < 2 ^ 16
                     /\ Forall (fun u => len u < 2 ^ 16) (snd a)) arrays ->
    readArrays (length arrays) (pre ++ concat (map hvccArray arrays)) self
      (len pre)
    = Returned
        (fold_left
           (fun s a =>
              fold_left
                (fun s u => addNALU s (Z.land (byte_to_Z (fst a)) 0x3f) u)
                (snd a) s)
           arrays self)
        (len (pre ++ concat (map hvccArray arrays))) None.
Proof.
  induction arrays as [|a arrays IH]; intros pre self Hall.
  - cbn. now rewrite app_nil_r.
  - apply Forall_cons in Hall as [[Hnum Hu] Hall].
    cbn [length map concat fold_left].
    rewrite readArrays_step by assumption.
    rewrite (app_assoc pre (hvccArray a)).
    now rewrite IH by exact Hall.
Qed.

Lemma fold_addNALU (units : list (list byte)) (ty : Z) :
  forall self : AVCDecoderConfRecord,
    fold_left (fun s u => addNALU s ty u) units self
    = mkRecord (AVCProfileIndication self) (ProfileCompatibility self)
        (AVCLevelIndication self) (LengthSizeMinusOne self)
        (VPS self ++ (if ty =? HEVC_NAL_VPS then units else []))
        (SPS self ++ (if ty =? HEVC_NAL_SPS then units else []))
        (PPS self ++ (if ty =? HEVC_NAL_PPS then units else [])).
Proof.
  induction units as [|u units IH]; intros [a p l s V S P].
  - cbn [fold_left AVCProfileIndication ProfileCompatibility
         AVCLevelIndication LengthSizeMinusOne VPS SPS PPS].
    repeat case_match; now rewrite !app_nil_r.
  - cbn [fold_left]. rewrite IH. unfold addNALU.
    unfold HEVC_NAL_VPS, HEVC_NAL_SPS, HEVC_NAL_PPS.
    destruct (Z.eqb_spec ty 32) as [->|H32];
      [cbn; now rewrite <- app_assoc, !app_nil_r|].
    destruct (Z.eqb_spec ty 33) as [->|H33];
      [cbn; now rewrite <- app_assoc, !app_nil_r|].
    destruct (Z.eqb_spec ty 34) as [->|H34];
      [cbn; now rewrite <- app_assoc, !app_nil_r|].
    cbn. reflexivity.
Qed.

Lemma fold_arrays (arrays : list (byte * list (list byte))) :
  forall self : AVCDecoderConfRecord,
    fold_left
      (fun s a =>
         fold_left (fun s u => addNALU s (Z.land (byte_to_Z (fst a)) 0x3f) u)
           (snd a) s)
      arrays self
    = mkRecord (AVCProfileIndication self) (ProfileCompatibility self)
        (AVCLevelIndication self) (LengthSizeMinusOne self)
        (VPS self ++ unitsOf HEVC_NAL_VPS arrays)
        (SPS self ++ unitsOf HEVC_NAL_SPS arrays)
        (PPS self ++ unitsOf HEVC_NAL_PPS arrays).
Proof.
  induction arrays as [|a arrays IH]; intros self.
  - destruct self. cbn. now rewrite !app_nil_r.
  - cbn [fold_left]. rewrite IH, fold_addNALU.
    cbn [AVCProfileIndication ProfileCompatibility AVCLevelIndication
         LengthSizeMinusOne VPS SPS PPS].
    unfold unitsOf. cbn [flat_map]. now rewrite <- !app_assoc.
Qed.

(** X13.  On the layout it is written for (22 bytes, the number of arrays,
    and the arrays with their type byte, unit count and length-prefixed
    units) [Unmarshal] reads the whole buffer: the profile, compatibility
    and level fields come from bytes 1, 2-5 and 6, the units of the arrays
    of type 32, 33 and 34 are appended, in order, to the VPS, SPS and PPS
    lists, whatever the upper two bits of the type byte, and the units of
    any other type are skipped.  If one of the three lists is then still
    empty, the call panics instead of returning. *)
Theorem Unmarshal_hvcc (self : AVCDecoderConfRecord) (head : list byte)
    (arrays : list (byte * list (list byte))) :
  length head = 22%nat ->
  len arrays < 256 ->
  Forall (fun a => len (snd a) < 2 ^ 16
                   /\ Forall (fun u => len u < 2 ^ 16) (snd a)) arrays ->
  Unmarshal self (hvcc head arrays) =
    let self' :=
      mkRecord (Z.land (at_ head 1) 0x1f) (U32BE (drop 2 head)) (at_ head 6)
        (LengthSizeMinusOne self)
        (VPS self ++ unitsOf HEVC_NAL_VPS arrays)
        (SPS self ++ unitsOf HEVC_NAL_SPS arrays)
        (PPS self ++ unitsOf HEVC_NAL_PPS arrays) in
    match VPS self', SPS self', PPS self' with
    | _ :: _, _ :: _, _ :: _ => Returned self' (len (hvcc head arrays)) None
    | _, _, _ => Panicked
    end.
Proof.
  intros Hhead Hcount Hall.
  pose proof (len_nonneg arrays) as Hc0.
  unfold hvcc.
  set (c := Z_to_byte (len arrays)).
  set (body := concat (map hvccArray arrays)).
  assert (Hpre : len (head ++ [c]) = 23)
    by (rewrite len_app; unfold len; rewrite Hhead; reflexivity).
  assert (Hb : head ++ [c] ++ body = (head ++ [c]) ++ body)
    by now rewrite <- app_assoc.
  assert (Hlen : len (head ++ [c] ++ body) = 23 + len body)
    by (rewrite Hb, len_app, Hpre; reflexivity).
  pose proof (len_nonneg body) as Hbody.
  assert (Hc : Z.to_nat (at_ (head ++ [c] ++ body) 22) = length arrays).
  { unfold at_. rewrite <- Hhead. cbn [app]. rewrite nth_middle.
    unfold c. rewrite byte_to_Z_to_byte, Z.mod_small by lia.
    apply to_nat_len. }
  assert (H1 : at_ (head ++ [c] ++ body) 1 = at_ head 1).
  { unfold at_. f_equal. apply app_nth1. lia. }
  assert (H6 : at_ (head ++ [c] ++ body) 6 = at_ head 6).
  { unfold at_. f_equal. apply app_nth1. lia. }
  assert (H2 : U32BE (drop 2 (head ++ [c] ++ body)) = U32BE (drop 2 head)).
  { do 6 (destruct head as [|? head]; [discriminate|]). reflexivity. }
  unfold Unmarshal.
  destruct (Z.ltb_spec (len (head ++ [c] ++ body)) 7) as [Hshort|_]; [lia|].
  cbv zeta. cbn [AVCProfileIndication ProfileCompatibility AVCLevelIndication
                 LengthSizeMinusOne VPS SPS PPS].
  change (0 + 1 + 1 + 4 + 1) with 7. change (7 + 15 + 1) with 23.
  change (Z.to_nat (0 + 1 + 1)) with 2%nat.
  change (Z.to_nat (0 + 1 + 1 + 4)) with 6%nat.
  change (Z.to_nat (7 + 15)) with 22%nat.
  destruct (Z.geb_spec (7 + 15) (len (head ++ [c] ++ body))) as [Hshort|_];
    [lia|].
  rewrite Hc, H1, H2, H6.
  rewrite Hb at 1. rewrite <- Hpre.
  unfold body at 1. rewrite readArrays_arrays by exact Hall.
  rewrite fold_arrays.
  cbn [AVCProfileIndication ProfileCompatibility AVCLevelIndication
       LengthSizeMinusOne VPS SPS PPS].
  fold body. rewrite <- Hb. reflexivity.
Qed.

Lemma Unmarshal_hvcc_witness :
  let self := mkRecord 0 0 0 3 [] [] [] in
  let head :=
    [Byte.x01; Byte.x21; Byte.x01; Byte.x02; Byte.x03; Byte.x04; Byte.x05]
    ++ repeat Byte.x00 15 in
  let arrays :=
    [(Byte.xa0, [[Byte.x40; Byte.x01]]); (Byte.xa1, [[Byte.x42]]);
     (Byte.x27, [[Byte.x4e]]); (Byte.xa2, [[Byte.x44]; [Byte.x45]])] in
  Unmarshal self (hvcc head arrays)
  = Returned
      (mkRecord 1 0x01020304 5 3 [[Byte.x40; Byte.x01]] [[Byte.x42]]
         [[Byte.x44]; [Byte.x45]])
      (len (hvcc head arrays)) None.
Proof.
  intros self head arrays.
  apply (Unmarshal_hvcc self head arrays).
  - reflexivity.
  - reflexivity.
  - repeat constructor.
Defined.

End ReadDecoderRecord.

(** ** What [Marshal] writes *)

Section MarshalLayout.
Import H265.

Lemma store_app (pre post : list byte) (x v : byte) (b : list byte) (n : Z) :
  b = pre ++ x :: post -> n = len pre ->
  store b n v = Some (pre ++ v :: post).
Proof.
  intros -> ->. pose proof (len_nonneg pre).
  rewrite store_eq.
  - rewrite to_nat_len, insert_app_r_alt, Nat.sub_diag by lia. reflexivity.
  - rewrite len_app. unfold len in *. cbn [length]. lia.
Qed.

Lemma put_app (pre mid post bs b : list byte) (n : Z) :
  b = pre ++ mid ++ post -> n = len pre -> length mid = length bs ->
  put b n bs = Some (pre ++ bs ++ post).
Proof.
  intros -> -> Hlen. pose proof (len_nonneg pre). pose proof (len_nonneg post).
  rewrite put_eq.
  - rewrite to_nat_len, take_app_length, <- drop_drop, drop_app_length.
    now rewrite <- Hlen, drop_app_length.
  - lia.
  - rewrite !len_app. unfold len. lia.
Qed.

Lemma copy_at_app (pre mid post src b : list byte) (n : Z) :
  b = pre ++ mid ++ post -> n = len pre -> length mid = length src ->
  copy_at b n src = Some (pre ++ src ++ post).
Proof.
  intros -> -> Hlen. unfold copy_at, len.
  destruct (Z.leb_spec 0 (Z.of_nat (length pre))); [|lia].
  rewrite !length_app.
  destruct (Z.leb_spec (Z.of_nat (length pre))
              (Z.of_nat (length pre + (length mid + length post))));
    [|lia].
  cbn [andb]. rewrite Nat2Z.id.
  replace (length src `min` (length pre + (length mid + length post)
                             - length pre))%nat
    with (length src) by lia.
  rewrite take_app_length, firstn_all, <- drop_drop, drop_app_length.
  now rewrite <- Hlen, drop_app_length.
Qed.

Lemma split_mid (pre mid post : list byte) (k : nat) :
  pre ++ mid ++ post = pre ++ take k mid ++ drop k mid ++ post.
Proof. now rewrite (app_assoc (take k mid)), take_drop. Qed.

Lemma marshalNALU_app (pre mid post nalu b : list byte) (n : Z) :
  b = pre ++ mid ++ post -> n = len pre ->
  length mid = (2 + length nalu)%nat ->
  marshalNALU (b, n) nalu
  = Some (pre ++ marshalUnit nalu ++ post, n + 2 + len nalu).
Proof.
  intros -> -> Hlen. unfold marshalNALU, marshalUnit.
  set (bs := bytesU16BE (len nalu mod 2 ^ 16)).
  rewrite (put_app pre (take 2 mid) (drop 2 mid ++ post) bs);
    [|apply split_mid|reflexivity
     |rewrite length_take; change (length bs) with 2%nat; lia].
  cbn [mbind option_bind].
  rewrite (copy_at_app (pre ++ bs) (drop 2 mid) post nalu);
    [|now rewrite <- app_assoc|rewrite len_app; reflexivity
     |rewrite length_drop; lia].
  cbn [mbind option_bind]. now rewrite <- !app_assoc.
Qed.

Lemma len_marshalUnits (nalus : list (list byte)) :
  len (concat (map marshalUnit nalus)) = nalusLen nalus.
Proof.
  induction nalus as [|x l IH]; [reflexivity|].
  cbn [map concat]. rewrite nalusLen_cons, len_app, IH.
  unfold marshalUnit. rewrite len_app. reflexivity.
Qed.

Lemma marshalNALUs_app (nalus : list (list byte)) :
  forall (pre mid post b : list byte) (n : Z),
    b = pre ++ mid ++ post -> n = len pre -> len mid = nalusLen nalus ->
    marshalNALUs (b, n) nalus
    = Some (pre ++ concat (map marshalUnit nalus) ++ post,
            n + nalusLen nalus).
Proof.
  induction nalus as [|x l IH]; intros pre mid post b n -> -> Hlen.
  - cbn [marshalNALUs map concat]. destruct mid; [|discriminate].
    cbn. now rewrite Z.add_0_r.
  - rewrite nalusLen_cons in *. pose proof (nalusLen_nonneg l).
    pose proof (len_nonneg x).
    cbn [marshalNALUs map concat].
    set (k := (2 + length x)%nat).
    rewrite (marshalNALU_app pre (take k mid) (drop k mid ++ post) x);
      [|apply split_mid|reflexivity
       |rewrite length_take; unfold k, len in *; lia].
    cbn [mbind option_bind].
    rewrite (IH (pre ++ marshalUnit x) (drop k mid) post);
      [|now rewrite <- app_assoc
       |unfold marshalUnit; rewrite !len_app;
        change (len (bytesU16BE (len x mod 2 ^ 16))) with 2; lia
       |unfold len in *; rewrite length_drop; unfold k; lia].
    rewrite <- !app_assoc. do 2 f_equal. lia.
Qed.

Lemma len_marshaled (r : AVCDecoderConfRecord) : len (marshaled r) = Len r.
Proof.
  unfold marshaled. rewrite Len_eq, !len_app, !len_marshalUnits.
  change (len (bytesU32BE (ProfileCompatibility r))) with 4.
  unfold len. cbn [length]. lia.
Qed.

(** X15.  [Marshal] replaces the first [Len] bytes of its buffer, whatever
    they were, by: the byte 1, the profile, the compatibility word in four
    bytes, the SPS units each behind its 16-bit length, the number of PPS
    units in one byte, and the PPS units each behind its 16-bit length; the
    rest of the buffer is kept.  The level byte, stored at index 6, is
    always overwritten by what follows, and neither [LengthSizeMinusOne]
    nor the VPS units nor the number of SPS units are written. *)
Theorem Marshal_layout (r : AVCDecoderConfRecord) (old post : list byte) :
  len old = Len r ->
  Marshal r (old ++ post) = Some (marshaled r ++ post, Len r).
Proof.
  intros Hold. rewrite Len_eq in *.
  pose proof (nalusLen_nonneg (SPS r)) as Hs.
  pose proof (nalusLen_nonneg (PPS r)) as Hp.
  destruct old as [|a0 [|a1 [|c0 [|c1 [|c2 [|c3 [|a6 rest]]]]]]];
    try (unfold len in Hold; cbn [length] in Hold; lia).
  assert (Hrest : len rest = nalusLen (SPS r) + nalusLen (PPS r)).
  { unfold len in *. cbn [length] in Hold. lia. }
  unfold Marshal. cbv zeta.
  change (0 + 1 + 1 + 4) with 6. change (0 + 1 + 1) with 2.
  change (0 + 1) with 1.
  set (p := Z_to_byte (AVCProfileIndication r)).
  set (c := bytesU32BE (ProfileCompatibility r)).
  set (tail := rest ++ post).
  rewrite (store_app [] (a1 :: c0 :: c1 :: c2 :: c3 :: a6 :: tail) a0);
    [|reflexivity|reflexivity].
  cbn [mbind option_bind app].
  rewrite (store_app [Z_to_byte 1] (c0 :: c1 :: c2 :: c3 :: a6 :: tail) a1);
    [|reflexivity|reflexivity].
  cbn [mbind option_bind app].
  rewrite (put_app [Z_to_byte 1; p] [c0; c1; c2; c3] (a6 :: tail) c);
    [|reflexivity|reflexivity|reflexivity].
  cbn [mbind option_bind].
  set (h := [Z_to_byte 1; p] ++ c).
  assert (Hh : len h = 6) by reflexivity.
  rewrite (store_app h tail a6);
    [|unfold h; now rewrite <- app_assoc|now rewrite Hh].
  cbn [mbind option_bind].
  set (lv := Z_to_byte (AVCLevelIndication r)).
  set (ks := Z.to_nat (nalusLen (SPS r))).
  assert (Hsplit : lv :: tail
                   = take ks (lv :: rest)
                     ++ drop ks (lv :: rest) ++ post).
  { rewrite app_assoc, take_drop. reflexivity. }
  destruct (drop ks (lv :: rest)) as [|x midP] eqn:Edrop.
  { apply (f_equal (@length _)) in Edrop. rewrite length_drop in Edrop.
    unfold len in *. cbn [length] in Edrop. lia. }
  assert (HmidP : len midP = nalusLen (PPS r)).
  { apply (f_equal (@length _)) in Edrop. rewrite length_drop in Edrop.
    unfold len in *. cbn [length] in Edrop. lia. }
  rewrite (marshalNALUs_app (SPS r) h (take ks (lv :: rest))
             (x :: midP ++ post));
    [|now rewrite Hsplit|now rewrite Hh
     |unfold len in *; rewrite length_take; cbn [length]; lia].
  cbn [mbind option_bind].
  set (us := concat (map marshalUnit (SPS r))).
  rewrite (store_app (h ++ us) (midP ++ post) x);
    [|now rewrite <- app_assoc
     |rewrite len_app, Hh; unfold us; now rewrite len_marshalUnits].
  cbn [mbind option_bind].
  set (cnt := Z_to_byte (len (PPS r))).
  rewrite (marshalNALUs_app (PPS r) (h ++ us ++ [cnt]) midP post);
    [|rewrite <- !app_assoc; reflexivity
     |rewrite !len_app, Hh; unfold us; rewrite len_marshalUnits;
      change (len [cnt]) with 1; lia
     |exact HmidP].
  f_equal. f_equal.
  - unfold marshaled, h, us, cnt, c, p. cbn [app]. now rewrite <- !app_assoc.
  - lia.
Qed.

Lemma Marshal_layout_witness :
  let r := mkRecord 1 0x01020304 0x5d 3 [[Byte.x40]] [[Byte.x42; Byte.x01]]
             [[Byte.x44]] in
  Marshal r (repeat Byte.xff 14 ++ [Byte.xee])
  = Some ([Byte.x01; Byte.x01; Byte.x01; Byte.x02; Byte.x03; Byte.x04;
           Byte.x00; Byte.x02; Byte.x42; Byte.x01; Byte.x01;
           Byte.x00; Byte.x01; Byte.x44; Byte.xee], 14).
Proof.
  intros r. apply (Marshal_layout r (repeat Byte.xff 14) [Byte.xee]).
  reflexivity.
Defined.

End MarshalLayout.
